(** * go-docmd: candidate resolution, text utilities and table of contents

    A shallow embedding of the pure core of go-docmd (argument
    disambiguation, package resolution, the symbol view of the Markdown
    renderer, indentation normalisation, first-sentence summaries and
    the table of contents of a package tree), with the properties its
    specification states about them.

    Go strings and byte slices are byte sequences: they are modelled as
    [string] (a list of 8-bit [ascii]); [len], indexing and slicing
    count bytes, as in Go.  Go's [int] is modelled as [Z]; every integer
    below is a length or an index of a string held in memory, so no
    wrap-around can occur. *)

From Stdlib Require Import ZArith Ascii String.
From stdpp Require Import base list strings gmap sorting.

Local Open Scope Z_scope.

(** ** Bytes used by the program *)

Definition TAB : ascii := "009"%char.
Definition LF : ascii := "010"%char.
Definition VT : ascii := "011"%char.
Definition FF : ascii := "012"%char.
Definition CR : ascii := "013"%char.
Definition SP : ascii := " "%char.
Definition DQUOTE : ascii := "034"%char.
Definition DOT : ascii := "."%char.
Definition SLASH : ascii := "/"%char.
Definition BACKSLASH : ascii := "\"%char.
Definition PIPE : ascii := "|"%char.

(** The one-byte string ["\n"]. *)
Definition NL : string := String LF "".

(** A Go rune (a Unicode code point). *)
Definition rune := Z.

(** A Go [error], by the text of its [Error()] method. *)
Definition error := string.

(** A call that returns [(value, error)]. *)
Inductive result (A : Type) : Type :=
| Ok (a : A)
| Err (e : error).
Global Arguments Ok {A} a.
Global Arguments Err {A} e.

(** [packages.Package], as far as the program reads it: the import path
    and the text of each entry of [Errors]. *)
Record Package := {
  PkgPath : string;
  Errors : list string;
}.

(** The file system, as far as the program changes it: the content of
    the files by path, and the paths that [os.MkdirAll] has made
    directories, each with the parents it needed. *)
Record FS := FileSystem {
  fs_files : gmap string string;
  fs_dirs : gset string;
}.

(** ** The Go standard library, as far as the program uses it

    The parts of the standard library that depend on Unicode tables, on
    the operating system or on the packages on disk are not part of the
    repository; they are the fields of [GoRuntime].  Every theorem below
    holds for every runtime. *)

Class GoRuntime := {
  (** [strings.TrimFunc(s, unicode.IsSpace)] *)
  strings_TrimFunc_IsSpace : string → string;
  (** [strings.TrimRightFunc(s, unicode.IsSpace)] *)
  strings_TrimRightFunc_IsSpace : string → string;
  (** the rune returned by [utf8.DecodeRuneInString] *)
  utf8_DecodeRuneInString : string → rune;
  (** [unicode.IsUpper] *)
  unicode_IsUpper : rune → bool;
  (** [strings.EqualFold] *)
  strings_EqualFold : string → string → bool;
  (** [strconv.Quote], the [%q] verb of [fmt] *)
  strconv_Quote : string → string;
  (** [filepath.Join] of two elements *)
  filepath_Join : string → string → string;
  (** [filepath.ToSlash] *)
  filepath_ToSlash : string → string;
  (** [packages.Load(cfg, patterns...)] on the source tree at hand *)
  packages_Load : list string → result (list Package);
  (** the error of [os.MkdirAll(path, 0o755)], if it fails *)
  os_MkdirAll_error : FS → string → option error;
  (** the error of [os.WriteFile(path, data, 0o644)], if it fails *)
  os_WriteFile_error : FS → string → string → option error;
}.

(** [os.MkdirAll(path, 0o755)]: the file system with the directory
    [path], or the error. *)
Definition os_MkdirAll `{GoRuntime} (fs : FS) (path : string) : result FS :=
  match os_MkdirAll_error fs path with
  | Some err => Err err
  | None => Ok (FileSystem (fs_files fs) ({[path]} ∪ fs_dirs fs))
  end.

(** [os.WriteFile(path, data, 0o644)]: the file system with [data] at
    [path], or the error. *)
Definition os_WriteFile `{GoRuntime} (fs : FS) (path data : string)
    : result FS :=
  match os_WriteFile_error fs path data with
  | Some err => Err err
  | None => Ok (FileSystem (<[path := data]> (fs_files fs)) (fs_dirs fs))
  end.

Module GoStrings.

(** [len(s)] *)
Definition len (s : string) : Z := Z.of_nat (String.length s).

(** [s[n:]] for [0 <= n <= len(s)] *)
Fixpoint sliceFrom (n : nat) (s : string) : string :=
  match n, s with
  | O, _ => s
  | S n', String _ r => sliceFrom n' r
  | S _, EmptyString => EmptyString
  end.

(** [s[:n]] for [0 <= n <= len(s)] *)
Fixpoint sliceTo (n : nat) (s : string) : string :=
  match n, s with
  | O, _ => EmptyString
  | S n', String c r => String c (sliceTo n' r)
  | S _, EmptyString => EmptyString
  end.

(** [strings.Contains(s, string(c))] for a one-byte string *)
Fixpoint ContainsByte (s : string) (c : ascii) : bool :=
  match s with
  | EmptyString => false
  | String a r => if Ascii.eqb a c then true else ContainsByte r c
  end.

(** [strings.ContainsAny(s, chars)] for ASCII [chars] *)
Fixpoint ContainsAny (s chars : string) : bool :=
  match s with
  | EmptyString => false
  | String a r => if ContainsByte chars a then true else ContainsAny r chars
  end.

(** [strings.Split(s, string(sep))] for a one-byte separator: the
    pieces between the separators, one more than there are separators
    (so [[""]] for the empty string). *)
Fixpoint Split (s : string) (sep : ascii) : list string :=
  match s with
  | EmptyString => [EmptyString]
  | String a r =>
      if Ascii.eqb a sep then EmptyString :: Split r sep
      else match Split r sep with
           | [] => [String a EmptyString]
           | p :: ps => String a p :: ps
           end
  end.

(** [strings.Join(parts, sep)] *)
Fixpoint Join (parts : list string) (sep : string) : string :=
  match parts with
  | [] => EmptyString
  | [p] => p
  | p :: ps => p +:+ sep +:+ Join ps sep
  end.

(** [strings.HasPrefix(s, prefix)] *)
Definition HasPrefix (s prefix : string) : bool := String.prefix prefix s.

(** [strings.Index(s, substr)]: the least [i] such that [s[i:]] begins
    with [substr], or [-1]. *)
Fixpoint Index (s substr : string) : Z :=
  if HasPrefix s substr then 0
  else match s with
       | EmptyString => -1
       | String _ r => let i := Index r substr in
                       if i <? 0 then -1 else i + 1
       end.

(** [strings.ReplaceAll(s, string(old), string(new))] for one-byte
    strings *)
Fixpoint ReplaceAllByte (s : string) (old new : ascii) : string :=
  match s with
  | EmptyString => EmptyString
  | String a r =>
      String (if Ascii.eqb a old then new else a) (ReplaceAllByte r old new)
  end.

(** The table [asciiSpace] of package [strings]. *)
Definition asciiSpace (c : ascii) : bool :=
  Ascii.eqb c TAB || Ascii.eqb c LF || Ascii.eqb c VT
  || Ascii.eqb c FF || Ascii.eqb c CR || Ascii.eqb c SP.

(** [c >= utf8.RuneSelf] *)
Definition geRuneSelf (c : ascii) : bool := (128 <=? nat_of_ascii c)%nat.

Section TrimSpace.
Context `{GoRuntime}.

(** The second loop of [strings.TrimSpace], on [s[start:]] read
    backwards: drop trailing ASCII space, and hand over to
    [TrimRightFunc] at the first byte that is not ASCII. *)
Fixpoint trimSpaceStop (rs : string) : string :=
  match rs with
  | EmptyString => EmptyString
  | String c rs' =>
      if geRuneSelf c then strings_TrimRightFunc_IsSpace (String.rev rs)
      else if asciiSpace c then trimSpaceStop rs'
      else String.rev rs
  end.

(** [strings.TrimSpace]: the first loop skips leading ASCII space
    and hands over to [TrimFunc] at the first byte that is not
    ASCII. *)
Fixpoint TrimSpace (s : string) : string :=
  match s with
  | EmptyString => EmptyString
  | String c r =>
      if geRuneSelf c then strings_TrimFunc_IsSpace s
      else if asciiSpace c then TrimSpace r
      else trimSpaceStop (String.rev s)
  end.
End TrimSpace.

End GoStrings.

Module bytes.
(** [bytes.HasSuffix(s, suffix)]:
    [len(s) >= len(suffix) && Equal(s[len(s)-len(suffix):], suffix)] *)
Definition HasSuffix (s suffix : string) : bool :=
  (GoStrings.len s >=? GoStrings.len suffix)
  && String.eqb
       (GoStrings.sliceFrom
          (Z.to_nat (GoStrings.len s - GoStrings.len suffix)) s)
       suffix.
End bytes.

(** ** Candidate resolution *)

Record invocation := Invocation {
  pkgExpr : string;
  symbol : string;
  method : string;
}.

Global Instance invocation_eq_dec : EqDecision invocation.
Proof. solve_decision. Defined.

(** [splitSymbol].  [strings.Split] never returns an empty slice
    ([Split_nonempty] below), so the first branch of the [match] is
    never taken: there [parts[0]] would panic. *)
Definition splitSymbol (spec : string) : string * string :=
  if String.eqb spec "" then ("", "")
  else match GoStrings.Split spec DOT with
       | [] => ("", "")
       | [p] => (p, "")
       | p :: ps => (p, GoStrings.Join ps ".")
       end.

(** [displaySymbol] *)
Definition displaySymbol (symbol method : string) : string :=
  if String.eqb symbol "" then ""
  else if String.eqb method "" then symbol
  else symbol +:+ "." +:+ method.

(** [startsWithUpper] *)
Definition startsWithUpper `{GoRuntime} (s : string) : bool :=
  if String.eqb s "" then false
  else unicode_IsUpper (utf8_DecodeRuneInString s).

(** [parseCompound]: one loop step for index [i]. *)
Definition parseCompoundStep (arg : string) (result : list invocation)
    (i : nat) : list invocation :=
  if negb (bool_decide (String.get i arg = Some DOT)) then result
  else
    let pkgExpr := GoStrings.sliceTo i arg in
    let symbolSpec := GoStrings.sliceFrom (S i) arg in
    if String.eqb pkgExpr "" then result
    else
      let '(symbol, method) := splitSymbol symbolSpec in
      result ++ [Invocation pkgExpr symbol method].

(** [parseCompound]: [for i := 0; i < len(arg); i++]. *)
Definition parseCompound (arg : string) : list invocation :=
  foldl (parseCompoundStep arg) [] (seq 0 (String.length arg)).

(** The two variables that the closure [add] of [singleArgCandidates]
    captures: the set [seen] of keys and the slice [candidates]. *)
Record addState := AddState {
  seen : gset string;
  candidates : list invocation;
}.

(** The key that [add] computes for a triple. *)
Definition addKey (pkgExpr symbol method : string) : string :=
  pkgExpr +:+ "|" +:+ symbol +:+ "|" +:+ method.

(** The closure [add] of [singleArgCandidates]: the key is looked up
    and recorded first; the candidate whose package expression is empty
    gets ["."] afterwards. *)
Definition add (st : addState) (pkgExpr symbol method : string) : addState :=
  let key := addKey pkgExpr symbol method in
  if bool_decide (key ∈ seen st) then st
  else
    let cand :=
      Invocation (if String.eqb pkgExpr "" then "." else pkgExpr)
                 symbol method in
    AddState ({[key]} ∪ seen st) (candidates st ++ [cand]).

(** [singleArgCandidates] *)
Definition singleArgCandidates `{GoRuntime} (arg : string) : list invocation :=
  let st := AddState ∅ [] in
  let st :=
    if startsWithUpper arg
       && negb (GoStrings.ContainsAny arg (String SLASH (String BACKSLASH "")))
    then let '(symbol, method) := splitSymbol arg in add st "." symbol method
    else st in
  let st := add st arg "" "" in
  let st :=
    if GoStrings.ContainsByte arg DOT
    then foldl (λ st cand, add st (pkgExpr cand) (symbol cand) (method cand))
               st (parseCompound arg)
    else st in
  let '(symbol, method) := splitSymbol arg in
  let st := add st "." symbol method in
  candidates st.

(** [buildCandidates] *)
Definition buildCandidates `{GoRuntime} (args : list string)
    : result (list invocation) :=
  match args with
  | [] => Ok [Invocation "." "" ""]
  | [arg] => Ok (singleArgCandidates arg)
  | [arg0; arg1] =>
      let '(symbol, method) := splitSymbol arg1 in
      Ok [Invocation arg0 symbol method]
  | _ => Err "too many positional arguments"
  end.

(** ** Package resolution *)

(** [loadPackage].  The context argument only carries cancellation. *)
Definition loadPackage `{GoRuntime} (pattern : string) : result Package :=
  match packages_Load [pattern] with
  | Err err => Err err
  | Ok [] => Err ("no Go packages matched " +:+ strconv_Quote pattern)
  | Ok (pkg :: _) =>
      match Errors pkg with
      | e :: _ => Err e
      | [] => Ok pkg
      end
  end.

(** The package-level variables [stdOnce], [stdPackages] and [stdErr]. *)
Record stdCache := StdCache {
  stdOnce : bool;
  stdPackages : list string;
  stdErr : option error;
}.

(** The cache when the process starts. *)
Definition stdCache_init : stdCache := StdCache false [] None.

(** [sort.Strings]: ascending in the byte order of [<] on strings. *)
Definition sort_Strings (l : list string) : list string :=
  merge_sort String.le l.

(** [loadStdPackages] *)
Definition loadStdPackages `{GoRuntime} (c : stdCache) : stdCache :=
  match packages_Load ["std"; "cmd/..."] with
  | Err err => StdCache (stdOnce c) (stdPackages c) (Some err)
  | Ok pkgs =>
      StdCache (stdOnce c)
               (sort_Strings (stdPackages c ++ map PkgPath pkgs)) (stdErr c)
  end.

(** [stdOnce.Do(loadStdPackages)] *)
Definition stdOnce_Do `{GoRuntime} (c : stdCache) : stdCache :=
  if stdOnce c then c
  else let c := loadStdPackages c in StdCache true (stdPackages c) (stdErr c).

(** [strings.HasSuffix] *)
Definition strings_HasSuffix (s suffix : string) : bool :=
  bytes.HasSuffix s suffix.

(** [matchStdSuffix]: one step of the loop over [stdPackages]. *)
Definition matchStdSuffixStep (arg best path : string) : string :=
  if String.eqb path arg || strings_HasSuffix path ("/" +:+ arg)
  then if String.eqb best "" || String.ltb path best then path else best
  else best.

(** [matchStdSuffix] *)
Definition matchStdSuffix `{GoRuntime} (arg : string) (c : stdCache)
    : string * stdCache :=
  if String.eqb arg "" then ("", c)
  else
    let c := stdOnce_Do c in
    match stdErr c with
    | Some _ => ("", c)
    | None => (foldl (matchStdSuffixStep arg) "" (stdPackages c), c)
    end.

(** The [for _, candidate := range try] loop of [resolvePackage]: the
    first candidate that loads. *)
Fixpoint resolvePackageTry `{GoRuntime} (try : list string) : option Package :=
  match try with
  | [] => None
  | candidate :: try' =>
      if String.eqb candidate "" then resolvePackageTry try'
      else match loadPackage candidate with
           | Ok pkg => Some pkg
           | Err _ => resolvePackageTry try'
           end
  end.

(** [resolvePackage] *)
Definition resolvePackage `{GoRuntime} (expr : string) (c : stdCache)
    : result Package * stdCache :=
  let try := if String.eqb expr "" then ["."] else [expr] in
  match resolvePackageTry try with
  | Some pkg => (Ok pkg, c)
  | None =>
      let '(match_, c) := matchStdSuffix expr c in
      if negb (String.eqb match_ "") then (loadPackage match_, c)
      else (Err ("could not resolve package path for "
                 +:+ strconv_Quote expr), c)
  end.

(** ** The Markdown renderer *)

Record options := {
  all : bool;
  caseSensitive : bool;
  showCmd : bool;
  short : bool;
  showSource : bool;
  unexported : bool;
  outputPath : string;
  inplace : bool;
  includeMainVars : bool;
  includeMainFuncs : bool;
}.

(** The documentation model of [go/doc], as far as the renderer reads
    it; the declarations ([Decl]) only feed [go/format]. *)
Module doc.
Record Value := {
  Value_Names : list string;
  Value_Doc : string;
}.
Record Func := {
  Func_Name : string;
  Func_Doc : string;
}.
Record Type_ := {
  Type_Name : string;
  Type_Doc : string;
  Type_Consts : list Value;
  Type_Vars : list Value;
  Type_Funcs : list Func;
  Type_Methods : list Func;
}.
Record Package := {
  Name : string;
  ImportPath : string;
  Doc : string;
  Consts : list Value;
  Vars : list Value;
  Funcs : list Func;
  Types : list Type_;
}.
End doc.

Record markdownRenderer := {
  r_options : options;
  pkg : doc.Package;
}.

(** What the symbol view appends to its sink: one block per call of
    [renderTypeDoc], [renderFuncDoc] (with its receiver argument) or
    [renderValueDoc].  The Markdown text of a block comes from
    [go/format] and is not modelled. *)
Inductive block :=
| TypeDoc (t : doc.Type_)
| FuncDoc (f : doc.Func) (receiver : string)
| ValueDoc (v : doc.Value).

(** [renderTypeDoc], [renderFuncDoc], [renderValueDoc]: each call
    appends its block to the sink. *)
Definition renderTypeDoc (w : list block) (t : doc.Type_) : list block :=
  w ++ [TypeDoc t].
Definition renderFuncDoc (w : list block) (f : doc.Func) (receiver : string)
    : list block :=
  w ++ [FuncDoc f receiver].
Definition renderValueDoc (w : list block) (v : doc.Value) : list block :=
  w ++ [ValueDoc v].

Section Renderer.
Context `{GoRuntime}.
Variable r : markdownRenderer.

(** [matchName] *)
Definition matchName (name target : string) : bool :=
  if caseSensitive (r_options r) then String.eqb name target
  else strings_EqualFold name target.

(** The loop of [valueHasName]. *)
Fixpoint valueHasNameLoop (names : list string) (name : string) : bool :=
  match names with
  | [] => false
  | n :: names' =>
      if matchName n name then true else valueHasNameLoop names' name
  end.

(** [valueHasName] *)
Definition valueHasName (v : doc.Value) (name : string) : bool :=
  valueHasNameLoop (doc.Value_Names v) name.

(** The bodies of the loops of [renderSymbol], on the pair of the sink
    [w] and the variable [rendered]. *)
Definition symbolTypeStep (symbol : string) (st : list block * bool)
    (t : doc.Type_) : list block * bool :=
  if matchName (doc.Type_Name t) symbol
  then (renderTypeDoc st.1 t, true) else st.

Definition symbolFuncStep (symbol receiver : string)
    (st : list block * bool) (f : doc.Func) : list block * bool :=
  if matchName (doc.Func_Name f) symbol
  then (renderFuncDoc st.1 f receiver, true) else st.

Definition symbolValueStep (symbol : string) (st : list block * bool)
    (v : doc.Value) : list block * bool :=
  if valueHasName v symbol
  then (renderValueDoc st.1 v, true) else st.

Definition symbolMemberStep (symbol : string) (st : list block * bool)
    (t : doc.Type_) : list block * bool :=
  let st := foldl (symbolValueStep symbol) st (doc.Type_Consts t) in
  let st := foldl (symbolValueStep symbol) st (doc.Type_Vars t) in
  foldl (symbolFuncStep symbol (doc.Type_Name t)) st (doc.Type_Funcs t).

(** [renderSymbol]: the sink after the call, and the result. *)
Definition renderSymbol (w : list block) (symbol : string)
    : list block * bool :=
  let st := (w, false) in
  let st := foldl (symbolTypeStep symbol) st (doc.Types (pkg r)) in
  let st := foldl (symbolFuncStep symbol "") st (doc.Funcs (pkg r)) in
  let st := foldl (symbolValueStep symbol) st (doc.Consts (pkg r)) in
  let st := foldl (symbolValueStep symbol) st (doc.Vars (pkg r)) in
  foldl (symbolMemberStep symbol) st (doc.Types (pkg r)).
End Renderer.

(** [leadingWhitespace].  The loop ranges over runes; a space and a tab
    are one byte each and every other rune ends the loop, so the count
    is a count of bytes. *)
Fixpoint leadingWhitespace (line : string) : Z :=
  match line with
  | EmptyString => 0
  | String c rest =>
      if Ascii.eqb c SP || Ascii.eqb c TAB then 1 + leadingWhitespace rest
      else 0
  end.

Section Text.
Context `{GoRuntime}.

(** The body of the first loop of [dedentMarkdown]. *)
Definition minIndentStep (minIndent : Z) (line : string) : Z :=
  if String.eqb (GoStrings.TrimSpace line) "" then minIndent
  else
    let indent := leadingWhitespace line in
    if (minIndent =? -1) || (indent <? minIndent) then indent
    else minIndent.

(** The body of the second loop of [dedentMarkdown]. *)
Definition dedentLine (minIndent : Z) (line : string) : string :=
  if GoStrings.len line >=? minIndent
  then GoStrings.sliceFrom (Z.to_nat minIndent) line
  else line.

(** [dedentMarkdown] *)
Definition dedentMarkdown (src : string) : string :=
  let lines := GoStrings.Split src LF in
  let minIndent := foldl minIndentStep (-1) lines in
  if minIndent <=? 0 then src
  else GoStrings.Join (map (dedentLine minIndent) lines) NL.

(** [docMarkdown] *)
Definition docMarkdown (text : string) : string :=
  let trimmed := GoStrings.TrimSpace text in
  if String.eqb trimmed "" then ""
  else dedentMarkdown trimmed.

(** [summaryText] *)
Definition summaryText (text : string) : string :=
  let md := docMarkdown text in
  if String.eqb md "" then ""
  else
    let md := GoStrings.ReplaceAllByte md LF SP in
    let idx := GoStrings.Index md ". " in
    if idx >=? 0
    then GoStrings.TrimSpace (GoStrings.sliceTo (Z.to_nat (idx + 1)) md)
    else GoStrings.TrimSpace md.
End Text.

(** U+2014 EM DASH in UTF-8: E2 80 94. *)
Definition emDash : string :=
  String (ascii_of_nat 226) (String (ascii_of_nat 128)
    (String (ascii_of_nat 148) "")).

(** [bulletLine] *)
Definition bulletLine (signature summary : string) : string :=
  if String.eqb summary "" then "- `" +:+ signature +:+ "`"
  else "- `" +:+ signature +:+ "` " +:+ emDash +:+ " " +:+ summary.

(** ** The tree aggregator *)

(** [treeDoc]; [docSummary] is its field [summary]. *)
Record treeDoc := {
  relDir : string;
  pkgDir : string;
  pkgPath : string;
  docSummary : string;
  markdown : string;
}.

Record tocEntry := {
  title : string;
  link : string;
  summary : string;
}.

(** The eight bytes that the source file has between [") "] and [" %s"]
    in the first format string of [buildTOC]:
    C3 A2 E2 82 AC E2 80 9D (U+00E2, U+20AC, U+201D in UTF-8). *)
Definition tocSeparator : string :=
  String (ascii_of_nat 195) (String (ascii_of_nat 162)
    (String (ascii_of_nat 226) (String (ascii_of_nat 130)
      (String (ascii_of_nat 172) (String (ascii_of_nat 226)
        (String (ascii_of_nat 128) (String (ascii_of_nat 157) ""))))))).

(** The body of the loop of [buildTOC], on the buffer. *)
Definition buildTOCStep (buf : string) (entry : tocEntry) : string :=
  if negb (String.eqb (summary entry) "")
  then buf +:+ "- [" +:+ title entry +:+ "](" +:+ link entry +:+ ") "
           +:+ tocSeparator +:+ " " +:+ summary entry +:+ NL
  else buf +:+ "- [" +:+ title entry +:+ "](" +:+ link entry +:+ ")" +:+ NL.

(** [buildTOC]; the nil slice is the empty string. *)
Definition buildTOC (entries : list tocEntry) : string :=
  match entries with
  | [] => ""
  | _ =>
      let buf := "## Packages" +:+ NL +:+ NL in
      let buf := foldl buildTOCStep buf entries in
      buf +:+ NL
  end.

(** [appendTOCAfterDoc] *)
Definition appendTOCAfterDoc (doc toc : string) : string :=
  if GoStrings.len toc =? 0 then doc
  else if GoStrings.len doc =? 0 then toc
  else
    let content := doc in
    let content :=
      if negb (bytes.HasSuffix content (NL +:+ NL))
      then if bytes.HasSuffix content NL
           then content +:+ NL
           else content +:+ NL +:+ NL
      else content in
    content +:+ toc.

(** Whether [doc.relDir != "" && doc.relDir != "."]. *)
Definition isSubDir (d : treeDoc) : bool :=
  negb (String.eqb (relDir d) "") && negb (String.eqb (relDir d) ".").

(** [linkTitle] *)
Definition linkTitle `{GoRuntime} (d : treeDoc) : string :=
  if isSubDir d then filepath_ToSlash (relDir d)
  else if negb (String.eqb (pkgPath d) "") then pkgPath d
  else ".".

(** [sort.Slice(x, less)], by what it returns for the elements of [x]
    and [less].  The package promises an ascending permutation and no
    order among elements that [less] does not tell apart; which one it
    returns is left to the library. *)
Class GoSort := {
  sort_Slice : ∀ A : Type, (A → A → bool) → list A → list A;
}.
Global Arguments sort_Slice {_ A} less l.

(** What package [sort] promises of [sort.Slice] for a [less] that
    compares string keys with [<]. *)
Class SortSliceSpec `{GoSort} : Prop := {
  sort_Slice_Permutation :
    ∀ (A : Type) (less : A → A → bool) (l : list A), sort_Slice less l ≡ₚ l;
  sort_Slice_Sorted :
    ∀ (A : Type) (key : A → string) (l : list A),
      Sorted (λ a b, String.le (key a) (key b))
        (sort_Slice (λ a b, String.ltb (key a) (key b)) l);
}.

(** [sort.Slice(docs, ...)] by [relDir] and [sort.Slice(entries, ...)]
    by [title]. *)
Definition sortDocs `{GoSort} (docs : list treeDoc) : list treeDoc :=
  sort_Slice (λ a b, String.ltb (relDir a) (relDir b)) docs.
Definition sortEntries `{GoSort} (entries : list tocEntry) : list tocEntry :=
  sort_Slice (λ a b, String.ltb (title a) (title b)) entries.

(** The variables of the loop of [writePackageDocsToDir]. *)
Record writeState := WriteState {
  entries : list tocEntry;
  rootDoc : option treeDoc;
  rootPath : string;
  files : FS;
}.

(** The loop [for i := range docs] of [writePackageDocsToDir]; an error
    ends it. *)
Fixpoint writeDocsLoop `{GoRuntime} (outDir : string) (docs : list treeDoc)
    (st : writeState) : result writeState :=
  match docs with
  | [] => Ok st
  | d :: docs' =>
      let targetDir :=
        if isSubDir d then filepath_Join outDir (relDir d) else outDir in
      match os_MkdirAll (files st) targetDir with
      | Err err => Err err
      | Ok fs =>
          let filePath := filepath_Join targetDir "README.md" in
          if negb (isSubDir d)
          then writeDocsLoop outDir docs'
                 (WriteState (entries st) (Some d) filePath fs)
          else
            match os_WriteFile fs filePath (markdown d) with
            | Err err => Err err
            | Ok fs =>
                let entry :=
                  {| title := linkTitle d;
                     link := filepath_ToSlash
                               (filepath_Join (relDir d) "README.md");
                     summary := GoStrings.TrimSpace (docSummary d) |} in
                writeDocsLoop outDir docs'
                  (WriteState (entries st ++ [entry]) (rootDoc st)
                     (rootPath st) fs)
            end
      end
  end.

(** [writePackageDocsToDir]: the file system afterwards, or the
    error. *)
Definition writePackageDocsToDir `{GoRuntime} `{GoSort} (outDir : string)
    (docs : list treeDoc) (fs : FS) : result FS :=
  if String.eqb outDir "" then Err "missing output directory"
  else
    match os_MkdirAll fs outDir with
    | Err err => Err err
    | Ok fs =>
        let docs := sortDocs docs in
        match writeDocsLoop outDir docs (WriteState [] None "" fs) with
        | Err err => Err err
        | Ok st =>
            let entries := sortEntries (entries st) in
            let toc := buildTOC entries in
            match rootDoc st with
            | Some root =>
                let content := appendTOCAfterDoc (markdown root) toc in
                os_WriteFile (files st) (rootPath st) content
            | None =>
                if GoStrings.len toc >? 0
                then os_WriteFile (files st)
                       (filepath_Join outDir "README.md") toc
                else Ok (files st)
            end
        end
    end.

(** ** The specification's wording, for comparison with the code *)

(** The local candidate: the current directory, the argument split into
    symbol and method. *)
Definition localCandidate (arg : string) : invocation :=
  Invocation "." (splitSymbol arg).1 (splitSymbol arg).2.

(** For every dot position with a non-empty prefix: the prefix as
    package, the suffix split into symbol and method. *)
Definition compoundCandidates (arg : string) : list invocation :=
  flat_map
    (λ i, if bool_decide (String.get i arg = Some DOT)
             && negb (String.eqb (GoStrings.sliceTo i arg) "")
          then [Invocation (GoStrings.sliceTo i arg)
                  (splitSymbol (GoStrings.sliceFrom (S i) arg)).1
                  (splitSymbol (GoStrings.sliceFrom (S i) arg)).2]
          else [])
    (seq 0 (String.length arg)).

(** The four groups of candidates, in the order of section 4.1. *)
Definition candidateList `{GoRuntime} (arg : string) : list invocation :=
  (if startsWithUpper arg
      && negb (GoStrings.ContainsAny arg (String SLASH (String BACKSLASH "")))
   then [localCandidate arg] else [])
  ++ [Invocation arg "" ""]
  ++ (if GoStrings.ContainsByte arg DOT then compoundCandidates arg else [])
  ++ [localCandidate arg].

(** Deduplication by the exact triple: a triple that occurred earlier
    ([before]) is dropped, the order of the others is kept. *)
Fixpoint dedupTriples (before l : list invocation) : list invocation :=
  match l with
  | [] => []
  | x :: l' =>
      if bool_decide (x ∈ before) then dedupTriples before l'
      else x :: dedupTriples (x :: before) l'
  end.

(** The candidate list of section 4.1. *)
Definition specCandidates `{GoRuntime} (arg : string) : list invocation :=
  dedupTriples [] (candidateList arg).

(** What [add] stores for a triple: an empty package expression
    becomes ["."]. *)
Definition dotIfEmpty (c : invocation) : invocation :=
  Invocation (if String.eqb (pkgExpr c) "" then "." else pkgExpr c)
             (symbol c) (method c).

(** [add] for each triple of a list, in order. *)
Definition addAll (st : addState) (l : list invocation) : addState :=
  foldl (λ st cand, add st (pkgExpr cand) (symbol cand) (method cand)) st l.

(** [k] bytes [|], and whether a string has no other byte. *)
Fixpoint pipes (k : nat) : string :=
  match k with
  | O => EmptyString
  | S k' => String PIPE (pipes k')
  end.

Fixpoint allPipes (s : string) : bool :=
  match s with
  | EmptyString => true
  | String c r => Ascii.eqb c PIPE && allPipes r
  end.

(** A dot followed by one or more [|].  On these arguments, and on no
    others, two different triples of the candidate list have the same
    key. *)
Definition dotPipes (arg : string) : bool :=
  match arg with
  | String c (String d r) => Ascii.eqb c DOT && Ascii.eqb d PIPE && allPipes r
  | _ => false
  end.

(** A candidate with a non-empty package expression. *)
Definition hasPackage (c : invocation) : Prop := pkgExpr c ≠ "".

(** The key of a candidate. *)
Definition keyOf (c : invocation) : string :=
  addKey (pkgExpr c) (symbol c) (method c).

(** Whether a line counts as non-blank in [dedentMarkdown]. *)
Definition nonBlank `{GoRuntime} (line : string) : bool :=
  negb (String.eqb (GoStrings.TrimSpace line) "").

(** The indentations of the non-blank lines. *)
Definition indents `{GoRuntime} (lines : list string) : list Z :=
  map leadingWhitespace (filter (λ l, nonBlank l = true) lines).

(** The least element of a list of integers, [0] for the empty list. *)
Definition minimum (l : list Z) : Z :=
  match l with
  | [] => 0
  | x :: l' => foldr Z.min x l'
  end.

(** The minimum leading-whitespace count among the non-blank lines;
    [0] when every line is blank. *)
Definition specMinIndent `{GoRuntime} (lines : list string) : Z :=
  minimum (indents lines).

(** The first-sentence summary of section 4.3: dedent, collapse the
    newlines, truncate after the first [". "], trim. *)
Definition specSummary `{GoRuntime} (text : string) : string :=
  let md := GoStrings.ReplaceAllByte (dedentMarkdown text) LF SP in
  let idx := GoStrings.Index md ". " in
  GoStrings.TrimSpace
    (if idx >=? 0 then GoStrings.sliceTo (Z.to_nat (idx + 1)) md else md).

(** The bullet of a table-of-contents entry in section 4.4: a link,
    then, for a non-empty summary, an em dash between two spaces and the
    summary. *)
Definition specTOCLine (e : tocEntry) : string :=
  "- [" +:+ title e +:+ "](" +:+ link e +:+ ")"
  +:+ (if String.eqb (summary e) "" then ""
       else " " +:+ emDash +:+ " " +:+ summary e)
  +:+ NL.

(** The table of contents of section 4.4. *)
Definition specTOC (entries : list tocEntry) : string :=
  "## Packages" +:+ NL +:+ NL
  +:+ foldr (λ e rest, specTOCLine e +:+ rest) "" entries +:+ NL.

(** The blocks of the symbol view, in the order of section 4.3: the
    matching types, top-level functions, constants and variables, then
    for each type its matching constants, variables and constructor
    functions. *)
Section SymbolMatches.
Context `{GoRuntime}.
Variable r : markdownRenderer.
Variable symbol : string.

Definition matchingTypes (ts : list doc.Type_) : list block :=
  TypeDoc <$> filter (λ t, matchName r (doc.Type_Name t) symbol = true) ts.

Definition matchingFuncs (receiver : string) (fs : list doc.Func)
    : list block :=
  (λ f, FuncDoc f receiver)
    <$> filter (λ f, matchName r (doc.Func_Name f) symbol = true) fs.

Definition matchingValues (vs : list doc.Value) : list block :=
  ValueDoc <$> filter (λ v, valueHasName r v symbol = true) vs.

Definition matchingMembers (t : doc.Type_) : list block :=
  matchingValues (doc.Type_Consts t)
  ++ matchingValues (doc.Type_Vars t)
  ++ matchingFuncs (doc.Type_Name t) (doc.Type_Funcs t).

Definition symbolMatches : list block :=
  matchingTypes (doc.Types (pkg r))
  ++ matchingFuncs "" (doc.Funcs (pkg r))
  ++ matchingValues (doc.Consts (pkg r))
  ++ matchingValues (doc.Vars (pkg r))
  ++ flat_map matchingMembers (doc.Types (pkg r)).
End SymbolMatches.

(** The line that [buildTOC] writes for an entry. *)
Definition tocLine (e : tocEntry) : string :=
  "- [" +:+ title e +:+ "](" +:+ link e +:+ ")"
  +:+ (if String.eqb (summary e) "" then ""
       else " " +:+ tocSeparator +:+ " " +:+ summary e)
  +:+ NL.

(** The padding that [appendTOCAfterDoc] puts after the root content. *)
Definition tocPadding (doc : string) : string :=
  if bytes.HasSuffix doc (NL +:+ NL) then ""
  else if bytes.HasSuffix doc NL then NL
  else NL +:+ NL.

(** The entry that [writePackageDocsToDir] collects for a subpackage. *)
Definition tocEntryOf `{GoRuntime} (d : treeDoc) : tocEntry :=
  {| title := linkTitle d;
     link := filepath_ToSlash (filepath_Join (relDir d) "README.md");
     summary := GoStrings.TrimSpace (docSummary d) |}.

(** Text without a byte of a multi-byte rune. *)
Fixpoint allASCII (s : string) : bool :=
  match s with
  | EmptyString => true
  | String c r => negb (GoStrings.geRuneSelf c) && allASCII r
  end.

(** The claims as they are worded, where the code departs from them. *)

(** C1: a method whose name matches the symbol is rendered by the
    symbol view, which then returns true. *)
Definition rendersMatchingMethods `{GoRuntime} (r : markdownRenderer)
    (symbol : string) : Prop :=
  ∀ t m, t ∈ doc.Types (pkg r) → m ∈ doc.Type_Methods t →
    matchName r (doc.Func_Name m) symbol = true →
    FuncDoc m (doc.Type_Name t) ∈ (renderSymbol r [] symbol).1
    ∧ (renderSymbol r [] symbol).2 = true.

(** C2: when the verbatim load fails and the suffix search finds
    nothing, the load error is the returned error. *)
Definition surfacesLoadError `{GoRuntime} (expr : string) (c : stdCache)
    : Prop :=
  ∀ e, loadPackage (if String.eqb expr "" then "." else expr) = Err e →
    (matchStdSuffix expr c).1 = "" →
    (resolvePackage expr c).1 = Err e.


(** C8: an empty method part means that the symbol is the whole input,
    which has no dot; otherwise the symbol has no dot and the two parts
    give the input back. *)
Definition splitSymbolLossless (spec : string) : Prop :=
  ((splitSymbol spec).2 = "" →
     (splitSymbol spec).1 = spec ∧ GoStrings.ContainsByte spec DOT = false)
  ∧ ((splitSymbol spec).2 ≠ "" →
     GoStrings.ContainsByte (splitSymbol spec).1 DOT = false
     ∧ (splitSymbol spec).1 +:+ "." +:+ (splitSymbol spec).2 = spec).

(** C10: every candidate has a non-empty package expression. *)
Definition candidatesHavePackage `{GoRuntime} (args : list string) : Prop :=
  ∀ cands, buildCandidates args = Ok cands →
    Forall (λ c, pkgExpr c ≠ "") cands.

(** Ends with exactly one blank line: with two newlines, not three. *)
Definition endsWithOneBlankLine (s : string) : Prop :=
  bytes.HasSuffix s (NL +:+ NL) = true
  ∧ bytes.HasSuffix s (NL +:+ NL +:+ NL) = false.

(** C7: the result is the root content, adjusted to end with exactly
    one blank line, followed by the table of contents. *)
Definition appendsAfterOneBlankLine (doc toc : string) : Prop :=
  ∃ adjusted, appendTOCAfterDoc doc toc = adjusted +:+ toc
              ∧ endsWithOneBlankLine adjusted.

(** ** A runtime for closed examples *)

(** ASCII lower case of a byte. *)
Definition asciiLower (c : ascii) : ascii :=
  let n := nat_of_ascii c in
  if (65 <=? n)%nat && (n <=? 90)%nat then ascii_of_nat (n + 32) else c.

Fixpoint asciiLowerString (s : string) : string :=
  match s with
  | EmptyString => EmptyString
  | String c r => String (asciiLower c) (asciiLowerString r)
  end.

(** What the standard library computes on ASCII text and on slash
    separated paths without [.] or [..] elements, over the packages
    [load] and a file system on which no call fails. *)
Definition asciiRuntime (load : list string → result (list Package))
    : GoRuntime := {|
  strings_TrimFunc_IsSpace s := s;
  strings_TrimRightFunc_IsSpace s := s;
  utf8_DecodeRuneInString s :=
    match s with
    | EmptyString => 65533
    | String c _ => Z.of_nat (nat_of_ascii c)
    end;
  unicode_IsUpper r := (65 <=? r) && (r <=? 90);
  strings_EqualFold s t :=
    String.eqb (asciiLowerString s) (asciiLowerString t);
  strconv_Quote s := String DQUOTE s +:+ String DQUOTE "";
  filepath_Join a b := a +:+ "/" +:+ b;
  filepath_ToSlash s := s;
  packages_Load := load;
  os_MkdirAll_error _ _ := None;
  os_WriteFile_error _ _ _ := None;
|}.

(** The package of the test data: the type [Greeter] with the
    constructor [NewGreeter] and the method [Greet]. *)
Definition examplePackage : doc.Package := {|
  doc.Name := "example";
  doc.ImportPath := "example";
  doc.Doc := "Package example demonstrates documentation rendering.";
  doc.Consts :=
    [{| doc.Value_Names := ["Answer"];
        doc.Value_Doc := "Answer documents an exported constant." |}];
  doc.Vars := [];
  doc.Funcs := [];
  doc.Types :=
    [{| doc.Type_Name := "Greeter";
        doc.Type_Doc := "Greeter produces greeting messages.";
        doc.Type_Consts := [];
        doc.Type_Vars := [];
        doc.Type_Funcs :=
          [{| doc.Func_Name := "NewGreeter";
              doc.Func_Doc := "NewGreeter constructs a Greeter." |}];
        doc.Type_Methods :=
          [{| doc.Func_Name := "Greet";
              doc.Func_Doc := "Greet returns a friendly message." |}] |}];
|}.

Definition defaultOptions : options := {|
  all := false; caseSensitive := false; showCmd := false; short := false;
  showSource := false; unexported := false; outputPath := "";
  inplace := false; includeMainVars := false; includeMainFuncs := false;
|}.

Definition exampleRenderer : markdownRenderer :=
  {| r_options := defaultOptions; pkg := examplePackage |}.

(** The text of a comment whose lines are indented alike, as
    [CommentGroup.Text] returns it for a block comment. *)
Definition indentedDoc : string :=
  "  Greet returns" +:+ NL +:+ "  a friendly message. It never fails.".

(** The two packages of the test data, rendered. *)
Definition exampleDocs : list treeDoc :=
  [ {| relDir := "subpkg"; pkgDir := "/src/example/subpkg";
       pkgPath := "example/subpkg";
       docSummary := "Message exposes a sample constant.";
       markdown := "# package subpkg" +:+ NL +:+ NL |};
    {| relDir := "."; pkgDir := "/src/example";
       pkgPath := "example";
       docSummary := "Package example demonstrates documentation rendering.";
       markdown := "# package example" +:+ NL +:+ NL |} ].

(** The entry of the subpackage of the test data. *)
Definition subpkgEntry : tocEntry := {|
  title := "subpkg";
  link := "subpkg/README.md";
  summary := "Message exposes a sample constant.";
|}.

(** No package loads: every pattern is reported as malformed. *)
Definition noPackages (patterns : list string) : result (list Package) :=
  Err "malformed import path".

(** ** Legacy flags *)

(** [legacyLongFlagSet] *)
Definition legacyLongFlagSet : gset string :=
  list_to_set ["all"; "cmd"; "short"; "src"; "inplace"; "mainvars";
               "mainfuncs"; "output"; "case-sensitive"].

(** [s[lo:hi]] for [0 <= lo <= hi <= len(s)] *)
Definition slice (lo hi : nat) (s : string) : string :=
  GoStrings.sliceTo (hi - lo) (GoStrings.sliceFrom lo s).

(** The loop of [normalizeLegacyArgs] from index [i] on: [args] holds
    [args[i:]], and the result is the pair of [modified] and
    [converted] after the loop. *)
Fixpoint normalizeLegacyLoop (args : list string) (modified : bool)
    (converted : list string) : bool * list string :=
  match args with
  | [] => (modified, converted)
  | arg :: rest =>
      if String.eqb arg "--"
      then (if bool_decide (rest ≠ []) then true else modified,
            (converted ++ [arg]) ++ rest)
      else if negb (GoStrings.HasPrefix arg "-")
              || GoStrings.HasPrefix arg "--" || String.eqb arg "-"
      then normalizeLegacyLoop rest modified (converted ++ [arg])
      else if GoStrings.len arg =? 2
      then normalizeLegacyLoop rest modified (converted ++ [arg])
      else
        let idx := GoStrings.Index arg "=" in
        if (idx >? 0)
           && bool_decide (slice 1 (Z.to_nat idx) arg ∈ legacyLongFlagSet)
        then normalizeLegacyLoop rest true
               (converted ++ ["--" +:+ slice 1 (Z.to_nat idx) arg
                              +:+ GoStrings.sliceFrom (Z.to_nat idx) arg])
        else
          let name := GoStrings.sliceFrom 1 arg in
          if bool_decide (name ∈ legacyLongFlagSet)
          then normalizeLegacyLoop rest true (converted ++ ["--" +:+ name])
          else normalizeLegacyLoop rest modified (converted ++ [arg])
  end.

(** [normalizeLegacyArgs] *)
Definition normalizeLegacyArgs (args : list string) : list string :=
  match args with
  | [] => args
  | _ =>
      let '(modified, converted) := normalizeLegacyLoop args false [] in
      if negb modified && (length converted =? length args)%nat then args
      else converted
  end.

(** What the loop of [normalizeLegacyArgs] appends for an argument
    other than ["--"]. *)
Definition convertLegacyArg (arg : string) : string :=
  if negb (GoStrings.HasPrefix arg "-")
     || GoStrings.HasPrefix arg "--" || String.eqb arg "-"
  then arg
  else if GoStrings.len arg =? 2 then arg
  else
    let idx := GoStrings.Index arg "=" in
    if (idx >? 0)
       && bool_decide (slice 1 (Z.to_nat idx) arg ∈ legacyLongFlagSet)
    then "--" +:+ slice 1 (Z.to_nat idx) arg
         +:+ GoStrings.sliceFrom (Z.to_nat idx) arg
    else
      let name := GoStrings.sliceFrom 1 arg in
      if bool_decide (name ∈ legacyLongFlagSet) then "--" +:+ name else arg.

(** The arguments up to the first ["--"] converted one by one, the
    rest as it is. *)
Fixpoint convertLegacyArgs (args : list string) : list string :=
  match args with
  | [] => []
  | arg :: rest =>
      if String.eqb arg "--" then arg :: rest
      else convertLegacyArg arg :: convertLegacyArgs rest
  end.

(** ** The standard-library search *)

(** The test of the loop of [matchStdSuffix]:
    [path == arg || strings.HasSuffix(path, "/"+arg)]. *)
Definition stdMatch (arg path : string) : bool :=
  String.eqb path arg || strings_HasSuffix path ("/" +:+ arg).

(** Packages for closed examples: the standard library has [go/doc]
    and [text/template], and only full import paths load. *)
Definition stdOnlyLoad (patterns : list string) : result (list Package) :=
  if bool_decide (patterns = ["std"; "cmd/..."])
  then Ok [ {| PkgPath := "text/template"; Errors := [] |};
            {| PkgPath := "go/doc"; Errors := [] |};
            {| PkgPath := "html/template"; Errors := [] |} ]
  else if bool_decide (patterns = ["go/doc"])
  then Ok [ {| PkgPath := "go/doc"; Errors := [] |} ]
  else if bool_decide (patterns = ["html/template"])
  then Ok [ {| PkgPath := "html/template"; Errors := [] |} ]
  else Err "package not found".

(** ** Patterns of a package tree *)

(** [strings.Contains(s, substr)]: [Index(s, substr) >= 0] *)
Definition strings_Contains (s substr : string) : bool :=
  GoStrings.Index s substr >=? 0.

(** [buildPatterns] *)
Definition buildPatterns `{GoRuntime} (root : string) : list string :=
  let root := GoStrings.TrimSpace root in
  let root := if String.eqb root "" then "." else root in
  let root := filepath_ToSlash root in
  let patterns := [root] in
  if negb (strings_Contains root "...")
  then
    let recursive := root in
    let recursive :=
      if String.eqb recursive "." then "./..."
      else if strings_HasSuffix recursive "/" then recursive +:+ "..."
      else recursive +:+ "/..." in
    patterns ++ [recursive]
  else patterns.

(** ** The method and field view *)

(** [go/ast], as far as [findTypeSpec] and [renderFieldDoc] read it: a
    declaration is its list of specs; a type spec has a name, which may
    be nil, and a type, and a struct type has a field list, which may
    be nil; a field has names and the text of its doc comment, if it
    has one. *)
Module ast.
Record Field := {
  Field_Names : list string;
  Field_Doc : option string;
}.
Inductive Expr :=
| StructType (Fields : option (list Field))
| OtherExpr.
Inductive Spec :=
| TypeSpec (Name : option string) (Type_ : Expr)
| OtherSpec.
(** A function declaration, as far as [signature] reads it: the name,
    and what [format.Node] writes for the receiver list and for the
    function type, where the declaration has them. *)
Record FuncDecl := {
  FuncDecl_Recv : option string;
  FuncDecl_Name : string;
  FuncDecl_Type : option string;
}.
End ast.

(** The field [Decl] of a [doc.Type], nil or a declaration. *)
Class GoDecls := {
  Type_Decl : doc.Type_ → option (list ast.Spec);
}.

(** The loop of [findTypeSpec]. *)
Fixpoint findTypeSpecLoop (specs : list ast.Spec) (name : string)
    : option ast.Spec :=
  match specs with
  | [] => None
  | spec :: specs' =>
      match spec with
      | ast.TypeSpec (Some n) _ =>
          if String.eqb n name then Some spec
          else findTypeSpecLoop specs' name
      | _ => findTypeSpecLoop specs' name
      end
  end.

(** [findTypeSpec] *)
Definition findTypeSpec (decl : option (list ast.Spec)) (name : string)
    : option ast.Spec :=
  match decl with
  | None => None
  | Some specs => findTypeSpecLoop specs name
  end.

(** What the method view appends to its sink: one block per call of
    [renderFuncDoc] and one per struct field name that
    [renderFieldDoc] renders. *)
Inductive memberBlock :=
| MethodDoc (f : doc.Func) (receiver : string)
| FieldDoc (t : doc.Type_) (name : string) (field : ast.Field).

Section MethodView.
Context `{GoRuntime} `{GoDecls}.
Variable r : markdownRenderer.

(** The loop over [field.Names] in [renderFieldDoc]. *)
Definition fieldNameStep (t : doc.Type_) (fieldName : string)
    (field : ast.Field) (st : list memberBlock * bool) (name : string)
    : list memberBlock * bool :=
  if matchName r name fieldName
  then (st.1 ++ [FieldDoc t name field], true) else st.

(** The loop over [st.Fields.List] in [renderFieldDoc]. *)
Definition fieldStep (t : doc.Type_) (fieldName : string)
    (st : list memberBlock * bool) (field : ast.Field)
    : list memberBlock * bool :=
  foldl (fieldNameStep t fieldName field) st (ast.Field_Names field).

(** [renderFieldDoc]: the sink after the call, and the result. *)
Definition renderFieldDoc (w : list memberBlock) (t : doc.Type_)
    (fieldName : string) : list memberBlock * bool :=
  match findTypeSpec (Type_Decl t) (doc.Type_Name t) with
  | Some (ast.TypeSpec _ (ast.StructType (Some fields))) =>
      foldl (fieldStep t fieldName) (w, false) fields
  | _ => (w, false)
  end.

(** The loop over [t.Methods] in [renderMethod]. *)
Definition methodStep (t : doc.Type_) (methodName : string)
    (st : list memberBlock * bool) (m : doc.Func)
    : list memberBlock * bool :=
  if matchName r (doc.Func_Name m) methodName
  then (st.1 ++ [MethodDoc m (doc.Type_Name t)], true) else st.

(** The body of the loop over the types in [renderMethod]. *)
Definition methodTypeStep (typeName methodName : string)
    (st : list memberBlock * bool) (t : doc.Type_)
    : list memberBlock * bool :=
  if negb (matchName r (doc.Type_Name t) typeName) then st
  else
    let st := foldl (methodStep t methodName) st (doc.Type_Methods t) in
    let '(w, ok) := renderFieldDoc st.1 t methodName in
    if ok then (w, true) else (w, st.2).

(** [renderMethod]: the sink after the call, and the result. *)
Definition renderMethod (w : list memberBlock) (typeName methodName : string)
    : list memberBlock * bool :=
  foldl (methodTypeStep typeName methodName) (w, false) (doc.Types (pkg r)).

(** The fields of the struct type that declares [t], if [t] is
    declared as one. *)
Definition structFields (t : doc.Type_) : list ast.Field :=
  match findTypeSpec (Type_Decl t) (doc.Type_Name t) with
  | Some (ast.TypeSpec _ (ast.StructType (Some fields))) => fields
  | _ => []
  end.

(** The blocks of the method view for one type: its matching methods,
    then its matching struct fields. *)
Definition memberMatches (methodName : string) (t : doc.Type_)
    : list memberBlock :=
  ((λ m, MethodDoc m (doc.Type_Name t))
     <$> filter (λ m, matchName r (doc.Func_Name m) methodName = true)
           (doc.Type_Methods t))
  ++ flat_map
       (λ field, (λ n, FieldDoc t n field)
                   <$> filter (λ n, matchName r n methodName = true)
                         (ast.Field_Names field))
       (structFields t).

(** The blocks of the method view: the members of every type whose
    name matches. *)
Definition methodMatches (typeName methodName : string) : list memberBlock :=
  flat_map (memberMatches methodName)
    (filter (λ t, matchName r (doc.Type_Name t) typeName = true)
       (doc.Types (pkg r))).
End MethodView.


(** ** The Markdown text of the views

    Every render method only appends to its writer, so each is given
    here by the text it appends. *)

(** An [ast.Node] handed to [go/format]: the declaration of a type, of
    a value or of a function, or a struct field. *)
Inductive node :=
| TypeDeclNode (t : doc.Type_)
| ValueDeclNode (v : doc.Value)
| FuncDeclNode (f : doc.Func)
| FieldNode (field : ast.Field).

(** [go/format] and the declarations of the functions. *)
Class GoFormat := {
  (** the field [Decl] of a [doc.Func], nil or a declaration *)
  Func_Decl : doc.Func → option ast.FuncDecl;
  (** what [format.Node(&buf, fset, node)] leaves in [buf], or its
      error *)
  format_Node : node → result string;
}.

(** [strings.TrimPrefix] *)
Definition strings_TrimPrefix (s prefix : string) : string :=
  if GoStrings.HasPrefix s prefix
  then GoStrings.sliceFrom (String.length prefix) s else s.

(** The texts of a list of writes, one after the other. *)
Fixpoint writeAll (parts : list string) : string :=
  match parts with
  | [] => ""
  | p :: parts' => p +:+ writeAll parts'
  end.

Module Markdown.
Section Text.
Context `{GoRuntime} `{GoDecls} `{GoFormat}.
Variable r : markdownRenderer.

(** [valueTitle] *)
Definition valueTitle (v : doc.Value) : string :=
  GoStrings.Join (doc.Value_Names v) ", ".

(** [writeCodeBlock] *)
Definition writeCodeBlock (code : string) : string :=
  if String.eqb code "" then ""
  else "```go" +:+ NL +:+ GoStrings.TrimSpace code +:+ NL +:+ "```"
       +:+ NL +:+ NL.

(** [formatNode]; [None] is the nil interface. *)
Definition formatNode (n : option node) : string :=
  match n with
  | None => ""
  | Some n =>
      match format_Node n with
      | Err _ => ""
      | Ok buf => GoStrings.TrimSpace buf
      end
  end.

(** [formatField] *)
Definition formatField (field : ast.Field) : string :=
  match format_Node (FieldNode field) with
  | Err _ => ""
  | Ok buf => GoStrings.TrimSpace buf
  end.

(** [signature] *)
Definition signature (decl : option ast.FuncDecl) : string :=
  match decl with
  | None => ""
  | Some decl =>
      match ast.FuncDecl_Type decl with
      | None => ""
      | Some typ =>
          let buf := "func " in
          let buf :=
            match ast.FuncDecl_Recv decl with
            | Some recv => buf +:+ "(" +:+ GoStrings.TrimSpace recv +:+ ") "
            | None => buf
            end in
          let buf := buf +:+ ast.FuncDecl_Name decl in
          let sig := strings_TrimPrefix typ "func" in
          let buf := buf +:+ GoStrings.TrimSpace sig in
          GoStrings.TrimSpace buf
      end
  end.

(** The statement [if doc := r.docMarkdown(text); doc != "" { ... }],
    which ends several of the methods. *)
Definition writeDoc (text : string) : string :=
  let doc := docMarkdown text in
  if String.eqb doc "" then "" else doc +:+ NL +:+ NL.

(** [renderValueDoc] *)
Definition renderValueDoc (v : doc.Value) : string :=
  if short (r_options r)
  then bulletLine (valueTitle v) (summaryText (doc.Value_Doc v)) +:+ NL
  else "#### " +:+ valueTitle v +:+ NL +:+ NL
       +:+ writeCodeBlock (formatNode (Some (ValueDeclNode v)))
       +:+ writeDoc (doc.Value_Doc v).

(** [renderValuesSection] *)
Definition renderValuesSection (title : string) (values : list doc.Value)
    : string :=
  match values with
  | [] => ""
  | _ => "### " +:+ title +:+ NL +:+ NL
         +:+ writeAll (map renderValueDoc values) +:+ NL
  end.

(** [renderFuncDoc] *)
Definition renderFuncDoc (f : doc.Func) (receiver : string) : string :=
  if short (r_options r)
  then bulletLine (signature (Func_Decl f)) (summaryText (doc.Func_Doc f))
       +:+ NL
  else
    let name :=
      if negb (String.eqb receiver "")
      then receiver +:+ "." +:+ doc.Func_Name f else doc.Func_Name f in
    "#### " +:+ name +:+ NL +:+ NL
    +:+ (if showSource (r_options r)
         then writeCodeBlock (formatNode (Some (FuncDeclNode f)))
         else "```go" +:+ NL +:+ signature (Func_Decl f) +:+ NL +:+ "```"
              +:+ NL +:+ NL)
    +:+ writeDoc (doc.Func_Doc f).

(** [renderFuncsSection] *)
Definition renderFuncsSection (title : string) (funcs : list doc.Func)
    (receiver : string) : string :=
  match funcs with
  | [] => ""
  | _ => "### " +:+ title +:+ NL +:+ NL
         +:+ writeAll (map (λ f, renderFuncDoc f receiver) funcs) +:+ NL
  end.

(** [renderTypeDoc] *)
Definition renderTypeDoc (t : doc.Type_) : string :=
  "## type " +:+ doc.Type_Name t +:+ NL +:+ NL
  +:+ writeCodeBlock (formatNode (Some (TypeDeclNode t)))
  +:+ writeDoc (doc.Type_Doc t)
  +:+ renderValuesSection "Constants" (doc.Type_Consts t)
  +:+ renderValuesSection "Variables" (doc.Type_Vars t)
  +:+ renderFuncsSection ("Functions returning " +:+ doc.Type_Name t)
        (doc.Type_Funcs t) ""
  +:+ renderFuncsSection "Methods" (doc.Type_Methods t) (doc.Type_Name t).

(** [renderTypesSection] *)
Definition renderTypesSection (types : list doc.Type_) : string :=
  writeAll (map renderTypeDoc types).

(** What [renderFieldDoc] writes for one matching name of a field. *)
Definition renderFieldName (t : doc.Type_) (name : string)
    (field : ast.Field) : string :=
  let docText := default "" (ast.Field_Doc field) in
  if short (r_options r)
  then bulletLine (doc.Type_Name t +:+ "." +:+ name) (summaryText docText)
       +:+ NL
  else "#### " +:+ doc.Type_Name t +:+ "." +:+ name +:+ NL +:+ NL
       +:+ writeCodeBlock (formatField field)
       +:+ writeDoc docText.

(** The bullets of [renderPackageSummary], before they are sorted. *)
Definition summaryEntries : list string :=
  let p := pkg r in
  let o := r_options r in
  map (λ v, bulletLine (valueTitle v) (summaryText (doc.Value_Doc v)))
    (doc.Consts p)
  ++ (if negb (String.eqb (doc.Name p) "main") || includeMainVars o || all o
      then map (λ v, bulletLine (valueTitle v)
                       (summaryText (doc.Value_Doc v))) (doc.Vars p)
      else [])
  ++ (if negb (String.eqb (doc.Name p) "main") || includeMainFuncs o || all o
      then map (λ f, bulletLine (signature (Func_Decl f))
                       (summaryText (doc.Func_Doc f))) (doc.Funcs p)
      else [])
  ++ map (λ t, bulletLine ("type " +:+ doc.Type_Name t)
                 (summaryText (doc.Type_Doc t))) (doc.Types p).

(** [renderPackageSummary] *)
Definition renderPackageSummary : string :=
  match summaryEntries with
  | [] => ""
  | entries =>
      writeAll (map (λ entry, entry +:+ NL) (sort_Strings entries)) +:+ NL
  end.

(** [renderPackage] *)
Definition renderPackage : string :=
  let p := pkg r in
  let o := r_options r in
  (if negb (String.eqb (doc.Name p) "main")
   then "# package " +:+ doc.Name p +:+ NL +:+ NL
        +:+ (if negb (String.eqb (doc.ImportPath p) "")
             then "`import " +:+ String DQUOTE (doc.ImportPath p)
                  +:+ String DQUOTE "`" +:+ NL +:+ NL
             else "")
   else "")
  +:+ writeDoc (doc.Doc p)
  +:+ (if String.eqb (doc.Name p) "main" && negb (showCmd o) && negb (all o)
       then renderPackageSummary
            +:+ (if includeMainVars o || all o
                 then renderValuesSection "Variables" (doc.Vars p) else "")
            +:+ (if includeMainFuncs o || all o
                 then renderFuncsSection "Functions" (doc.Funcs p) ""
                 else "")
       else renderPackageSummary
            +:+ (if all o
                 then renderValuesSection "Constants" (doc.Consts p)
                      +:+ renderValuesSection "Variables" (doc.Vars p)
                      +:+ renderFuncsSection "Functions" (doc.Funcs p) ""
                      +:+ renderTypesSection (doc.Types p)
                 else "")).

(** [packageSummary] *)
Definition packageSummary : string := summaryText (doc.Doc (pkg r)).

(** The text of a block of the symbol view. *)
Definition blockText (b : block) : string :=
  match b with
  | TypeDoc t => renderTypeDoc t
  | FuncDoc f receiver => renderFuncDoc f receiver
  | ValueDoc v => renderValueDoc v
  end.

(** The text of a block of the method view. *)
Definition memberText (b : memberBlock) : string :=
  match b with
  | MethodDoc f receiver => renderFuncDoc f receiver
  | FieldDoc t name field => renderFieldName t name field
  end.

End Text.
End Markdown.

(** Texts that end with a newline, that end with a blank line, and
    that are empty or end with a blank line. *)
Definition endsWithNewline (s : string) : Prop := ∃ p, s = p +:+ NL.
Definition endsWithBlankLine (s : string) : Prop := ∃ p, s = p +:+ NL +:+ NL.
Definition emptyOrBlankLine (s : string) : Prop :=
  s = "" ∨ endsWithBlankLine s.

(** ** The operating system, [path/filepath] and [go/doc] *)

(** The outcome of [os.Stat]: the [IsDir] of the file, the error
    [os.ErrNotExist], or another error. *)
Inductive statResult :=
| StatOk (isDir : bool)
| StatNotExist
| StatErr.

Class GoOS := {
  (** [os.Stat] *)
  os_Stat : FS → string → statResult;
  (** [os.PathSeparator] *)
  os_PathSeparator : ascii;
  (** [filepath.Ext], [filepath.Dir], [filepath.Clean],
      [filepath.FromSlash], [filepath.Base] *)
  filepath_Ext : string → string;
  filepath_Dir : string → string;
  filepath_Clean : string → string;
  filepath_FromSlash : string → string;
  filepath_Base : string → string;
  (** [filepath.Abs], [filepath.Rel] *)
  filepath_Abs : string → result string;
  filepath_Rel : string → string → result string;
  (** the fields [Name], [GoFiles] and [CompiledGoFiles] of a
      [packages.Package] *)
  Package_Name : Package → string;
  GoFiles : Package → list string;
  CompiledGoFiles : Package → list string;
  (** [doc.NewFromFiles(pkg.Fset, pkg.Syntax, pkg.PkgPath, mode)] *)
  doc_NewFromFiles : Package → Z → result doc.Package;
  (** [stdout.Write(data)] on what was written before: what is written
      afterwards, or the error *)
  stdout_Write : string → string → result string;
}.

(** [doc.AllDecls], [doc.AllMethods], [doc.PreserveAST] *)
Definition doc_AllDecls : Z := 1.
Definition doc_AllMethods : Z := 2.
Definition doc_PreserveAST : Z := 4.

(** [strings.TrimSuffix] *)
Definition strings_TrimSuffix (s suffix : string) : string :=
  if strings_HasSuffix s suffix
  then GoStrings.sliceTo (String.length s - String.length suffix) s else s.

(** [docResult] *)
Record docResult := {
  Markdown : string;
  Summary : string;
}.

(** The files and the standard output of the process. *)
Record world := World {
  w_files : FS;
  w_stdout : string;
}.

(** How the loop of [execute] ends: with a [return], or after the last
    candidate, with the variable [lastErr]. *)
Inductive loopExit :=
| Returned (res : result world)
| Exhausted (lastErr : option error).

Section Tree.
Context `{GoRuntime} `{GoSort} `{GoDecls} `{GoFormat} `{GoOS}.

(** [buildDocPackage] *)
Definition buildDocPackage (pkgInfo : Package) (opts : options)
    : result doc.Package :=
  let mode := 0 in
  let mode :=
    if unexported opts || all opts
    then Z.lor mode (Z.lor doc_AllDecls doc_AllMethods) else mode in
  let mode :=
    if showSource opts then Z.lor mode doc_PreserveAST else mode in
  doc_NewFromFiles pkgInfo mode.

(** [documentTarget]: the result and [handled], or the error.  The
    buffer holds what the view wrote. *)
Definition documentTarget (pkgInfo : Package) (symbol method : string)
    (opts : options) : result (docResult * bool) :=
  match buildDocPackage pkgInfo opts with
  | Err err => Err err
  | Ok docPkg =>
      let renderer := {| r_options := opts; pkg := docPkg |} in
      if String.eqb symbol ""
      then Ok ({| Markdown := Markdown.renderPackage renderer;
                  Summary := Markdown.packageSummary renderer |}, true)
      else if String.eqb method ""
      then
        let '(buf, ok) := renderSymbol renderer [] symbol in
        Ok ({| Markdown := writeAll (map (Markdown.blockText renderer) buf);
               Summary := "" |}, ok)
      else
        let '(buf, ok) := renderMethod renderer [] symbol method in
        Ok ({| Markdown := writeAll (map (Markdown.memberText renderer) buf);
               Summary := "" |}, ok)
  end.

(** [writeOutput] *)
Definition writeOutput (path : string) (data : string) (w : world)
    : result world :=
  if String.eqb path "" || String.eqb path "-"
  then match stdout_Write (w_stdout w) data with
       | Err err => Err err
       | Ok out => Ok (World (w_files w) out)
       end
  else
    match os_MkdirAll (w_files w) (filepath_Dir path) with
    | Err err => Err err
    | Ok fs =>
        match os_WriteFile fs path data with
        | Err err => Err err
        | Ok fs => Ok (World fs (w_stdout w))
        end
    end.

(** [wantsDirectoryOutput] *)
Definition wantsDirectoryOutput (path : string) (fs : FS) : bool :=
  if String.eqb path "" || String.eqb path "-" then false
  else
    match os_Stat fs path with
    | StatOk isDir => isDir
    | StatErr => false
    | StatNotExist =>
        if strings_HasSuffix path (String os_PathSeparator "") then true
        else String.eqb (filepath_Ext path) ""
    end.

(** [packageDir] *)
Definition packageDir (pkg : Package) : string :=
  match GoFiles pkg with
  | file :: _ => filepath_Dir file
  | [] =>
      match CompiledGoFiles pkg with
      | file :: _ => filepath_Dir file
      | [] => ""
      end
  end.

(** [absolutePath] *)
Definition absolutePath (dir : string) : string :=
  if String.eqb dir "" then ""
  else match filepath_Abs dir with
       | Err _ => filepath_Clean dir
       | Ok abs => abs
       end.

(** [deriveRelativeDir] *)
Definition deriveRelativeDir (pkg : Package) (baseDir pkgDir : string)
    : string :=
  let viaRel :=
    if negb (String.eqb baseDir "") && negb (String.eqb pkgDir "")
    then match filepath_Rel baseDir pkgDir with
         | Ok rel =>
             if negb (String.eqb rel "")
                && negb (GoStrings.HasPrefix rel "..")
             then Some (if String.eqb rel "." then "."
                        else filepath_ToSlash rel)
             else None
         | Err _ => None
         end
    else None in
  match viaRel with
  | Some rel => rel
  | None =>
      if negb (String.eqb (PkgPath pkg) "")
      then filepath_FromSlash (PkgPath pkg)
      else if negb (String.eqb pkgDir "") then filepath_Base pkgDir
      else Package_Name pkg
  end.

(** [resolveBaseDir] *)
Definition resolveBaseDir (root : string) (fs : FS) : string :=
  let root := GoStrings.TrimSpace root in
  let root := if String.eqb root "" then "." else root in
  let root := strings_TrimSuffix root "/..." in
  let root := strings_TrimSuffix root "\..." in
  match os_Stat fs root with
  | StatOk true =>
      match filepath_Abs root with
      | Err _ => ""
      | Ok base => base
      end
  | _ => ""
  end.

(** The first loop of [loadPackageTree], on the map [unique]. *)
Fixpoint uniquePackages (pkgs : list Package) (unique : gmap string Package)
    : result (gmap string Package) :=
  match pkgs with
  | [] => Ok unique
  | pkg :: pkgs' =>
      match Errors pkg with
      | e :: _ => Err e
      | [] =>
          let key := PkgPath pkg in
          let key := if String.eqb key "" then packageDir pkg else key in
          uniquePackages pkgs' (<[key := pkg]> unique)
      end
  end.

(** The key of a package in the map [unique] of [loadPackageTree]. *)
Definition packageKey (pkg : Package) : string :=
  if String.eqb (PkgPath pkg) "" then packageDir pkg else PkgPath pkg.

(** [sort.Slice(result, ...)] by [PkgPath], over the packages as the
    loop before it took them out of the map, in no specified order:
    an ascending permutation, and the only one where the import paths
    differ. *)
Definition sortPackages (pkgs : list Package) : list Package :=
  merge_sort (λ a b, String.le (PkgPath a) (PkgPath b)) pkgs.

(** [loadPackageTree].  The order in which the second loop ranges over
    the map does not matter where the import paths differ, as the
    result is sorted by them. *)
Definition loadPackageTree (root : string) : result (list Package) :=
  match packages_Load (buildPatterns root) with
  | Err err => Err err
  | Ok pkgs =>
      match uniquePackages pkgs ∅ with
      | Err err => Err err
      | Ok unique => Ok (sortPackages ((map_to_list unique).*2))
      end
  end.

(** The loop of [collectPackageDocs], on [docs] and [baseDir]. *)
Fixpoint collectLoop (pkgs : list Package) (opts : options)
    (docs : list treeDoc) (baseDir : string)
    : result (list treeDoc * string) :=
  match pkgs with
  | [] => Ok (docs, baseDir)
  | pkgInfo :: pkgs' =>
      match documentTarget pkgInfo "" "" opts with
      | Err err => Err err
      | Ok (docRes, handled) =>
          if negb handled then collectLoop pkgs' opts docs baseDir
          else
            let pkgDir := absolutePath (packageDir pkgInfo) in
            let baseDir :=
              if String.eqb baseDir "" && negb (String.eqb pkgDir "")
              then pkgDir else baseDir in
            let relDir := deriveRelativeDir pkgInfo baseDir pkgDir in
            collectLoop pkgs' opts
              (docs ++ [{| relDir := relDir;
                           pkgDir := pkgDir;
                           pkgPath := PkgPath pkgInfo;
                           docSummary := Summary docRes;
                           markdown := Markdown docRes |}])
              baseDir
      end
  end.

(** [collectPackageDocs] *)
Definition collectPackageDocs (root : string) (opts : options) (fs : FS)
    : result (list treeDoc * string) :=
  match loadPackageTree root with
  | Err err => Err err
  | Ok [] => Ok ([], "")
  | Ok pkgs => collectLoop pkgs opts [] (resolveBaseDir root fs)
  end.

(** [sameDir] *)
Definition sameDir (a b : string) : bool :=
  if String.eqb a "" || String.eqb b "" then false
  else String.eqb (filepath_Clean a) (filepath_Clean b).

(** The loop of [writePackageDocsInPlace]; an error ends it. *)
Fixpoint inPlaceLoop (baseDir : string) (docs : list treeDoc)
    (st : writeState) : result writeState :=
  match docs with
  | [] => Ok st
  | d :: docs' =>
      if String.eqb (pkgDir d) "" then inPlaceLoop baseDir docs' st
      else
        match os_MkdirAll (files st) (pkgDir d) with
        | Err err => Err err
        | Ok fs =>
            let target := filepath_Join (pkgDir d) "README.md" in
            if sameDir (pkgDir d) baseDir
            then inPlaceLoop baseDir docs'
                   (WriteState (entries st) (Some d) target fs)
            else
              match os_WriteFile fs target (markdown d) with
              | Err err => Err err
              | Ok fs =>
                  let relLink :=
                    match filepath_Rel baseDir target with
                    | Err _ => target
                    | Ok rel => rel
                    end in
                  let entry :=
                    {| title := linkTitle d;
                       link := filepath_ToSlash relLink;
                       summary := GoStrings.TrimSpace (docSummary d) |} in
                  inPlaceLoop baseDir docs'
                    (WriteState (entries st ++ [entry]) (rootDoc st)
                       (rootPath st) fs)
              end
        end
  end.

(** [writePackageDocsInPlace]: the file system afterwards, or the
    error. *)
Definition writePackageDocsInPlace (baseDir : string) (docs : list treeDoc)
    (fs : FS) : result FS :=
  if String.eqb baseDir "" then Err "missing base directory for in-place output"
  else
    let baseDir := filepath_Clean baseDir in
    match inPlaceLoop baseDir docs
            (WriteState [] None (filepath_Join baseDir "README.md") fs) with
    | Err err => Err err
    | Ok st =>
        let entries := sortEntries (entries st) in
        let toc := buildTOC entries in
        let content :=
          match rootDoc st with
          | Some root => appendTOCAfterDoc (markdown root) toc
          | None => if GoStrings.len toc >? 0 then toc else ""
          end in
        let content :=
          match rootDoc st with
          | Some root =>
              if GoStrings.len content =? 0 then markdown root else content
          | None => content
          end in
        if GoStrings.len content =? 0 then Ok (files st)
        else os_WriteFile (files st) (rootPath st) content
    end.

(** [documentPackageTree]: the file system afterwards, or the
    error. *)
Definition documentPackageTree (root : string) (opts : options) (fs : FS)
    : result FS :=
  match collectPackageDocs root opts fs with
  | Err err => Err err
  | Ok (docs, baseDir) =>
      match docs with
      | [] => Err ("no packages matched " +:+ strconv_Quote root)
      | _ =>
          if inplace opts
          then
            if String.eqb baseDir ""
            then Err "cannot determine base directory for in-place output"
            else writePackageDocsInPlace baseDir docs fs
          else
            if String.eqb (outputPath opts) ""
            then Err "directory output requires -o pointing to a directory"
            else writePackageDocsToDir (outputPath opts) docs fs
      end
  end.

(** The loop over the candidates in [execute], on [lastErr], the cache
    of standard-library packages and the files and output. *)
Fixpoint executeLoop (opts : options) (cands : list invocation)
    (lastErr : option error) (c : stdCache) (w : world) : loopExit :=
  match cands with
  | [] => Exhausted lastErr
  | cand :: cands' =>
      let '(res, c) := resolvePackage (pkgExpr cand) c in
      match res with
      | Err err => executeLoop opts cands' (Some err) c w
      | Ok pkgInfo =>
          match documentTarget pkgInfo (symbol cand) (method cand) opts with
          | Err err => Returned (Err err)
          | Ok (result, handled) =>
              if negb handled
              then executeLoop opts cands'
                     (Some ("no matching symbol "
                            +:+ strconv_Quote
                                  (displaySymbol (symbol cand) (method cand))
                            +:+ " in " +:+ PkgPath pkgInfo)) c w
              else Returned (writeOutput (outputPath opts)
                               (Markdown result) w)
          end
      end
  end.

(** The root of the tree modes of [execute]. *)
Definition treeRoot (positionals : list string) : string :=
  match positionals with
  | [root] => root
  | _ => "."
  end.

(** [execute], from the options of the command, the cache of
    standard-library packages and the files and output: the files and
    output afterwards, or the error. *)
Definition execute (opts : options) (positionals : list string)
    (c : stdCache) (w : world) : result world :=
  let tree root :=
    match documentPackageTree root opts (w_files w) with
    | Err err => Err err
    | Ok fs => Ok (World fs (w_stdout w))
    end in
  if inplace opts && negb (String.eqb (outputPath opts) "")
  then Err "-o cannot be combined with -inplace"
  else if inplace opts
  then
    if (1 <? Z.of_nat (length positionals))
    then Err "in-place mode accepts at most one package argument"
    else tree (treeRoot positionals)
  else if wantsDirectoryOutput (outputPath opts) (w_files w)
  then
    if (1 <? Z.of_nat (length positionals))
    then Err "directory output accepts at most one package argument"
    else tree (treeRoot positionals)
  else if all opts && (1 <? Z.of_nat (length positionals))
  then Err "-all can only be used with a single package argument"
  else
    match buildCandidates positionals with
    | Err err => Err err
    | Ok candidates =>
        match candidates with
        | [] => Err "no arguments provided"
        | _ =>
            match executeLoop opts candidates None c w with
            | Returned res => res
            | Exhausted (Some lastErr) => Err lastErr
            | Exhausted None =>
                Err "unable to locate documentation target"
            end
        end
    end.

(** What one candidate comes to when the process has just started: its
    package does not resolve or has no such symbol, its documentation
    cannot be built, or its Markdown is rendered. *)
Inductive attempt :=
| Miss (err : error)
| Fail (err : error)
| Hit (markdown : string).

Definition attemptOf (opts : options) (cand : invocation) : attempt :=
  match (resolvePackage (pkgExpr cand) stdCache_init).1 with
  | Err err => Miss err
  | Ok pkgInfo =>
      match documentTarget pkgInfo (symbol cand) (method cand) opts with
      | Err err => Fail err
      | Ok (result, handled) =>
          if handled then Hit (Markdown result)
          else Miss ("no matching symbol "
                     +:+ strconv_Quote
                           (displaySymbol (symbol cand) (method cand))
                     +:+ " in " +:+ PkgPath pkgInfo)
      end
  end.

Definition isMiss (a : attempt) : Prop :=
  match a with Miss _ => True | _ => False end.

End Tree.

(** ** An environment for closed examples *)

(** The text before the last slash of a path, if it has a slash. *)
Fixpoint beforeLastSlash (path : string) : option string :=
  match path with
  | EmptyString => None
  | String c rest =>
      match beforeLastSlash rest with
      | Some dir => Some (String c dir)
      | None => if Ascii.eqb c SLASH then Some EmptyString else None
      end
  end.

(** The test data at [/src/example]: the package [example] and its
    subpackage; the pattern of the directory matches the package
    twice. *)
Definition exampleLoad (patterns : list string) : result (list Package) :=
  if bool_decide (patterns = ["example"])
  then Ok [ {| PkgPath := "example"; Errors := [] |} ]
  else if bool_decide (patterns = ["/src/example"; "/src/example/..."])
  then Ok [ {| PkgPath := "example"; Errors := [] |};
            {| PkgPath := "example/subpkg"; Errors := [] |};
            {| PkgPath := "example"; Errors := [] |} ]
  else Err "package not found".

(** The file system of the examples before a run. *)
Definition emptyFS : FS := FileSystem ∅ ∅.

(** The insertion sort that [sort.Slice] runs on a slice of at most
    twelve elements.  [moveLeft less x before] swaps [x] with its left
    neighbour as long as it is less than the neighbour; [before] and
    the result list the elements from right to left. *)
Fixpoint moveLeft {A : Type} (less : A → A → bool) (x : A) (before : list A)
    : list A :=
  match before with
  | [] => [x]
  | y :: before' =>
      if less x y then y :: moveLeft less x before' else x :: before
  end.
Definition insertionSort : GoSort := {|
  sort_Slice A less l :=
    reverse (foldl (λ sorted x, moveLeft less x sorted) [] l);
|}.

(** Types and functions without declarations, and nothing to format. *)
Definition noDecls : GoDecls := {| Type_Decl _ := None |}.
Definition noSource : GoFormat := {|
  Func_Decl _ := None;
  format_Node _ := Err "no source";
|}.

(** What the standard library computes on clean absolute paths with
    slashes, where [/src/example] is the only directory and every
    package has the one file [doc.go] in the directory of its import
    path. *)
Definition exampleOS : GoOS := {|
  os_Stat _ path :=
    if String.eqb path "/src/example" then StatOk true else StatNotExist;
  os_PathSeparator := SLASH;
  filepath_Ext _ := "";
  filepath_Dir path :=
    match beforeLastSlash path with
    | Some EmptyString => "/"
    | Some dir => dir
    | None => "."
    end;
  filepath_Clean path := path;
  filepath_FromSlash path := path;
  filepath_Base path :=
    match beforeLastSlash path with
    | Some dir => GoStrings.sliceFrom (S (String.length dir)) path
    | None => path
    end;
  filepath_Abs path := Ok path;
  filepath_Rel base target :=
    if String.eqb target base then Ok "."
    else if GoStrings.HasPrefix target (base +:+ "/")
    then Ok (GoStrings.sliceFrom (S (String.length base)) target)
    else Err "Rel: can't make the path relative";
  Package_Name pkg :=
    match beforeLastSlash (PkgPath pkg) with
    | Some dir => GoStrings.sliceFrom (S (String.length dir)) (PkgPath pkg)
    | None => PkgPath pkg
    end;
  GoFiles pkg := ["/src/" +:+ PkgPath pkg +:+ "/doc.go"];
  CompiledGoFiles pkg := ["/src/" +:+ PkgPath pkg +:+ "/doc.go"];
  doc_NewFromFiles pkg _ :=
    if String.eqb (PkgPath pkg) "example" then Ok examplePackage
    else Ok {| doc.Name := "subpkg"; doc.ImportPath := PkgPath pkg;
               doc.Doc := "Message exposes a sample constant.";
               doc.Consts := []; doc.Vars := []; doc.Funcs := [];
               doc.Types := [] |};
  stdout_Write out data := Ok (out +:+ data);
|}.

(** The options of [go-docmd -o out]. *)
Definition outOptions : options := {|
  all := false; caseSensitive := false; showCmd := false; short := false;
  showSource := false; unexported := false; outputPath := "out";
  inplace := false; includeMainVars := false; includeMainFuncs := false;
|}.

(** ** The dedent algorithm of section 4.3, line by line

    These definitions follow the words of the specification and do not
    use [leadingWhitespace]. *)

(** Whether a byte is a space or a tab. *)
Definition isIndentByte (c : ascii) : bool := Ascii.eqb c SP || Ascii.eqb c TAB.

(** The indentation of a line: the number of bytes before its first
    byte that is neither a space nor a tab. *)
Definition indentation (line : string) : Z :=
  match list_find (λ c, isIndentByte c = false)
          (String.list_ascii_of_string line) with
  | Some (i, _) => Z.of_nat i
  | None => GoStrings.len line
  end.

(** The least indentation of the non-blank lines; [0] when every line
    is blank. *)
Definition leastIndentation `{GoRuntime} (lines : list string) : Z :=
  minimum (map indentation (filter (λ l, nonBlank l = true) lines)).

(** The same with every white-space byte counted, as the claim has it:
    the bytes that [strings.TrimSpace] takes off ASCII text. *)
Definition leadingSpace (line : string) : Z :=
  match list_find (λ c, GoStrings.asciiSpace c = false)
          (String.list_ascii_of_string line) with
  | Some (i, _) => Z.of_nat i
  | None => GoStrings.len line
  end.

(** The claim as worded: the result is the lines, each without its first [m] bytes if it
    has that many, where [m] is the least count of leading white space
    of the non-blank lines. *)
Definition stripsLeadingSpace `{GoRuntime} (src : string) : Prop :=
  let lines := GoStrings.Split src LF in
  let m := minimum (map leadingSpace (filter (λ l, nonBlank l = true) lines)) in
  dedentMarkdown src
  = GoStrings.Join
      (map (λ line, if m <=? GoStrings.len line
                    then GoStrings.sliceFrom (Z.to_nat m) line else line)
         lines) NL.
(** * Properties *)

(** ** Facts about the string functions *)

Module StringFacts.
Import GoStrings.

Lemma sapp_nil_l (t : string) : "" +:+ t = t.
Proof. reflexivity. Qed.

Lemma sapp_cons (c : ascii) (s t : string) :
  String c s +:+ t = String c (s +:+ t).
Proof. reflexivity. Qed.

Lemma sapp_nil_r (s : string) : s +:+ "" = s.
Proof. induction s as [|c s IH]; [done|]. by rewrite sapp_cons, IH. Qed.

Lemma sapp_assoc (s t u : string) : (s +:+ t) +:+ u = s +:+ t +:+ u.
Proof. induction s as [|c s IH]; [done|]. by rewrite !sapp_cons, IH. Qed.

Lemma slength_app (s t : string) :
  String.length (s +:+ t) = (String.length s + String.length t)%nat.
Proof. induction s as [|c s IH]; [done|]. rewrite sapp_cons. simpl. by rewrite IH. Qed.

Lemma eqb_true (s t : string) : String.eqb s t = true ↔ s = t.
Proof. apply String.eqb_eq. Qed.

Lemma eqb_false (s t : string) : String.eqb s t = false ↔ s ≠ t.
Proof. apply String.eqb_neq. Qed.

Lemma ContainsByte_app (s t : string) (c : ascii) :
  ContainsByte (s +:+ t) c = ContainsByte s c || ContainsByte t c.
Proof.
  induction s as [|a s IH]; [done|].
  rewrite sapp_cons. simpl. by destruct (Ascii.eqb a c).
Qed.

Lemma Split_nonempty (s : string) (c : ascii) : Split s c ≠ [].
Proof.
  destruct s as [|a s]; simpl; [done|].
  destruct (Ascii.eqb a c); [done|]. by destruct (Split s c).
Qed.

(** No piece of a split contains the separator. *)
Lemma Split_no_sep (s : string) (c : ascii) :
  Forall (λ p, ContainsByte p c = false) (Split s c).
Proof.
  induction s as [|a s IH]; simpl.
  - by repeat constructor.
  - destruct (Ascii.eqb a c) eqn:Ha.
    + by constructor.
    + destruct (Split s c) as [|p ps]; [repeat constructor; simpl; by rewrite Ha|].
      inversion IH; subst. constructor; [simpl; by rewrite Ha|done].
Qed.

(** Joining the pieces with the separator gives the string back. *)
Lemma Join_Split (s : string) (c : ascii) :
  Join (Split s c) (String c "") = s.
Proof.
  induction s as [|a s IH]; [done|]. simpl.
  destruct (Ascii.eqb a c) eqn:Ha.
  - apply Ascii.eqb_eq in Ha as ->.
    pose proof (Split_nonempty s c).
    change (Join ("" :: Split s c) (String c ""))
      with (match Split s c with
            | [] => ""
            | _ => "" +:+ String c "" +:+ Join (Split s c) (String c "")
            end).
    destruct (Split s c); [done|]. by rewrite IH.
  - pose proof (Split_nonempty s c).
    destruct (Split s c) as [|p ps]; [done|].
    destruct ps as [|q ps]; simpl in *; [by rewrite IH|].
    rewrite sapp_cons. by rewrite IH.
Qed.

(** A string without the separator is a single piece, and conversely. *)
Lemma Split_single (s : string) (c : ascii) :
  ContainsByte s c = false → Split s c = [s].
Proof.
  induction s as [|a s IH]; simpl; [done|].
  destruct (Ascii.eqb a c); [done|]. intros Hs. by rewrite IH.
Qed.

Lemma Split_cons_cons (s : string) (c : ascii) :
  ContainsByte s c = true → ∃ p q ps, Split s c = p :: q :: ps.
Proof.
  induction s as [|a s IH]; simpl; [done|].
  destruct (Ascii.eqb a c).
  - intros _. pose proof (Split_nonempty s c).
    destruct (Split s c) as [|q ps]; [done|]. by eexists _, _, _.
  - intros Hs. destruct (IH Hs) as (p & q & ps & ->). by eexists _, _, _.
Qed.

(** Splitting what was joined from separator-free pieces gives the
    pieces back. *)
Lemma Split_Join (ps : list string) (c : ascii) :
  ps ≠ [] → Forall (λ p, ContainsByte p c = false) ps →
  Split (Join ps (String c "")) c = ps.
Proof.
  induction ps as [|p ps IH]; [done|]. intros _ Hall.
  inversion Hall as [|? ? Hp Hps]; subst.
  destruct ps as [|q ps].
  - simpl. by apply Split_single.
  - change (Join (p :: q :: ps) (String c ""))
      with (p +:+ String c "" +:+ Join (q :: ps) (String c "")).
    specialize (IH ltac:(done) Hps).
    remember (Join (q :: ps) (String c "")) as rest eqn:Hrest.
    clear Hall Hrest. induction p as [|a p IHp].
    + rewrite sapp_nil_l, sapp_cons. simpl. rewrite Ascii.eqb_refl.
      by rewrite sapp_nil_l, IH.
    + rewrite sapp_cons. simpl in Hp |- *.
      destruct (Ascii.eqb a c); [done|]. by rewrite (IHp Hp).
Qed.

End StringFacts.

(** Strings as lists of bytes. *)
Module StringList.
Import GoStrings StringFacts.

Abbreviation bytesOf := String.list_ascii_of_string.

Lemma bytesOf_inj (s t : string) : bytesOf s = bytesOf t → s = t.
Proof.
  intros Hst. rewrite <- (String.string_of_list_ascii_of_string s),
    <- (String.string_of_list_ascii_of_string t). by rewrite Hst.
Qed.

Lemma bytesOf_app (s t : string) : bytesOf (s +:+ t) = bytesOf s ++ bytesOf t.
Proof. induction s as [|c s IH]; [done|]. rewrite sapp_cons. simpl. by rewrite IH. Qed.

Lemma bytesOf_length (s : string) : length (bytesOf s) = String.length s.
Proof. induction s as [|c s IH]; [done|]. simpl. by rewrite IH. Qed.

Lemma sapp_inj_l (s t u : string) : s +:+ t = s +:+ u → t = u.
Proof.
  intros Heq. apply bytesOf_inj. apply (f_equal bytesOf) in Heq.
  rewrite !bytesOf_app in Heq. by apply app_inv_head in Heq.
Qed.

Lemma sapp_inj_r (s t u : string) : s +:+ u = t +:+ u → s = t.
Proof.
  intros Heq. apply bytesOf_inj. apply (f_equal bytesOf) in Heq.
  rewrite !bytesOf_app in Heq. by apply app_inv_tail in Heq.
Qed.

Lemma sliceTo_sliceFrom (n : nat) (s : string) :
  sliceTo n s +:+ sliceFrom n s = s.
Proof.
  revert s. induction n as [|n IH]; intros [|c s]; simpl; try done.
  by rewrite sapp_cons, IH.
Qed.

Lemma sliceFrom_app_length (p t : string) :
  sliceFrom (String.length p) (p +:+ t) = t.
Proof. induction p as [|c p IH]; [done|]. by rewrite sapp_cons. Qed.

Lemma length_sliceFrom (n : nat) (s : string) :
  String.length (sliceFrom n s) = (String.length s - n)%nat.
Proof. revert s. induction n as [|n IH]; intros [|c s]; simpl; auto with lia. Qed.

Lemma len_app (s t : string) : len (s +:+ t) = len s + len t.
Proof. unfold len. rewrite slength_app. lia. Qed.

Lemma len_nonneg (s : string) : 0 <= len s.
Proof. unfold len. lia. Qed.

Lemma len_zero (s : string) : len s = 0 ↔ s = "".
Proof. unfold len. destruct s; simpl; split; intros; (done || lia). Qed.

(** [HasSuffix] holds exactly of the strings that end with the suffix. *)
Lemma HasSuffix_true (s suffix : string) :
  bytes.HasSuffix s suffix = true ↔ ∃ p, s = p +:+ suffix.
Proof.
  unfold bytes.HasSuffix. rewrite andb_true_iff, eqb_true. split.
  - intros [_ Hs].
    pose proof (sliceTo_sliceFrom (Z.to_nat (len s - len suffix)) s) as Hcut.
    rewrite Hs in Hcut. eauto.
  - intros [p ->]. rewrite len_app. pose proof (len_nonneg p). split; [lia|].
    replace (Z.to_nat (len p + len suffix - len suffix)) with (String.length p)
      by (unfold len; lia).
    apply sliceFrom_app_length.
Qed.

Lemma HasSuffix_false (s suffix : string) :
  bytes.HasSuffix s suffix = false ↔ ¬ ∃ p, s = p +:+ suffix.
Proof. rewrite <- HasSuffix_true. by destruct (bytes.HasSuffix s suffix). Qed.

End StringList.

(** ** [splitSymbol] *)

Section SplitSymbol.
Import GoStrings StringFacts StringList.

Lemma splitSymbol_no_dot (spec : string) :
  ContainsByte spec DOT = false → splitSymbol spec = (spec, "").
Proof.
  intros Hdot. unfold splitSymbol.
  destruct (String.eqb spec "") eqn:Hempty.
  - by apply eqb_true in Hempty as ->.
  - by rewrite (Split_single _ _ Hdot).
Qed.

Lemma splitSymbol_dot (spec : string) :
  ContainsByte spec DOT = true →
  ContainsByte (splitSymbol spec).1 DOT = false
  ∧ (splitSymbol spec).1 +:+ "." +:+ (splitSymbol spec).2 = spec.
Proof.
  intros Hdot. unfold splitSymbol.
  destruct (String.eqb spec "") eqn:Hempty.
  { apply eqb_true in Hempty as ->. done. }
  pose proof (Split_no_sep spec DOT) as Hpieces.
  pose proof (Join_Split spec DOT) as Hjoin.
  destruct (Split_cons_cons _ _ Hdot) as (p & q & ps & Hsplit).
  rewrite Hsplit in *. inversion Hpieces as [|? ? Hp _]. simpl. split; [done|].
  exact Hjoin.
Qed.

Lemma splitSymbol_fst_no_dot (spec : string) :
  ContainsByte (splitSymbol spec).1 DOT = false.
Proof.
  destruct (ContainsByte spec DOT) eqn:Hdot.
  - by apply splitSymbol_dot.
  - by rewrite (splitSymbol_no_dot _ Hdot).
Qed.

(** C8, as amended: [splitSymbol] cuts at the first dot.  The symbol
    part never contains a dot; an input without a dot is returned whole
    with an empty method part; an input with a dot is the symbol part, a
    dot and the method part (which is empty when the first dot is the
    last byte). *)
Theorem splitSymbol_partition (spec : string) :
  ContainsByte (splitSymbol spec).1 DOT = false
  ∧ if ContainsByte spec DOT
    then (splitSymbol spec).1 +:+ "." +:+ (splitSymbol spec).2 = spec
    else splitSymbol spec = (spec, "").
Proof.
  split; [apply splitSymbol_fst_no_dot|].
  destruct (ContainsByte spec DOT) eqn:Hdot.
  - by apply splitSymbol_dot.
  - by apply splitSymbol_no_dot.
Qed.

(** C8 as worded fails on an input that ends with its only dot: the
    method part of ["a."] is empty, yet the symbol part ["a"] is not the
    whole input. *)
Lemma splitSymbol_trailing_dot : ¬ splitSymbolLossless "a.".
Proof. intros [Hempty _]. by destruct (Hempty eq_refl) as [? _]. Qed.

End SplitSymbol.

(** ** [displaySymbol] after [splitSymbol] *)

Section DisplaySymbol.
Import GoStrings StringFacts StringList.

(** X15: [displaySymbol] gives the input of [splitSymbol] back when both
    parts are non-empty, or when the input has no dot. *)
Lemma displaySymbol_splitSymbol (spec : string) :
  (splitSymbol spec).1 ≠ "" ∧ (splitSymbol spec).2 ≠ ""
  ∨ ContainsByte spec DOT = false →
  displaySymbol (splitSymbol spec).1 (splitSymbol spec).2 = spec.
Proof.
  unfold displaySymbol. intros [[Hsym Hmeth]|Hdot].
  - apply eqb_false in Hsym, Hmeth. rewrite Hsym, Hmeth.
    destruct (ContainsByte spec DOT) eqn:Hdot.
    + by apply splitSymbol_dot.
    + rewrite (splitSymbol_no_dot _ Hdot) in Hmeth. done.
  - rewrite (splitSymbol_no_dot _ Hdot). simpl.
    by destruct (String.eqb spec "") eqn:Hspec; [apply eqb_true in Hspec|].
Qed.

(** It does not when the first dot is the last byte. *)
Lemma displaySymbol_trailing_dot :
  displaySymbol (splitSymbol "a.").1 (splitSymbol "a.").2 = "a".
Proof. reflexivity. Qed.

End DisplaySymbol.

(** ** [singleArgCandidates] *)

Section ParseCompound.
Import GoStrings StringFacts StringList.

Lemma foldl_parseCompoundStep (arg : string) (l : list nat)
    (acc : list invocation) :
  foldl (parseCompoundStep arg) acc l
  = acc ++ flat_map
      (λ i, if bool_decide (String.get i arg = Some DOT)
               && negb (String.eqb (sliceTo i arg) "")
            then [Invocation (sliceTo i arg)
                    (splitSymbol (sliceFrom (S i) arg)).1
                    (splitSymbol (sliceFrom (S i) arg)).2]
            else [])
      l.
Proof.
  revert acc. induction l as [|i l IH]; intros acc.
  - simpl. by rewrite app_nil_r.
  - cbn [foldl flat_map]. rewrite IH. unfold parseCompoundStep.
    destruct (bool_decide (String.get i arg = Some DOT)); cbn [negb andb];
      [|done].
    destruct (String.eqb (sliceTo i arg) ""); cbn [negb]; [done|].
    destruct (splitSymbol (sliceFrom (S i) arg)). cbn [fst snd].
    by rewrite <- app_assoc.
Qed.

(** [parseCompound] yields the candidates of the third group. *)
Lemma parseCompound_compoundCandidates (arg : string) :
  parseCompound arg = compoundCandidates arg.
Proof. unfold parseCompound. by rewrite foldl_parseCompoundStep. Qed.

Lemma elem_of_compoundCandidates (arg : string) (x : invocation) :
  x ∈ compoundCandidates arg →
  ∃ i, String.get i arg = Some DOT
       ∧ sliceTo i arg ≠ ""
       ∧ x = Invocation (sliceTo i arg)
               (splitSymbol (sliceFrom (S i) arg)).1
               (splitSymbol (sliceFrom (S i) arg)).2.
Proof.
  unfold compoundCandidates. rewrite list_elem_of_In, in_flat_map.
  intros (i & _ & Hx). exists i.
  case_bool_decide as Hget; cbn [andb] in Hx; [|done].
  destruct (String.eqb (sliceTo i arg) "") eqn:Hp; cbn [negb] in Hx; [done|].
  apply eqb_false in Hp. destruct Hx as [<-|[]]. done.
Qed.

End ParseCompound.

Section SingleArg.
Context `{GoRuntime}.
Import GoStrings StringFacts StringList.

Local Arguments add : simpl never.

Lemma addAll_app (st : addState) (l1 l2 : list invocation) :
  addAll st (l1 ++ l2) = addAll (addAll st l1) l2.
Proof. apply foldl_app. Qed.

Lemma addAll_one (st : addState) (p s m : string) :
  addAll st [Invocation p s m] = add st p s m.
Proof. reflexivity. Qed.

Lemma addAll_nil (st : addState) : addAll st [] = st.
Proof. reflexivity. Qed.

(** [singleArgCandidates] adds the four groups in order. *)
Lemma singleArgCandidates_addAll (arg : string) :
  singleArgCandidates arg
  = candidates (addAll (AddState ∅ []) (candidateList arg)).
Proof.
  unfold singleArgCandidates, candidateList, localCandidate.
  rewrite parseCompound_compoundCandidates.
  destruct (splitSymbol arg) as [sym meth].
  cbn [fst snd]. rewrite !addAll_app, !addAll_one.
  fold (addAll (add (if startsWithUpper arg
            && negb (ContainsAny arg (String SLASH (String BACKSLASH "")))
          then add (AddState ∅ []) "." sym meth else AddState ∅ []) arg "" "")
          (compoundCandidates arg)).
  destruct (startsWithUpper arg && _);
    destruct (ContainsByte arg DOT);
    by rewrite ?addAll_one, ?addAll_nil.
Qed.

Lemma dedupTriples_subseteq (before l : list invocation) (x : invocation) :
  x ∈ dedupTriples before l → x ∈ l.
Proof.
  revert before. induction l as [|y l IH]; intros before; simpl; [done|].
  case_bool_decide.
  - intros Hx. right. by eapply IH.
  - intros [->|Hx]%elem_of_cons; [left|right; by eapply IH].
Qed.

Lemma addAll_cons (st : addState) (x : invocation) (l : list invocation) :
  addAll st (x :: l) = addAll (add st (pkgExpr x) (symbol x) (method x)) l.
Proof. reflexivity. Qed.

Lemma add_seen (st : addState) (x : invocation) :
  keyOf x ∈ seen st → add st (pkgExpr x) (symbol x) (method x) = st.
Proof. intros Hx. unfold add. fold (keyOf x). by rewrite bool_decide_true. Qed.

Lemma add_new (st : addState) (x : invocation) :
  keyOf x ∉ seen st →
  add st (pkgExpr x) (symbol x) (method x)
  = AddState ({[keyOf x]} ∪ seen st) (candidates st ++ [dotIfEmpty x]).
Proof. intros Hx. unfold add. fold (keyOf x). by rewrite bool_decide_false. Qed.

(** When different triples have different keys, looking up the key is
    looking up the triple. *)
Lemma addAll_dedupTriples (l before : list invocation) (cs : list invocation) :
  (∀ x y, x ∈ before ++ l → y ∈ before ++ l → keyOf x = keyOf y → x = y) →
  candidates (addAll (AddState (list_to_set (keyOf <$> before)) cs) l)
  = cs ++ map dotIfEmpty (dedupTriples before l).
Proof.
  revert before cs. induction l as [|x l IH]; intros before cs Hinj.
  - simpl. by rewrite app_nil_r.
  - rewrite addAll_cons. cbn [dedupTriples].
    assert (keyOf x ∈ (list_to_set (keyOf <$> before) : gset string)
            ↔ x ∈ before) as Hseen.
    { rewrite elem_of_list_to_set, list_elem_of_fmap. split.
      - intros (y & Hkey & Hy).
        rewrite (Hinj x y); [done| |by apply elem_of_app; left|done].
        apply elem_of_app; right; left.
      - intros Hx. by exists x. }
    case_bool_decide as Hx.
    + rewrite add_seen by by apply Hseen.
      apply IH. intros y z Hy Hz. apply Hinj.
      * apply elem_of_app in Hy as [Hy|Hy]; apply elem_of_app; [by left|].
        right; by right.
      * apply elem_of_app in Hz as [Hz|Hz]; apply elem_of_app; [by left|].
        right; by right.
    + rewrite add_new by (by rewrite Hseen). cbn [seen candidates].
      change ({[keyOf x]} ∪ list_to_set (keyOf <$> before) : gset string)
        with (list_to_set (keyOf <$> (x :: before)) : gset string).
      rewrite IH.
      * cbn [map]. by rewrite <- app_assoc.
      * intros y z Hy Hz. apply Hinj.
        -- apply elem_of_app. apply elem_of_app in Hy as [Hy|Hy].
           ++ apply elem_of_cons in Hy as [->|Hy]; [right; left|by left].
           ++ right; by right.
        -- apply elem_of_app. apply elem_of_app in Hz as [Hz|Hz].
           ++ apply elem_of_cons in Hz as [->|Hz]; [right; left|by left].
           ++ right; by right.
Qed.

End SingleArg.

Section KeyClash.
Import GoStrings StringFacts StringList.

Lemma length_addKey (p s m : string) :
  String.length (addKey p s m)
  = (String.length p + String.length s + String.length m + 2)%nat.
Proof. unfold addKey. rewrite !slength_app. simpl. lia. Qed.

Lemma splitSymbol_length (x : string) :
  (String.length (splitSymbol x).1 + String.length (splitSymbol x).2
   + (if ContainsByte x DOT then 1 else 0))%nat
  = String.length x.
Proof.
  destruct (ContainsByte x DOT) eqn:Hdot.
  - destruct (splitSymbol_dot _ Hdot) as [_ Hx].
    rewrite <- Hx at 3. rewrite !slength_app. simpl. lia.
  - rewrite (splitSymbol_no_dot _ Hdot). simpl. lia.
Qed.

Lemma get_cut (i : nat) (arg : string) (c : ascii) :
  String.get i arg = Some c →
  arg = sliceTo i arg +:+ String c (sliceFrom (S i) arg)
  ∧ String.length (sliceTo i arg) = i.
Proof.
  revert arg. induction i as [|i IH]; intros [|a arg] Hget; try done.
  - simpl in Hget. by injection Hget as ->.
  - simpl in Hget. destruct (IH _ Hget) as [Harg Hlen].
    cbn [sliceTo sliceFrom]. rewrite sapp_cons.
    cbn [sliceFrom] in Harg. rewrite <- Harg.
    split; [done|]. simpl. by rewrite Hlen.
Qed.

Lemma get_ContainsByte (i : nat) (arg : string) (c : ascii) :
  String.get i arg = Some c → ContainsByte arg c = true.
Proof.
  intros Hget. destruct (get_cut _ _ _ Hget) as [-> _].
  rewrite ContainsByte_app. simpl. rewrite Ascii.eqb_refl.
  apply orb_true_r.
Qed.

Lemma sliceTo_lt (i j : nat) (arg : string) (c : ascii) :
  (i < j)%nat → String.get i arg = Some c →
  ∃ rest, sliceTo j arg = sliceTo i arg +:+ String c rest.
Proof.
  revert j arg. induction i as [|i IH]; intros [|j] [|a arg] Hij Hget;
    try done; try lia.
  - simpl in Hget. injection Hget as ->. by eexists.
  - simpl in Hget. destruct (IH j arg ltac:(lia) Hget) as [rest Hrest].
    exists rest. cbn [sliceTo]. by rewrite Hrest, sapp_cons.
Qed.

Lemma pipes_shift (k : nat) (x : string) :
  pipes k +:+ String PIPE x = String PIPE (pipes k +:+ x).
Proof.
  induction k as [|k IH]; [done|].
  cbn [pipes]. by rewrite !sapp_cons, IH.
Qed.

Lemma pipes_commute (k : nat) (m : string) :
  pipes (S k) +:+ m = m +:+ pipes (S k) → allPipes m = true.
Proof.
  induction m as [|c m IH]; [done|].
  cbn [pipes]. rewrite !sapp_cons. intros [= <- Heq].
  rewrite pipes_shift in Heq. cbn [allPipes]. rewrite Ascii.eqb_refl.
  apply IH. cbn [pipes]. by rewrite sapp_cons.
Qed.

Lemma allPipes_commute (k : nat) (m : string) :
  allPipes m = true → pipes k +:+ m = m +:+ pipes k.
Proof.
  induction m as [|c m IH]; [by rewrite sapp_nil_r|].
  cbn [allPipes]. intros [Hc Hm]%andb_true_iff.
  apply Ascii.eqb_eq in Hc as ->.
  by rewrite pipes_shift, IH, sapp_cons.
Qed.

Lemma allPipes_no_dot (m : string) :
  allPipes m = true → ContainsByte m DOT = false.
Proof.
  induction m as [|c m IH]; [done|].
  cbn [allPipes ContainsByte]. intros [Hc Hm]%andb_true_iff.
  apply Ascii.eqb_eq in Hc as ->. by apply IH.
Qed.

(** On a dot followed by [|] the local candidate and the package
    candidate are different triples with the same key. *)
Lemma dotPipes_key_clash (arg : string) :
  dotPipes arg = true →
  keyOf (localCandidate arg) = keyOf (Invocation arg "" "")
  ∧ localCandidate arg ≠ Invocation arg "" "".
Proof.
  destruct arg as [|c [|d r]]; try done. cbn [dotPipes].
  intros [[Hc Hd]%andb_true_iff Hr]%andb_true_iff.
  apply Ascii.eqb_eq in Hc as ->. apply Ascii.eqb_eq in Hd as ->.
  assert (splitSymbol (String DOT (String PIPE r)) = ("", String PIPE r))
    as Hsplit.
  { unfold splitSymbol. cbn [String.eqb].
    assert (∀ s, Split (String DOT s) DOT = "" :: Split s DOT) as ->
      by (intros s; cbn [Split]; by rewrite Ascii.eqb_refl).
    rewrite (Split_single (String PIPE r)); [done|].
    apply (allPipes_no_dot (String PIPE r)). cbn [allPipes].
    by rewrite Ascii.eqb_refl. }
  unfold localCandidate, keyOf. rewrite Hsplit.
  cbn [fst snd pkgExpr symbol method]. split; [|done].
  unfold addKey. rewrite !sapp_cons, !sapp_nil_l. do 2 f_equal.
  change (pipes 2 +:+ r = r +:+ pipes 2). by apply allPipes_commute.
Qed.

(** The key of the compound candidate at index [i] is shorter than the
    keys of the package candidate and of the local candidate. *)
Lemma length_key_compound (arg : string) (i : nat) :
  String.get i arg = Some DOT →
  (String.length
     (addKey (sliceTo i arg) (splitSymbol (sliceFrom (S i) arg)).1
        (splitSymbol (sliceFrom (S i) arg)).2)
   < String.length arg + 2)%nat.
Proof.
  intros Hget. destruct (get_cut _ _ _ Hget) as [Harg Hlen].
  rewrite length_addKey, Hlen.
  pose proof (splitSymbol_length (sliceFrom (S i) arg)) as Hsplit.
  apply (f_equal String.length) in Harg.
  rewrite slength_app, Hlen in Harg. cbn [String.length] in Harg.
  destruct (ContainsByte (sliceFrom (S i) arg) DOT); lia.
Qed.

Lemma length_key_local (arg : string) :
  (String.length arg + 2 <= String.length (keyOf (localCandidate arg)))%nat.
Proof.
  unfold keyOf, localCandidate. cbn [pkgExpr symbol method].
  rewrite length_addKey. pose proof (splitSymbol_length arg).
  simpl. destruct (ContainsByte arg DOT); lia.
Qed.

Lemma length_key_package (arg : string) :
  String.length (keyOf (Invocation arg "" "")) = (String.length arg + 2)%nat.
Proof.
  unfold keyOf. cbn [pkgExpr symbol method]. rewrite length_addKey.
  simpl. lia.
Qed.

(** The local candidate and the package candidate have the same key
    only when they are the same triple, or on a dot followed by [|]. *)
Lemma local_package_clash (arg : string) :
  dotPipes arg = false →
  keyOf (localCandidate arg) = keyOf (Invocation arg "" "") →
  localCandidate arg = Invocation arg "" "".
Proof.
  intros Hpipes Hkey. unfold localCandidate in *.
  destruct (ContainsByte arg DOT) eqn:Hdot.
  - destruct (splitSymbol_dot _ Hdot) as [Hsym Harg].
    destruct (splitSymbol arg) as [sym meth]. cbn [fst snd] in *.
    unfold keyOf, addKey in Hkey. cbn [pkgExpr symbol method] in Hkey.
    subst arg. destruct sym as [|c sym].
    + rewrite !sapp_cons, !sapp_nil_l in Hkey.
      injection Hkey as Hkey.
      assert (allPipes meth = true) as Hmeth.
      { apply (pipes_commute 1). cbn [pipes].
        by rewrite !sapp_cons, !sapp_nil_l. }
      rewrite !sapp_cons, !sapp_nil_l in Hpipes |- *.
      destruct meth as [|d meth]; [done|].
      cbn [dotPipes allPipes] in Hpipes, Hmeth.
      rewrite Ascii.eqb_refl in Hpipes.
      apply andb_true_iff in Hmeth as [Hd Hrest].
      rewrite Hd, Hrest in Hpipes. done.
    + rewrite !sapp_cons in Hkey. injection Hkey as <- _.
      simpl in Hsym. done.
  - rewrite (splitSymbol_no_dot _ Hdot) in *. cbn [fst snd] in *.
    apply (f_equal String.length) in Hkey. unfold keyOf in Hkey.
    cbn [pkgExpr symbol method] in Hkey. rewrite !length_addKey in Hkey.
    simpl in Hkey. lia.
Qed.

(** Two compound candidates with the same key come from the same dot. *)
Lemma compound_clash (arg : string) (i j : nat) (si mi sj mj : string) :
  String.get i arg = Some DOT → (i < j)%nat →
  addKey (sliceTo i arg) si mi ≠ addKey (sliceTo j arg) sj mj.
Proof.
  intros Hi Hij Hkey. destruct (sliceTo_lt _ _ _ _ Hij Hi) as [rest Hrest].
  unfold addKey in Hkey. rewrite Hrest, sapp_assoc in Hkey.
  apply sapp_inj_l in Hkey. by rewrite !sapp_cons in Hkey.
Qed.

End KeyClash.

Section SingleArgSpec.
Context `{GoRuntime}.
Import GoStrings StringFacts StringList.

Lemma elem_of_candidateList (arg : string) (x : invocation) :
  x ∈ candidateList arg →
  x = localCandidate arg ∨ x = Invocation arg "" ""
  ∨ x ∈ compoundCandidates arg.
Proof.
  unfold candidateList. rewrite !elem_of_app.
  intros [Hx|[Hx|[Hx|Hx]]].
  - destruct (_ && _); [|by apply elem_of_nil in Hx].
    apply list_elem_of_singleton in Hx. auto.
  - apply list_elem_of_singleton in Hx. auto.
  - destruct (ContainsByte arg DOT); [auto|by apply elem_of_nil in Hx].
  - apply list_elem_of_singleton in Hx. auto.
Qed.

(** Apart from a dot followed by [|], different triples of the
    candidate list have different keys. *)
Lemma candidateList_key_inj (arg : string) (x y : invocation) :
  dotPipes arg = false →
  x ∈ candidateList arg → y ∈ candidateList arg →
  keyOf x = keyOf y → x = y.
Proof.
  intros Hpipes Hx Hy Hkey.
  apply elem_of_candidateList in Hx as [->|[->|Hx]];
    apply elem_of_candidateList in Hy as [->|[->|Hy]]; try done.
  - by apply local_package_clash.
  - apply elem_of_compoundCandidates in Hy as (j & Hj & _ & ->).
    apply (f_equal String.length) in Hkey.
    pose proof (length_key_local arg).
    pose proof (length_key_compound arg j Hj). unfold keyOf in *.
    cbn [pkgExpr symbol method] in *. lia.
  - symmetry. by apply local_package_clash.
  - apply elem_of_compoundCandidates in Hy as (j & Hj & _ & ->).
    apply (f_equal String.length) in Hkey.
    rewrite length_key_package in Hkey.
    pose proof (length_key_compound arg j Hj). unfold keyOf in *.
    cbn [pkgExpr symbol method] in *. lia.
  - apply elem_of_compoundCandidates in Hx as (i & Hi & _ & ->).
    apply (f_equal String.length) in Hkey.
    pose proof (length_key_local arg).
    pose proof (length_key_compound arg i Hi). unfold keyOf in *.
    cbn [pkgExpr symbol method] in *. lia.
  - apply elem_of_compoundCandidates in Hx as (i & Hi & _ & ->).
    apply (f_equal String.length) in Hkey.
    rewrite length_key_package in Hkey.
    pose proof (length_key_compound arg i Hi). unfold keyOf in *.
    cbn [pkgExpr symbol method] in *. lia.
  - apply elem_of_compoundCandidates in Hx as (i & Hi & _ & ->).
    apply elem_of_compoundCandidates in Hy as (j & Hj & _ & ->).
    unfold keyOf in Hkey. cbn [pkgExpr symbol method] in Hkey.
    destruct (lt_eq_lt_dec i j) as [[Hlt| ->]|Hlt]; [|done|].
    + by apply (compound_clash arg i j _ _ _ _ Hi Hlt) in Hkey.
    + symmetry in Hkey. by apply (compound_clash arg j i _ _ _ _ Hj Hlt) in Hkey.
Qed.

(** What the code computes: the list of section 4.1, deduplicated, with
    ["."] for an empty package expression. *)
Lemma singleArgCandidates_dotIfEmpty (arg : string) :
  dotPipes arg = false →
  singleArgCandidates arg = map dotIfEmpty (specCandidates arg).
Proof.
  intros Hpipes. rewrite singleArgCandidates_addAll.
  change (∅ : gset string) with (list_to_set (keyOf <$> []) : gset string).
  rewrite addAll_dedupTriples; [done|].
  intros x y Hx Hy. by apply (candidateList_key_inj arg).
Qed.

Lemma candidateList_hasPackage (arg : string) :
  arg ≠ "" → Forall hasPackage (candidateList arg).
Proof.
  intros Harg. apply Forall_forall. intros x Hx.
  apply elem_of_candidateList in Hx as [->|[->|Hx]]; [done|done|].
  by apply elem_of_compoundCandidates in Hx as (i & _ & Hi & ->).
Qed.

Lemma dotIfEmpty_hasPackage (x : invocation) :
  hasPackage x → dotIfEmpty x = x.
Proof.
  destruct x as [p s m]. unfold hasPackage, dotIfEmpty. simpl.
  intros Hp. apply eqb_false in Hp. by rewrite Hp.
Qed.

(** For a non-empty argument no package expression of the list is
    empty, and the list is stored as it is. *)
Lemma specCandidates_dotIfEmpty (arg : string) :
  arg ≠ "" → map dotIfEmpty (specCandidates arg) = specCandidates arg.
Proof.
  intros Harg. unfold specCandidates.
  assert (Forall hasPackage (dedupTriples [] (candidateList arg))) as Hall.
  { apply Forall_forall. intros x Hx%dedupTriples_subseteq.
    by apply (proj1 (Forall_forall _ _) (candidateList_hasPackage arg Harg)). }
  induction Hall as [|x l Hx _ IH]; [done|].
  cbn [map]. by rewrite dotIfEmpty_hasPackage, IH.
Qed.


End SingleArgSpec.



(** On a dot followed by [|] the key of the local candidate is the key
    of the package candidate, and the local candidate is lost. *)
Lemma singleArgCandidates_key_clash :
  @singleArgCandidates (asciiRuntime noPackages) ".|"
  = [Invocation ".|" "" ""]
  ∧ @specCandidates (asciiRuntime noPackages) ".|"
    = [Invocation ".|" "" ""; Invocation "." "" "|"].
Proof. split; vm_compute; reflexivity. Qed.

(** ** [buildCandidates] *)

Section BuildCandidates.
Context `{GoRuntime}.

Lemma add_hasPackage (st : addState) (p s m : string) :
  Forall hasPackage (candidates st) →
  Forall hasPackage (candidates (add st p s m)).
Proof.
  intros Hst. unfold add. case_bool_decide; [done|]. simpl.
  apply Forall_app. split; [done|]. constructor; [|done].
  unfold hasPackage. simpl. destruct (String.eqb p "") eqn:Hp; [done|].
  by apply StringFacts.eqb_false in Hp.
Qed.

Lemma foldl_add_hasPackage (l : list invocation) (st : addState) :
  Forall hasPackage (candidates st) →
  Forall hasPackage
    (candidates
       (foldl (λ st cand, add st (pkgExpr cand) (symbol cand) (method cand))
              st l)).
Proof.
  revert st. induction l as [|c l IH]; intros st Hst; [done|].
  simpl. by apply IH, add_hasPackage.
Qed.

Lemma singleArgCandidates_hasPackage (arg : string) :
  Forall hasPackage (singleArgCandidates arg).
Proof.
  unfold singleArgCandidates.
  destruct (splitSymbol arg) as [sym meth].
  apply add_hasPackage.
  assert (Forall hasPackage (candidates (add
    (if startsWithUpper arg
        && negb (GoStrings.ContainsAny arg (String SLASH (String BACKSLASH "")))
     then add (AddState ∅ []) "." sym meth else AddState ∅ []) arg "" "")))
    as Hfirst.
  { apply add_hasPackage. destruct (_ && _); [apply add_hasPackage|]; by simpl. }
  destruct (GoStrings.ContainsByte arg DOT); [|done].
  by apply foldl_add_hasPackage.
Qed.

(** C10, as amended: with no argument or one argument every candidate
    has a non-empty package expression; with two arguments the only
    candidate has the first argument as it is, empty or not, for its
    package expression; more arguments are an error. *)
Theorem buildCandidates_pkgExpr (args : list string) :
  match args with
  | [] | [_] =>
      ∃ cands, buildCandidates args = Ok cands
               ∧ Forall (λ c, pkgExpr c ≠ "") cands
  | [arg0; arg1] =>
      buildCandidates args
      = Ok [Invocation arg0 (splitSymbol arg1).1 (splitSymbol arg1).2]
  | _ => buildCandidates args = Err "too many positional arguments"
  end.
Proof.
  destruct args as [|arg0 [|arg1 [|arg2 args]]]; simpl.
  - eexists; split; [done|]. by repeat constructor.
  - eexists; split; [done|]. apply singleArgCandidates_hasPackage.
  - by destruct (splitSymbol arg1).
  - done.
Qed.

End BuildCandidates.

(** C10 as worded fails for two arguments of which the first is empty:
    the candidate keeps the empty package expression. *)
Lemma buildCandidates_empty_package :
  ¬ @candidatesHavePackage (asciiRuntime noPackages) [""; "Greeter"].
Proof.
  intros Hclaim. specialize (Hclaim _ eq_refl).
  by inversion Hclaim as [|? ? Hne _].
Qed.

(** ** [resolvePackage] *)

Section ResolvePackage.
Context `{GoRuntime}.

(** [loadPackage] fails with the error of [packages.Load], with the
    first error of the first package, or because nothing matched. *)
Lemma loadPackage_error (pattern : string) (e : error) :
  loadPackage pattern = Err e →
  packages_Load [pattern] = Err e
  ∨ packages_Load [pattern] = Ok []
    ∧ e = "no Go packages matched " +:+ strconv_Quote pattern
  ∨ ∃ p ps es, packages_Load [pattern] = Ok (p :: ps) ∧ Errors p = e :: es.
Proof.
  unfold loadPackage. destruct (packages_Load [pattern]) as [[|p ps]|e'].
  - intros [= <-]. auto.
  - destruct (Errors p) as [|e' es] eqn:Herrs; [done|].
    intros [= <-]. right; right. by eexists _, _, _.
  - intros [= <-]. auto.
Qed.

(** C2, as amended: when the verbatim load fails and the suffix search
    finds nothing, [resolvePackage] returns the error
    [could not resolve package path for <quoted expression>]; the error
    of the failed load is dropped. *)
Theorem resolvePackage_unresolved (expr : string) (c : stdCache) (e : error) :
  loadPackage (if String.eqb expr "" then "." else expr) = Err e →
  (matchStdSuffix expr c).1 = "" →
  (resolvePackage expr c).1
  = Err ("could not resolve package path for " +:+ strconv_Quote expr).
Proof.
  intros Hload Hstd. unfold resolvePackage.
  assert (resolvePackageTry (if String.eqb expr "" then ["."] else [expr])
          = None) as ->.
  { destruct (String.eqb expr "") eqn:Hexpr; simpl.
    - by rewrite Hload.
    - rewrite Hexpr. by rewrite Hload. }
  destruct (matchStdSuffix expr c) as [m c']. simpl in Hstd. by subst m.
Qed.

(** When the suffix search finds a path, the outcome of loading that
    path is returned, its error included. *)
Lemma resolvePackage_std_match (expr : string) (c : stdCache) (e : error) :
  loadPackage (if String.eqb expr "" then "." else expr) = Err e →
  (matchStdSuffix expr c).1 ≠ "" →
  (resolvePackage expr c).1 = loadPackage (matchStdSuffix expr c).1.
Proof.
  intros Hload Hstd. unfold resolvePackage.
  assert (resolvePackageTry (if String.eqb expr "" then ["."] else [expr])
          = None) as ->.
  { destruct (String.eqb expr "") eqn:Hexpr; simpl.
    - by rewrite Hload.
    - rewrite Hexpr. by rewrite Hload. }
  destruct (matchStdSuffix expr c) as [m c']. simpl in *.
  apply StringFacts.eqb_false in Hstd. by rewrite Hstd.
Qed.

End ResolvePackage.

(** C2 as worded fails when no package loads: the load error
    ["malformed import path"] is replaced by the resolution error. *)
Lemma resolvePackage_drops_load_error :
  ¬ @surfacesLoadError (asciiRuntime noPackages) "x" stdCache_init.
Proof. intros Hclaim. by specialize (Hclaim _ eq_refl eq_refl). Qed.

Lemma resolvePackage_unresolved_witness :
  (@resolvePackage (asciiRuntime noPackages) "x" stdCache_init).1
  = Err ("could not resolve package path for "
         +:+ String DQUOTE "x" +:+ String DQUOTE "").
Proof.
  apply (@resolvePackage_unresolved (asciiRuntime noPackages) "x"
           stdCache_init "malformed import path"); reflexivity.
Defined.

(** ** The empty package expression *)

(** [resolvePackage] loads the current directory for the empty
    expression. *)
Lemma resolvePackage_empty_expr `{GoRuntime} (c : stdCache) (p : Package) :
  loadPackage "." = Ok p → resolvePackage "" c = (Ok p, c).
Proof. intros Hload. unfold resolvePackage. simpl. by rewrite Hload. Qed.

(** ** [renderSymbol] *)

Section RenderSymbol.
Context `{GoRuntime}.
Variable r : markdownRenderer.
Variable symbol : string.

(** A loop that appends a block for every element that passes a test
    and sets [rendered]. *)
Lemma foldl_render {A} (test : A → bool) (mk : A → block) (l : list A)
    (w : list block) (b : bool) :
  foldl (λ st x, if test x then (st.1 ++ [mk x], true) else st) (w, b) l
  = (w ++ (mk <$> filter (λ x, test x = true) l),
     b || bool_decide (mk <$> filter (λ x, test x = true) l ≠ [])).
Proof.
  revert w b. induction l as [|x l IH]; intros w b; simpl.
  - by rewrite app_nil_r, orb_false_r.
  - rewrite filter_cons. destruct (test x) eqn:Hx.
    + case_decide; [|done]. rewrite IH. simpl.
      rewrite <- app_assoc. simpl. by rewrite orb_true_r.
    + case_decide; [done|]. by rewrite IH.
Qed.

Lemma foldl_symbolTypeStep (ts : list doc.Type_) (w : list block) (b : bool) :
  foldl (symbolTypeStep r symbol) (w, b) ts
  = (w ++ matchingTypes r symbol ts,
     b || bool_decide (matchingTypes r symbol ts ≠ [])).
Proof. apply (foldl_render (λ t, matchName r (doc.Type_Name t) symbol) TypeDoc). Qed.

Lemma foldl_symbolFuncStep (receiver : string) (fs : list doc.Func)
    (w : list block) (b : bool) :
  foldl (symbolFuncStep r symbol receiver) (w, b) fs
  = (w ++ matchingFuncs r symbol receiver fs,
     b || bool_decide (matchingFuncs r symbol receiver fs ≠ [])).
Proof.
  apply (foldl_render (λ f, matchName r (doc.Func_Name f) symbol)
           (λ f, FuncDoc f receiver)).
Qed.

Lemma foldl_symbolValueStep (vs : list doc.Value) (w : list block) (b : bool) :
  foldl (symbolValueStep r symbol) (w, b) vs
  = (w ++ matchingValues r symbol vs,
     b || bool_decide (matchingValues r symbol vs ≠ [])).
Proof. apply (foldl_render (λ v, valueHasName r v symbol) ValueDoc). Qed.

Lemma nonempty_app (l1 l2 : list block) :
  bool_decide (l1 ++ l2 ≠ [])
  = bool_decide (l1 ≠ []) || bool_decide (l2 ≠ []).
Proof. destruct l1, l2; by compute. Qed.

Lemma symbolMemberStep_blocks (t : doc.Type_) (w : list block) (b : bool) :
  symbolMemberStep r symbol (w, b) t
  = (w ++ matchingMembers r symbol t,
     b || bool_decide (matchingMembers r symbol t ≠ [])).
Proof.
  unfold symbolMemberStep, matchingMembers.
  rewrite !foldl_symbolValueStep, foldl_symbolFuncStep.
  rewrite !nonempty_app, <- !app_assoc, <- !orb_assoc. done.
Qed.

Lemma foldl_symbolMemberStep (ts : list doc.Type_) (w : list block) (b : bool) :
  foldl (symbolMemberStep r symbol) (w, b) ts
  = (w ++ flat_map (matchingMembers r symbol) ts,
     b || bool_decide (flat_map (matchingMembers r symbol) ts ≠ [])).
Proof.
  revert w b. induction ts as [|t ts IH]; intros w b; simpl.
  - by rewrite app_nil_r, orb_false_r.
  - rewrite symbolMemberStep_blocks, IH.
    by rewrite nonempty_app, <- app_assoc, <- orb_assoc.
Qed.

(** A value matches when one of its names does. *)
Lemma valueHasName_true (v : doc.Value) :
  valueHasName r v symbol = true
  ↔ ∃ n, n ∈ doc.Value_Names v ∧ matchName r n symbol = true.
Proof.
  unfold valueHasName. induction (doc.Value_Names v) as [|n ns IH]; simpl.
  - split; [done|]. intros (n & Hn & _). by apply elem_of_nil in Hn.
  - destruct (matchName r n symbol) eqn:Hn.
    + split; [|done]. intros _. exists n. split; [left|done].
    + rewrite IH. split.
      * intros (n' & Hin & Hm). exists n'. split; [by right|done].
      * intros (n' & Hin & Hm). apply elem_of_cons in Hin as [->|Hin].
        -- congruence.
        -- by exists n'.
Qed.

(** C1, as amended: the symbol view matches the name against every
    type, every top-level function, constant and variable and, for each
    type, its constants, variables and constructor functions; it
    appends a block for every match, in that order, and returns
    whether there was one.  The methods of the types are not looked
    at. *)
Theorem renderSymbol_matches (w : list block) :
  renderSymbol r w symbol
  = (w ++ symbolMatches r symbol, bool_decide (symbolMatches r symbol ≠ [])).
Proof.
  unfold renderSymbol, symbolMatches.
  rewrite foldl_symbolTypeStep, foldl_symbolFuncStep, !foldl_symbolValueStep,
    foldl_symbolMemberStep.
  rewrite !nonempty_app, <- !app_assoc, <- !orb_assoc. done.
Qed.

End RenderSymbol.

(** C1 as worded fails on the package of the test data: the symbol
    [Greet] names the method of [Greeter] and nothing else, and the
    symbol view renders nothing and returns false. *)
Lemma renderSymbol_ignores_methods :
  ¬ @rendersMatchingMethods (asciiRuntime noPackages) exampleRenderer "Greet".
Proof.
  intros Hclaim.
  destruct (Hclaim _ _ ltac:(left) ltac:(left) eq_refl) as [_ Hfalse].
  done.
Qed.

(** ** [dedentMarkdown] *)

Section Dedent.
Context `{GoRuntime}.
Import GoStrings StringFacts StringList.

Lemma leadingWhitespace_nonneg (line : string) : 0 <= leadingWhitespace line.
Proof.
  induction line as [|c line IH]; simpl; [done|].
  destruct (_ || _); lia.
Qed.

Lemma leadingWhitespace_le_len (line : string) :
  leadingWhitespace line <= len line.
Proof.
  unfold len. induction line as [|c line IH]; simpl; [done|].
  destruct (_ || _); lia.
Qed.

(** Cutting leading spaces and tabs off a line keeps it blank or
    non-blank, and lowers its indentation by the number of bytes cut. *)
Lemma sliceFrom_indent (n : nat) (line : string) :
  Z.of_nat n <= leadingWhitespace line →
  nonBlank (sliceFrom n line) = nonBlank line
  ∧ leadingWhitespace (sliceFrom n line) = leadingWhitespace line - Z.of_nat n.
Proof.
  revert line. induction n as [|n IH]; intros line Hn.
  - simpl. split; [done|lia].
  - destruct line as [|c line]; [simpl in Hn; lia|].
    simpl in Hn |- *.
    destruct (Ascii.eqb c SP || Ascii.eqb c TAB) eqn:Hc; [|lia].
    destruct (IH line ltac:(lia)) as [Hblank Hindent].
    split; [|lia]. rewrite Hblank. unfold nonBlank.
    apply orb_true_iff in Hc as [Hc|Hc]; apply Ascii.eqb_eq in Hc as ->; done.
Qed.

Lemma minIndentStep_blank (acc : Z) (line : string) :
  nonBlank line = false → minIndentStep acc line = acc.
Proof.
  unfold nonBlank, minIndentStep. by destruct (String.eqb _ "").
Qed.

Lemma minIndentStep_first (line : string) :
  nonBlank line = true → minIndentStep (-1) line = leadingWhitespace line.
Proof.
  unfold nonBlank, minIndentStep. by destruct (String.eqb _ "").
Qed.

Lemma minIndentStep_min (acc : Z) (line : string) :
  0 <= acc → nonBlank line = true →
  minIndentStep acc line = Z.min acc (leadingWhitespace line).
Proof.
  unfold nonBlank, minIndentStep. intros Hacc Hline.
  destruct (String.eqb _ ""); [done|].
  destruct (acc =? -1) eqn:Hm; [lia|]. simpl.
  destruct (leadingWhitespace line <? acc) eqn:Hlt; lia.
Qed.

Lemma foldr_min_acc (a x : Z) (l : list Z) :
  foldr Z.min (Z.min a x) l = Z.min x (foldr Z.min a l).
Proof. induction l as [|y l IH]; simpl; lia. Qed.

Lemma foldr_min_le (a : Z) (l : list Z) :
  foldr Z.min a l <= a ∧ Forall (λ x, foldr Z.min a l <= x) l.
Proof.
  induction l as [|y l [IHa IHl]]; simpl; [by split|].
  split; [lia|]. constructor; [lia|].
  eapply Forall_impl; [exact IHl|]. simpl. lia.
Qed.

Lemma foldr_min_elem (a : Z) (l : list Z) : foldr Z.min a l ∈ a :: l.
Proof.
  induction l as [|y l IH]; simpl; [left|].
  destruct (Z.min_spec y (foldr Z.min a l)) as [[_ ->]|[_ ->]].
  - right; left.
  - apply elem_of_cons in IH as [->|IH]; [left|by do 2 right].
Qed.

Lemma minimum_le (l : list Z) (x : Z) : x ∈ l → minimum l <= x.
Proof.
  destruct l as [|a l]; [by intros ?%elem_of_nil|]. simpl.
  destruct (foldr_min_le a l) as [Ha Hl].
  intros [->|Hx]%elem_of_cons; [done|].
  by apply (proj1 (Forall_forall _ _) Hl).
Qed.

Lemma minimum_elem (l : list Z) : l ≠ [] → minimum l ∈ l.
Proof. destruct l as [|a l]; [done|]. intros _. apply foldr_min_elem. Qed.

Lemma minimum_nonneg (l : list Z) : Forall (λ x, 0 <= x) l → 0 <= minimum l.
Proof.
  destruct l as [|a l]; [done|]. intros Hl. simpl.
  pose proof (foldr_min_elem a l) as Hin.
  by apply (proj1 (Forall_forall _ _) Hl).
Qed.

Lemma indents_cons (line : string) (lines : list string) :
  indents (line :: lines)
  = if nonBlank line then leadingWhitespace line :: indents lines
    else indents lines.
Proof.
  unfold indents. rewrite filter_cons.
  destruct (nonBlank line); by case_decide.
Qed.

Lemma indents_nonneg (lines : list string) :
  Forall (λ x, 0 <= x) (indents lines).
Proof.
  unfold indents. apply Forall_forall. intros x (l & -> & _)%list_elem_of_fmap.
  apply leadingWhitespace_nonneg.
Qed.

(** The first loop of [dedentMarkdown], once [minIndent] is set. *)
Lemma foldl_minIndentStep_set (lines : list string) (acc : Z) :
  0 <= acc →
  foldl minIndentStep acc lines = foldr Z.min acc (indents lines).
Proof.
  revert acc. induction lines as [|line lines IH]; intros acc Hacc; [done|].
  simpl. rewrite indents_cons. destruct (nonBlank line) eqn:Hline.
  - rewrite (minIndentStep_min _ _ Hacc Hline).
    pose proof (leadingWhitespace_nonneg line).
    rewrite IH by lia. simpl. rewrite foldr_min_acc. lia.
  - rewrite (minIndentStep_blank _ _ Hline). by apply IH.
Qed.

(** The first loop of [dedentMarkdown]: [-1] when every line is blank,
    otherwise the least indentation of a non-blank line. *)
Lemma foldl_minIndentStep (lines : list string) :
  foldl minIndentStep (-1) lines
  = if bool_decide (indents lines = []) then -1 else specMinIndent lines.
Proof.
  unfold specMinIndent.
  induction lines as [|line lines IH]; [done|].
  simpl. rewrite indents_cons. destruct (nonBlank line) eqn:Hline.
  - rewrite (minIndentStep_first _ Hline).
    rewrite foldl_minIndentStep_set by apply leadingWhitespace_nonneg.
    by rewrite bool_decide_false.
  - by rewrite (minIndentStep_blank _ _ Hline).
Qed.

Lemma specMinIndent_nonneg (lines : list string) : 0 <= specMinIndent lines.
Proof. apply minimum_nonneg, indents_nonneg. Qed.

Lemma specMinIndent_le (lines : list string) (line : string) :
  line ∈ lines → nonBlank line = true →
  specMinIndent lines <= leadingWhitespace line.
Proof.
  intros Hin Hline. apply minimum_le. apply list_elem_of_fmap.
  exists line. split; [done|]. by apply list_elem_of_filter.
Qed.

Lemma dedentLine_zero (line : string) : dedentLine 0 line = line.
Proof.
  unfold dedentLine. pose proof (len_nonneg line).
  by destruct (len line >=? 0).
Qed.

Lemma map_dedentLine_zero (lines : list string) :
  map (dedentLine 0) lines = lines.
Proof.
  induction lines as [|l lines IH]; [done|]. simpl.
  by rewrite dedentLine_zero, IH.
Qed.

Lemma ContainsByte_sliceFrom (n : nat) (s : string) (c : ascii) :
  ContainsByte s c = false → ContainsByte (sliceFrom n s) c = false.
Proof.
  revert s. induction n as [|n IH]; intros [|a s]; simpl; try done.
  destruct (Ascii.eqb a c); [done|]. apply IH.
Qed.

Lemma dedentLine_no_newline (m : Z) (line : string) :
  ContainsByte line LF = false → ContainsByte (dedentLine m line) LF = false.
Proof.
  unfold dedentLine. destruct (len line >=? m); [|done].
  apply ContainsByte_sliceFrom.
Qed.

(** [dedentMarkdown] in terms of the least indentation. *)
Lemma dedentMarkdown_lines (src : string) :
  dedentMarkdown src
  = Join (map (dedentLine (specMinIndent (Split src LF))) (Split src LF)) NL.
Proof.
  unfold dedentMarkdown. rewrite foldl_minIndentStep.
  pose proof (specMinIndent_nonneg (Split src LF)) as Hm.
  case_bool_decide as Hnone.
  - unfold specMinIndent. rewrite Hnone.
    simpl. rewrite map_dedentLine_zero. symmetry. apply Join_Split.
  - destruct (specMinIndent (Split src LF) <=? 0) eqn:Hle; [|done].
    replace (specMinIndent (Split src LF)) with 0 by lia.
    rewrite map_dedentLine_zero. symmetry. apply Join_Split.
Qed.

(** The lines of the result are the lines of the input, each cut. *)
Lemma Split_dedentMarkdown (src : string) :
  Split (dedentMarkdown src) LF
  = map (dedentLine (specMinIndent (Split src LF))) (Split src LF).
Proof.
  rewrite dedentMarkdown_lines. apply Split_Join.
  - pose proof (Split_nonempty src LF). by destruct (Split src LF).
  - apply Forall_map. eapply Forall_impl; [apply Split_no_sep|].
    intros line. apply dedentLine_no_newline.
Qed.

(** A non-blank line is cut by exactly the least indentation. *)
Lemma dedentLine_nonBlank (lines : list string) (line : string) :
  line ∈ lines → nonBlank line = true →
  let m := specMinIndent lines in
  dedentLine m line = sliceFrom (Z.to_nat m) line
  ∧ nonBlank (dedentLine m line) = true
  ∧ leadingWhitespace (dedentLine m line) = leadingWhitespace line - m.
Proof.
  intros Hin Hline m.
  pose proof (specMinIndent_le _ _ Hin Hline) as Hle.
  pose proof (specMinIndent_nonneg lines) as Hm. fold m in Hle, Hm.
  pose proof (leadingWhitespace_le_len line) as Hlen.
  assert (dedentLine m line = sliceFrom (Z.to_nat m) line) as ->.
  { unfold dedentLine. destruct (len line >=? m) eqn:Hge; [done|lia]. }
  destruct (sliceFrom_indent (Z.to_nat m) line ltac:(lia)) as [Hb Hi].
  split; [done|]. split; [congruence|lia].
Qed.

(** The cut in terms of [leadingWhitespace]. *)
Lemma dedentMarkdown_cut (src : string) :
  let lines := Split src LF in
  let m := specMinIndent lines in
  dedentMarkdown src
  = Join (map (λ line, if m <=? len line
                       then sliceFrom (Z.to_nat m) line else line) lines) NL
  ∧ length (Split (dedentMarkdown src) LF) = length lines
  ∧ Forall2
      (λ line out,
         out = (if m <=? len line then sliceFrom (Z.to_nat m) line else line)
         ∧ (if nonBlank line
            then leadingWhitespace out = leadingWhitespace line - m
            else True))
      lines (Split (dedentMarkdown src) LF).
Proof.
  intros lines m.
  assert (∀ line, dedentLine m line
                  = if m <=? len line then sliceFrom (Z.to_nat m) line
                    else line) as Hcut.
  { intros line. unfold dedentLine.
    destruct (len line >=? m) eqn:H1, (m <=? len line) eqn:H2; (done || lia). }
  split; [|split].
  - rewrite dedentMarkdown_lines. fold lines m. f_equal.
    apply map_ext. intros line. apply Hcut.
  - rewrite Split_dedentMarkdown. by rewrite length_map.
  - rewrite Split_dedentMarkdown. fold lines m.
    apply Forall2_fmap_r, Forall2_same_length_lookup. split; [done|].
    intros i line line' Hi Hi'. simplify_eq. split; [apply Hcut|].
    destruct (nonBlank line) eqn:Hline; [|done].
    apply (dedentLine_nonBlank lines line); [|done].
    by eapply list_elem_of_lookup_2.
Qed.

(** [leadingWhitespace] counts the bytes before the first byte that is
    neither a space nor a tab. *)
Lemma leadingWhitespace_indentation (line : string) :
  leadingWhitespace line = indentation line.
Proof.
  unfold indentation. induction line as [|c line IH]; [done|].
  cbn [leadingWhitespace String.list_ascii_of_string list_find].
  change (Ascii.eqb c SP || Ascii.eqb c TAB) with (isIndentByte c).
  destruct (decide (isIndentByte c = false)) as [Hc|Hc].
  - by rewrite Hc.
  - apply not_false_is_true in Hc. rewrite Hc, IH.
    destruct (list_find _ (String.list_ascii_of_string line)) as [[i b]|];
      cbn [fmap option_fmap option_map prod_map fst snd]; unfold len;
      simpl; lia.
Qed.

Lemma specMinIndent_leastIndentation (lines : list string) :
  specMinIndent lines = leastIndentation lines.
Proof.
  unfold specMinIndent, leastIndentation, indents. f_equal.
  apply map_ext. intros line. apply leadingWhitespace_indentation.
Qed.

(** C5, as amended: [dedentMarkdown] splits the text into lines and
    takes the least indentation [m] of the non-blank lines ([0] when
    every line is blank), where the indentation of a line is the
    number of bytes before its first byte that is neither a space nor
    a tab.  It cuts the first [m] bytes off every line that has at
    least [m] bytes and leaves shorter lines as they are.  The result
    has as many lines as the input, and every non-blank line loses
    exactly [m] of its indentation, so the indentation of the
    non-blank lines relative to one another is kept. *)
Theorem dedentMarkdown_spec (src : string) :
  let lines := Split src LF in
  let m := leastIndentation lines in
  dedentMarkdown src
  = Join (map (λ line, if m <=? len line
                       then sliceFrom (Z.to_nat m) line else line) lines) NL
  ∧ length (Split (dedentMarkdown src) LF) = length lines
  ∧ Forall2
      (λ line out,
         out = (if m <=? len line then sliceFrom (Z.to_nat m) line else line)
         ∧ (if nonBlank line
            then indentation out = indentation line - m
            else True))
      lines (Split (dedentMarkdown src) LF).
Proof.
  intros lines m. unfold m, lines.
  rewrite <- specMinIndent_leastIndentation.
  destruct (dedentMarkdown_cut src) as (Hcut & Hlen & Hall).
  split; [done|]. split; [done|].
  eapply Forall2_impl; [exact Hall|].
  intros line out [Hout Hindent]. split; [done|].
  destruct (nonBlank line); [|done].
  by rewrite <- !leadingWhitespace_indentation.
Qed.

(** C5 as worded fails on a line that begins with white space other
    than a space or a tab: a form feed before the text is counted by
    the claim and not by the code, which returns the line as it is. *)
Lemma dedentMarkdown_form_feed :
  ¬ @stripsLeadingSpace (asciiRuntime noPackages) (String FF "x").
Proof. intros Hclaim. vm_compute in Hclaim. discriminate. Qed.

(** The indentation of two non-blank lines relative to one another is
    the same before and after. *)
Corollary dedentMarkdown_relative_indent (src : string) (i j : nat)
    (li lj oi oj : string) :
  Split src LF !! i = Some li → Split src LF !! j = Some lj →
  Split (dedentMarkdown src) LF !! i = Some oi →
  Split (dedentMarkdown src) LF !! j = Some oj →
  nonBlank li = true → nonBlank lj = true →
  leadingWhitespace oi - leadingWhitespace oj
  = leadingWhitespace li - leadingWhitespace lj.
Proof.
  rewrite Split_dedentMarkdown, !list_lookup_fmap.
  intros Hi Hj. rewrite Hi, Hj. intros [= <-] [= <-] Hbi Hbj.
  destruct (dedentLine_nonBlank (Split src LF) li) as (_ & _ & ->);
    [by eapply list_elem_of_lookup_2|done|].
  destruct (dedentLine_nonBlank (Split src LF) lj) as (_ & _ & ->);
    [by eapply list_elem_of_lookup_2|done|].
  lia.
Qed.

(** C9: [dedentMarkdown] is idempotent. *)
Theorem dedentMarkdown_idempotent (src : string) :
  dedentMarkdown (dedentMarkdown src) = dedentMarkdown src.
Proof.
  set (lines := Split src LF). set (m := specMinIndent lines).
  unfold dedentMarkdown at 1. rewrite foldl_minIndentStep.
  case_bool_decide as Hnone; [done|].
  assert (specMinIndent (Split (dedentMarkdown src) LF) = 0) as ->; [|done].
  pose proof (specMinIndent_nonneg (Split (dedentMarkdown src) LF)) as Hge.
  apply Z.le_antisymm; [|done].
  destruct (decide (indents lines = [])) as [Hblank|Hsome].
  { (* every line is blank: the text is returned as it is *)
    exfalso. apply Hnone.
    assert (dedentMarkdown src = src) as ->; [|done].
    unfold dedentMarkdown. rewrite foldl_minIndentStep. fold lines.
    by rewrite bool_decide_true. }
  (* a non-blank line of least indentation starts at column 0 afterwards *)
  pose proof (minimum_elem _ Hsome) as Hin.
  apply list_elem_of_fmap in Hin as (line & Hline & Hfilter).
  apply list_elem_of_filter in Hfilter as [Hnb Hin].
  destruct (dedentLine_nonBlank lines line Hin Hnb) as (_ & Hnb' & Hind).
  fold m in Hnb', Hind.
  assert (leadingWhitespace (dedentLine m line) = 0) as Hzero.
  { rewrite Hind. unfold m, specMinIndent. lia. }
  rewrite <- Hzero. apply specMinIndent_le; [|done].
  rewrite Split_dedentMarkdown. fold lines m.
  apply list_elem_of_fmap. by exists line.
Qed.

End Dedent.

(** ** [docMarkdown] on ASCII text *)

Section DocMarkdown.
Context `{GoRuntime}.
Import GoStrings StringFacts StringList.

Lemma rev_app_app (s acc : string) :
  String.rev_app s acc = String.rev_app s "" +:+ acc.
Proof.
  revert acc. induction s as [|c s IH]; intros acc; [done|].
  simpl. rewrite (IH (String c acc)), (IH (String c "")).
  by rewrite sapp_assoc.
Qed.

Lemma rev_cons (c : ascii) (s : string) :
  String.rev (String c s) = String.rev s +:+ String c "".
Proof. unfold String.rev. simpl. apply rev_app_app. Qed.

Lemma rev_snoc (c : ascii) (s : string) :
  String.rev (s +:+ String c "") = String c (String.rev s).
Proof.
  induction s as [|a s IH]; [done|].
  by rewrite sapp_cons, !rev_cons, IH.
Qed.

Lemma allASCII_app (s t : string) :
  allASCII (s +:+ t) = allASCII s && allASCII t.
Proof.
  induction s as [|c s IH]; [done|].
  rewrite sapp_cons. simpl. by rewrite IH, andb_assoc.
Qed.

Lemma allASCII_rev (s : string) : allASCII (String.rev s) = allASCII s.
Proof.
  induction s as [|c s IH]; [done|].
  rewrite rev_cons, allASCII_app, IH. simpl.
  by rewrite andb_true_r, andb_comm.
Qed.

(** The second loop of [TrimSpace] stops at the latest at a byte that
    is not a space. *)
Lemma trimSpaceStop_snoc (q : string) (c : ascii) :
  allASCII q = true → geRuneSelf c = false → asciiSpace c = false →
  ∃ r, trimSpaceStop (q +:+ String c "") = String c r ∧ allASCII r = true.
Proof.
  intros Hq Hc1 Hc2. induction q as [|a q IH].
  - exists "". simpl. by rewrite Hc1, Hc2.
  - simpl in Hq. apply andb_true_iff in Hq as [Ha Hq].
    apply negb_true_iff in Ha. rewrite sapp_cons. cbn [trimSpaceStop].
    rewrite Ha. destruct (asciiSpace a); [by apply IH|].
    rewrite rev_cons, rev_snoc, sapp_cons. eexists. split; [done|].
    rewrite allASCII_app, allASCII_rev, Hq. simpl. by rewrite Ha.
Qed.

(** From a byte that is not a space on, [TrimSpace] keeps that byte. *)
Lemma TrimSpace_head (c : ascii) (s : string) :
  allASCII s = true → geRuneSelf c = false → asciiSpace c = false →
  ∃ r, TrimSpace (String c s) = String c r ∧ allASCII r = true.
Proof.
  intros Hs Hc1 Hc2. cbn [TrimSpace]. rewrite Hc1, Hc2, rev_cons.
  apply trimSpaceStop_snoc; [by rewrite allASCII_rev|done..].
Qed.

(** Trimmed ASCII text is empty or begins with a byte that is not a
    space. *)
Lemma TrimSpace_ascii (text : string) :
  allASCII text = true →
  TrimSpace text = ""
  ∨ ∃ c r, TrimSpace text = String c r ∧ geRuneSelf c = false
           ∧ asciiSpace c = false ∧ allASCII r = true.
Proof.
  induction text as [|c text IH]; [by left|].
  cbn [allASCII]. intros [Hc Htext]%andb_true_iff. apply negb_true_iff in Hc.
  destruct (asciiSpace c) eqn:Hspace.
  - cbn [TrimSpace]. rewrite Hc, Hspace. by apply IH.
  - right. destruct (TrimSpace_head c text Htext Hc Hspace) as (r & Hr & Hascii).
    by exists c, r.
Qed.

Lemma allASCII_Split_head (s : string) :
  allASCII s = true →
  ∃ p ps, Split s LF = p :: ps ∧ allASCII p = true.
Proof.
  induction s as [|a s IH]; [by eexists _, _|].
  simpl. intros [Ha Hs]%andb_true_iff.
  destruct (Ascii.eqb a LF); [by eexists _, _|].
  destruct (IH Hs) as (p & ps & -> & Hp).
  eexists _, _. split; [done|]. simpl. by rewrite Ha, Hp.
Qed.

(** Text that begins with a byte that is not a space has a non-blank
    first line without indentation, and [dedentMarkdown] returns it as
    it is. *)
Lemma dedentMarkdown_trimmed (c : ascii) (r : string) :
  geRuneSelf c = false → asciiSpace c = false → allASCII r = true →
  dedentMarkdown (String c r) = String c r.
Proof.
  intros Hc1 Hc2 Hr. unfold dedentMarkdown.
  assert (Ascii.eqb c LF = false ∧ Ascii.eqb c SP = false
          ∧ Ascii.eqb c TAB = false) as (Hlf & Hsp & Htab).
  { unfold asciiSpace in Hc2. repeat apply orb_false_iff in Hc2 as [Hc2 ?].
    done. }
  destruct (allASCII_Split_head r Hr) as (p & ps & Hsplit & Hp).
  cbn [Split]. rewrite Hlf, Hsplit. cbn [foldl].
  destruct (TrimSpace_head c p Hp Hc1 Hc2) as (p' & Hp' & _).
  assert (minIndentStep (-1) (String c p) = 0) as ->.
  { unfold minIndentStep. rewrite Hp'. simpl. by rewrite Hsp, Htab. }
  rewrite foldl_minIndentStep_set by done.
  destruct (foldr_min_le 0 (indents ps)) as [Hle _].
  by destruct (foldr Z.min 0 (indents ps) <=? 0) eqn:Hcmp; [|lia].
Qed.

(** On ASCII text [docMarkdown] is [strings.TrimSpace]: the call of
    [dedentMarkdown] on the trimmed text changes nothing. *)
Lemma docMarkdown_ascii (text : string) :
  allASCII text = true → docMarkdown text = TrimSpace text.
Proof.
  intros Htext. unfold docMarkdown.
  destruct (TrimSpace_ascii text Htext) as [->|(c & r & -> & Hc1 & Hc2 & Hr)];
    [done|].
  cbn [String.eqb]. by apply dedentMarkdown_trimmed.
Qed.

End DocMarkdown.

(** ** [summaryText] *)

Section Summary.
Context `{GoRuntime}.

(** The example of section 8. *)
Lemma summaryText_example : summaryText "Does X. Does Y." = "Does X.".
Proof. vm_compute. reflexivity. Qed.

(** C4, at a text whose lines are indented alike: [docMarkdown] trims
    the text before it dedents it, so the first line has lost its
    indentation, nothing is cut off the other lines and their
    indentation ends up in the summary; dedenting the text first gives
    the summary of section 4.3. *)
Theorem summaryText_indented :
  summaryText indentedDoc = "Greet returns   a friendly message."
  ∧ specSummary indentedDoc = "Greet returns a friendly message."
  ∧ summaryText indentedDoc ≠ specSummary indentedDoc.
Proof.
  assert (summaryText indentedDoc = "Greet returns   a friendly message.")
    as Hcode by (vm_compute; reflexivity).
  assert (specSummary indentedDoc = "Greet returns a friendly message.")
    as Hspec by (vm_compute; reflexivity).
  rewrite Hcode, Hspec. by split; [|split].
Qed.

End Summary.

(** ** [buildTOC] *)

Section BuildTOC.
Import GoStrings StringFacts StringList.

Lemma foldl_buildTOCStep (entries : list tocEntry) (buf : string) :
  foldl buildTOCStep buf entries
  = buf +:+ foldr (λ e rest, tocLine e +:+ rest) "" entries.
Proof.
  revert buf. induction entries as [|e entries IH]; intros buf; simpl.
  - by rewrite sapp_nil_r.
  - rewrite IH. unfold buildTOCStep, tocLine.
    destruct (String.eqb (summary e) ""); simpl; by rewrite !sapp_assoc.
Qed.

(** The output of [buildTOC] for a non-empty list: the heading, a blank
    line, one line per entry in the order given, a blank line. *)
Lemma buildTOC_lines (e : tocEntry) (entries : list tocEntry) :
  buildTOC (e :: entries)
  = "## Packages" +:+ NL +:+ NL
    +:+ foldr (λ e rest, tocLine e +:+ rest) "" (e :: entries) +:+ NL.
Proof.
  unfold buildTOC. rewrite foldl_buildTOCStep. by rewrite !sapp_assoc.
Qed.

(** C6, at the entry of the subpackage of the test data: the bytes
    between the link and the summary are not an em dash between two
    spaces but the eight bytes of [tocSeparator] between two spaces, so
    the output is not the table of contents of section 4.4. *)
Theorem buildTOC_separator :
  buildTOC [subpkgEntry]
  = "## Packages" +:+ NL +:+ NL
    +:+ "- [subpkg](subpkg/README.md) " +:+ tocSeparator
    +:+ " Message exposes a sample constant." +:+ NL +:+ NL
  ∧ specTOC [subpkgEntry]
    = "## Packages" +:+ NL +:+ NL
      +:+ "- [subpkg](subpkg/README.md) " +:+ emDash
      +:+ " Message exposes a sample constant." +:+ NL +:+ NL
  ∧ buildTOC [subpkgEntry] ≠ specTOC [subpkgEntry].
Proof. by split; [|split]. Qed.

End BuildTOC.

(** ** [writePackageDocsToDir] *)

Section WriteDocs.
Context `{GoRuntime} `{GoSort} `{!SortSliceSpec}.

(** The entries are in ascending order of their titles when [buildTOC]
    gets them. *)
Lemma sortEntries_sorted (entries : list tocEntry) :
  Sorted (λ a b, String.le (title a) (title b)) (sortEntries entries)
  ∧ sortEntries entries ≡ₚ entries.
Proof.
  split; [apply (sort_Slice_Sorted _ title)|apply sort_Slice_Permutation].
Qed.

(** The loop collects one entry per subpackage, in the order of the
    documents: the title is the display title, the link is the relative
    directory joined with [README.md], the summary is trimmed. *)
Lemma writeDocsLoop_links (outDir : string) (docs : list treeDoc)
    (st st' : writeState) :
  writeDocsLoop outDir docs st = Ok st' →
  entries st'
  = entries st ++ (tocEntryOf <$> filter (λ d, isSubDir d = true) docs).
Proof.
  revert st. induction docs as [|d docs IH]; intros st.
  - simpl. intros [= <-]. by rewrite app_nil_r.
  - rewrite filter_cons. cbn [writeDocsLoop].
    destruct (os_MkdirAll (files st) _) as [fs1|]; [|done].
    case_decide as Hsub.
    + rewrite Hsub. cbn [negb].
      destruct (os_WriteFile fs1 _ _) as [fs2|]; [|done].
      intros Hloop%IH. cbn [entries] in Hloop. rewrite Hloop.
      by rewrite <- app_assoc.
    + apply not_true_is_false in Hsub. rewrite Hsub. cbn [negb].
      intros Hloop%IH. by cbn [entries] in Hloop.
Qed.

End WriteDocs.

(** The root file that directory output writes for the test data: the
    package view of the root, then the table of contents with the
    bytes of [tocSeparator]. *)
Lemma writePackageDocsToDir_example :
  ∃ fs, @writePackageDocsToDir (asciiRuntime noPackages) insertionSort
          "out" exampleDocs emptyFS
        = Ok fs
    ∧ fs_files fs !! "out/README.md"
      = Some ("# package example" +:+ NL +:+ NL
              +:+ "## Packages" +:+ NL +:+ NL
              +:+ "- [subpkg](subpkg/README.md) " +:+ tocSeparator
              +:+ " Message exposes a sample constant." +:+ NL +:+ NL).
Proof. eexists. split; [vm_compute; reflexivity|]. vm_compute. reflexivity. Qed.

(** ** [appendTOCAfterDoc] *)

Section AppendTOC.
Import GoStrings StringFacts StringList.

Lemma appendTOCAfterDoc_padding (doc toc : string) :
  doc ≠ "" → toc ≠ "" →
  appendTOCAfterDoc doc toc = (doc +:+ tocPadding doc) +:+ toc.
Proof.
  intros Hdoc Htoc. unfold appendTOCAfterDoc, tocPadding.
  destruct (len toc =? 0) eqn:Ht.
  { apply Z.eqb_eq, len_zero in Ht. done. }
  destruct (len doc =? 0) eqn:Hd.
  { apply Z.eqb_eq, len_zero in Hd. done. }
  destruct (bytes.HasSuffix doc (NL +:+ NL)); simpl.
  - by rewrite sapp_nil_r.
  - destruct (bytes.HasSuffix doc NL); [done|]. by rewrite <- !sapp_assoc.
Qed.

(** The padded root content ends with a blank line. *)
Lemma tocPadding_blank_line (doc : string) :
  bytes.HasSuffix (doc +:+ tocPadding doc) (NL +:+ NL) = true.
Proof.
  unfold tocPadding.
  destruct (bytes.HasSuffix doc (NL +:+ NL)) eqn:H2.
  - by rewrite sapp_nil_r.
  - destruct (bytes.HasSuffix doc NL) eqn:H1.
    + apply HasSuffix_true in H1 as [p ->]. apply HasSuffix_true.
      exists p. by rewrite sapp_assoc.
    + apply HasSuffix_true. by exists doc.
Qed.

(** The padding adds no second blank line. *)
Lemma tocPadding_no_more (doc : string) :
  bytes.HasSuffix (doc +:+ tocPadding doc) (NL +:+ NL +:+ NL)
  = bytes.HasSuffix doc (NL +:+ NL +:+ NL).
Proof.
  unfold tocPadding.
  destruct (bytes.HasSuffix doc (NL +:+ NL)) eqn:H2.
  { by rewrite sapp_nil_r. }
  assert (bytes.HasSuffix doc (NL +:+ NL +:+ NL) = false) as ->.
  { apply HasSuffix_false. intros [q ->].
    apply HasSuffix_false in H2. apply H2. exists (q +:+ NL).
    by rewrite sapp_assoc. }
  apply HasSuffix_false. intros [q Hq].
  destruct (bytes.HasSuffix doc NL) eqn:H1.
  - apply HasSuffix_false in H2. apply H2. exists q.
    apply (sapp_inj_r _ _ NL). by rewrite Hq, !sapp_assoc.
  - apply HasSuffix_false in H1. apply H1. exists q.
    apply (sapp_inj_r _ _ (NL +:+ NL)). by rewrite Hq, !sapp_assoc.
Qed.

(** C7, as amended: without a table of contents the root content is
    returned as it is, without root content the table of contents;
    otherwise the result is the root content, the least padding of zero,
    one or two newlines that makes it end with a blank line, and the
    table of contents.  Newlines are only added: the padded content
    ends with more than one blank line exactly when the root content
    already did. *)
Theorem appendTOCAfterDoc_spec (doc toc : string) :
  if String.eqb toc "" then appendTOCAfterDoc doc toc = doc
  else if String.eqb doc "" then appendTOCAfterDoc doc toc = toc
  else
    appendTOCAfterDoc doc toc = (doc +:+ tocPadding doc) +:+ toc
    ∧ bytes.HasSuffix (doc +:+ tocPadding doc) (NL +:+ NL) = true
    ∧ bytes.HasSuffix (doc +:+ tocPadding doc) (NL +:+ NL +:+ NL)
      = bytes.HasSuffix doc (NL +:+ NL +:+ NL)
    ∧ (tocPadding doc = ""
       ∨ tocPadding doc = NL ∧ bytes.HasSuffix doc (NL +:+ NL) = false
       ∨ tocPadding doc = NL +:+ NL ∧ bytes.HasSuffix doc NL = false).
Proof.
  destruct (String.eqb toc "") eqn:Htoc.
  { apply eqb_true in Htoc as ->. done. }
  destruct (String.eqb doc "") eqn:Hdoc.
  { apply eqb_true in Hdoc as ->. unfold appendTOCAfterDoc.
    destruct (len toc =? 0) eqn:Ht; [|done].
    by apply Z.eqb_eq, len_zero in Ht as ->. }
  apply eqb_false in Htoc, Hdoc.
  split; [by apply appendTOCAfterDoc_padding|].
  split; [apply tocPadding_blank_line|].
  split; [apply tocPadding_no_more|].
  unfold tocPadding. destruct (bytes.HasSuffix doc (NL +:+ NL)); [auto|].
  destruct (bytes.HasSuffix doc NL); auto.
Qed.

(** C7 as worded fails on root content that ends with two blank lines
    (as the package view does after a section of functions): nothing is
    removed, so both blank lines precede the table of contents. *)
Lemma appendTOCAfterDoc_two_blank_lines :
  ¬ appendsAfterOneBlankLine ("x" +:+ NL +:+ NL +:+ NL) "## Packages".
Proof.
  intros (adjusted & Heq & _ & Hthree).
  change (appendTOCAfterDoc ("x" +:+ NL +:+ NL +:+ NL) "## Packages")
    with (("x" +:+ NL +:+ NL +:+ NL) +:+ "## Packages") in Heq.
  apply sapp_inj_r in Heq. by subst adjusted.
Qed.

End AppendTOC.

(** * Further properties *)

(** ** [normalizeLegacyArgs] *)

Section NormalizeLegacyArgs.
Import GoStrings StringFacts StringList.

Lemma HasPrefix_dash (arg : string) :
  HasPrefix arg "-" = true → arg = "-" +:+ sliceFrom 1 arg.
Proof.
  destruct arg as [|c arg]; [done|]. unfold HasPrefix. cbn [String.prefix].
  destruct (ascii_dec "-" c) as [<-|]; [|done]. done.
Qed.

Lemma HasPrefix_nil (s : string) : HasPrefix s "" = true.
Proof. by destruct s. Qed.

Lemma HasPrefix_cons (c : ascii) (s p : string) :
  HasPrefix (String c s) (String c p) = HasPrefix s p.
Proof.
  unfold HasPrefix. cbn [String.prefix]. by destruct (ascii_dec c c).
Qed.

Lemma slice_sliceFrom (lo hi : nat) (s : string) :
  slice lo hi s +:+ sliceFrom hi s = sliceFrom lo s ∨ (hi < lo)%nat.
Proof.
  destruct (decide (hi < lo)%nat) as [|Hle]; [by right|]. left.
  unfold slice. revert hi s Hle. induction lo as [|lo IH]; intros hi s Hle.
  - rewrite Nat.sub_0_r. apply sliceTo_sliceFrom.
  - destruct hi as [|hi]; [lia|]. destruct s as [|c s].
    + cbn [sliceFrom]. by destruct (S hi - S lo)%nat.
    + cbn [sliceFrom]. apply IH. lia.
Qed.

(** A converted argument is the argument, or the argument with one
    more dash in front. *)
Lemma convertLegacyArg_shape (arg : string) :
  convertLegacyArg arg = arg
  ∨ convertLegacyArg arg = "-" +:+ arg
    ∧ HasPrefix arg "-" = true ∧ HasPrefix arg "--" = false
    ∧ (2 < len arg).
Proof.
  unfold convertLegacyArg.
  destruct (HasPrefix arg "-") eqn:H1; cbn [negb orb]; [|by left].
  destruct (HasPrefix arg "--") eqn:H2; cbn [orb]; [by left|].
  destruct (String.eqb arg "-") eqn:H3; [by left|].
  destruct (len arg =? 2) eqn:H4; [by left|].
  assert (2 < len arg) as Hlen.
  { apply HasPrefix_dash in H1. apply Z.eqb_neq in H4.
    apply eqb_false in H3. unfold len in *.
    destruct arg as [|a [|b [|c arg]]]; simpl in *; try lia; done. }
  pose proof (HasPrefix_dash _ H1) as Harg.
  destruct (Index arg "=" >? 0) eqn:Hidx; cbn [andb].
  - case_bool_decide as Hname.
    + right. split; [|done].
      destruct (slice_sliceFrom 1 (Z.to_nat (Index arg "=")) arg) as [Hcut|Hlt];
        [|lia].
      rewrite Hcut.
      by replace ("-" +:+ arg) with ("-" +:+ "-" +:+ sliceFrom 1 arg)
        by (by rewrite <- Harg).
    + case_bool_decide; [|by left]. right. split; [|done].
      by replace ("-" +:+ arg) with ("-" +:+ "-" +:+ sliceFrom 1 arg)
        by (by rewrite <- Harg).
  - case_bool_decide; [|by left]. right. split; [|done].
    by replace ("-" +:+ arg) with ("-" +:+ "-" +:+ sliceFrom 1 arg)
      by (by rewrite <- Harg).
Qed.

Lemma convertLegacyArg_fixed (arg : string) :
  convertLegacyArg (convertLegacyArg arg) = convertLegacyArg arg.
Proof.
  destruct (convertLegacyArg_shape arg) as [Hsame|(-> & H1 & _)];
    [by rewrite !Hsame|].
  apply HasPrefix_dash in H1. rewrite H1.
  unfold convertLegacyArg. rewrite !sapp_cons, !sapp_nil_l.
  by rewrite !HasPrefix_cons, !HasPrefix_nil.
Qed.

Lemma convertLegacyArg_not_dashes (arg : string) :
  arg ≠ "--" → convertLegacyArg arg ≠ "--".
Proof.
  intros Harg.
  destruct (convertLegacyArg_shape arg) as [Hsame|(-> & _ & _ & Hlen)];
    [by rewrite Hsame|].
  intros Heq. apply (f_equal len) in Heq. rewrite len_app in Heq.
  unfold len in Heq at 1 3. simpl in Heq. lia.
Qed.

(** The loop appends the converted arguments; [modified] stays false
    only if nothing was converted. *)
Lemma normalizeLegacyLoop_converted (args : list string) (modified : bool)
    (converted : list string) :
  (normalizeLegacyLoop args modified converted).2
  = converted ++ convertLegacyArgs args
  ∧ ((normalizeLegacyLoop args modified converted).1 = false →
     convertLegacyArgs args = args).
Proof.
  revert modified converted.
  induction args as [|arg rest IH]; intros modified converted.
  { simpl. by rewrite app_nil_r. }
  cbn [normalizeLegacyLoop convertLegacyArgs].
  destruct (String.eqb arg "--") eqn:Hdd.
  { cbn [fst snd]. by rewrite <- app_assoc. }
  unfold convertLegacyArg. cbv zeta.
  destruct (negb (HasPrefix arg "-") || HasPrefix arg "--"
            || String.eqb arg "-") eqn:Hkeep.
  { destruct (IH modified (converted ++ [arg])) as [-> Hm].
    rewrite <- app_assoc. split; [done|]. intros ?. f_equal. auto. }
  destruct (len arg =? 2).
  { destruct (IH modified (converted ++ [arg])) as [-> Hm].
    rewrite <- app_assoc. split; [done|]. intros ?. f_equal. auto. }
  assert (∀ e, (normalizeLegacyLoop rest true (converted ++ [e])).1 = true)
    as Htrue.
  { intros e. generalize (converted ++ [e]). clear.
    induction rest as [|a rest IH]; intros conv; [done|].
    cbn [normalizeLegacyLoop].
    destruct (String.eqb a "--"); [by case_bool_decide|].
    repeat (first [done | apply IH
                  | match goal with
                    | |- context [if ?b then _ else _] => destruct b
                    end]). }
  destruct ((Index arg "=" >? 0) && _) eqn:Hidx.
  { destruct (IH true (converted ++ ["--" +:+ slice 1 (Z.to_nat (Index arg "=")) arg
       +:+ sliceFrom (Z.to_nat (Index arg "=")) arg])) as [-> _].
    rewrite <- app_assoc. split; [done|]. by rewrite Htrue. }
  destruct (bool_decide (sliceFrom 1 arg ∈ legacyLongFlagSet)).
  { destruct (IH true (converted ++ ["--" +:+ sliceFrom 1 arg])) as [-> _].
    rewrite <- app_assoc. split; [done|]. by rewrite Htrue. }
  destruct (IH modified (converted ++ [arg])) as [-> Hm].
  rewrite <- app_assoc. split; [done|]. intros ?. f_equal. auto.
Qed.

Lemma length_convertLegacyArgs (args : list string) :
  length (convertLegacyArgs args) = length args.
Proof.
  induction args as [|arg rest IH]; [done|]. cbn [convertLegacyArgs].
  destruct (String.eqb arg "--"); [done|]. simpl. by rewrite IH.
Qed.

(** [normalizeLegacyArgs] converts argument by argument up to the first
    ["--"]. *)
Lemma normalizeLegacyArgs_convert (args : list string) :
  normalizeLegacyArgs args = convertLegacyArgs args.
Proof.
  destruct args as [|arg rest]; [done|]. unfold normalizeLegacyArgs.
  destruct (normalizeLegacyLoop_converted (arg :: rest) false [])
    as [Hconv Hsame].
  destruct (normalizeLegacyLoop (arg :: rest) false []) as [m conv].
  cbn [fst snd] in *. subst conv. rewrite app_nil_l.
  destruct m; cbn [negb andb]; [done|].
  destruct (_ =? _)%nat; [|done]. symmetry. by apply Hsame.
Qed.

(** The result has as many arguments as the input. *)
Theorem normalizeLegacyArgs_length (args : list string) :
  length (normalizeLegacyArgs args) = length args.
Proof. rewrite normalizeLegacyArgs_convert. apply length_convertLegacyArgs. Qed.

(** X1: Every argument is kept or gets one more dash in front; only an
    argument of more than two bytes that begins with one dash, not two,
    is changed. *)
Theorem normalizeLegacyArgs_shape (args : list string) :
  Forall2 (λ arg out, out = arg
                      ∨ out = "-" +:+ arg ∧ HasPrefix arg "-" = true
                        ∧ HasPrefix arg "--" = false ∧ 2 < len arg)
          args (normalizeLegacyArgs args).
Proof.
  rewrite normalizeLegacyArgs_convert.
  induction args as [|arg rest IH]; [constructor|].
  cbn [convertLegacyArgs]. destruct (String.eqb arg "--").
  - apply Forall2_same_length_lookup. split; [done|].
    intros i x y Hx Hy. left. congruence.
  - constructor; [apply convertLegacyArg_shape|done].
Qed.

(** X2: Normalising twice is normalising once. *)
Theorem normalizeLegacyArgs_idempotent (args : list string) :
  normalizeLegacyArgs (normalizeLegacyArgs args) = normalizeLegacyArgs args.
Proof.
  rewrite !normalizeLegacyArgs_convert.
  induction args as [|arg rest IH]; [done|].
  cbn [convertLegacyArgs]. destruct (String.eqb arg "--") eqn:Hdd.
  - cbn [convertLegacyArgs]. by rewrite Hdd.
  - cbn [convertLegacyArgs]. apply eqb_false in Hdd.
    apply convertLegacyArg_not_dashes, eqb_false in Hdd. rewrite Hdd.
    by rewrite convertLegacyArg_fixed, IH.
Qed.

(** X3: Nothing from the first ["--"] on is touched. *)
Theorem normalizeLegacyArgs_terminator (flags rest : list string) :
  "--" ∉ flags →
  normalizeLegacyArgs (flags ++ "--" :: rest)
  = normalizeLegacyArgs flags ++ "--" :: rest.
Proof.
  rewrite !normalizeLegacyArgs_convert.
  induction flags as [|arg flags IH]; intros Hnot; [done|].
  apply not_elem_of_cons in Hnot as [Harg Hnot].
  cbn [app convertLegacyArgs].
  assert (String.eqb arg "--" = false) as -> by (apply eqb_false; congruence).
  by rewrite IH.
Qed.

Lemma legacy_name_facts (name : string) :
  name ∈ legacyLongFlagSet →
  ContainsByte name "=" = false ∧ HasPrefix name "-" = false
  ∧ (2 < String.length name)%nat.
Proof.
  unfold legacyLongFlagSet. rewrite elem_of_list_to_set.
  rewrite !elem_of_cons, elem_of_nil.
  intros [->|[->|[->|[->|[->|[->|[->|[->|[->|[]]]]]]]]]];
    (split; [|split]); vm_compute; (reflexivity || lia).
Qed.

Lemma Index_byte_none (s : string) (c : ascii) :
  ContainsByte s c = false → Index s (String c "") = -1.
Proof.
  induction s as [|a s IH]; [done|]. cbn [ContainsByte Index].
  unfold HasPrefix. cbn [String.prefix].
  destruct (ascii_dec c a) as [->|Hne].
  - by rewrite Ascii.eqb_refl.
  - destruct (Ascii.eqb a c) eqn:Hac; [by apply Ascii.eqb_eq in Hac|].
    intros Hs. by rewrite (IH Hs).
Qed.

Lemma Index_byte_first (p rest : string) (c : ascii) :
  ContainsByte p c = false →
  Index (p +:+ String c rest) (String c "") = len p.
Proof.
  induction p as [|a p IH].
  - intros _. rewrite sapp_nil_l. cbn [Index].
    by rewrite HasPrefix_cons, HasPrefix_nil.
  - cbn [ContainsByte]. destruct (Ascii.eqb a c) eqn:Hac; [done|].
    intros Hp. rewrite sapp_cons. cbn [Index]. unfold HasPrefix at 1.
    cbn [String.prefix].
    destruct (ascii_dec c a) as [->|_]; [by rewrite Ascii.eqb_refl in Hac|].
    rewrite (IH Hp). pose proof (len_nonneg p). unfold len in *.
    destruct (Z.of_nat (String.length p) <? 0) eqn:Hlt; [lia|].
    cbn [String.length]. lia.
Qed.

Lemma sliceTo_app_length (p t : string) :
  sliceTo (String.length p) (p +:+ t) = p.
Proof. induction p as [|c p IH]; [by destruct t|]. rewrite sapp_cons. simpl. by rewrite IH. Qed.

(** X4: A legacy long flag with one dash gets its second dash, with and
    without a value. *)
Theorem normalizeLegacyArgs_legacy (name value : string) :
  name ∈ legacyLongFlagSet →
  normalizeLegacyArgs ["-" +:+ name] = ["--" +:+ name]
  ∧ normalizeLegacyArgs ["-" +:+ name +:+ "=" +:+ value]
    = ["--" +:+ name +:+ "=" +:+ value].
Proof.
  intros Hname. destruct (legacy_name_facts _ Hname) as (Heq & Hdash & Hlen).
  rewrite !normalizeLegacyArgs_convert. cbn [convertLegacyArgs].
  rewrite !sapp_cons, !sapp_nil_l.
  assert (∀ rest, String.eqb (String "-" (name +:+ rest)) "--" = false)
    as Hdd.
  { intros rest. apply eqb_false. intros Hx. apply (f_equal String.length) in Hx.
    cbn [String.length] in Hx. rewrite slength_app in Hx. lia. }
  assert (∀ rest, convertLegacyArg (String "-" (name +:+ rest))
                  = if (Index (String "-" (name +:+ rest)) "=" >? 0)
                       && bool_decide
                            (slice 1 (Z.to_nat (Index (String "-" (name +:+ rest)) "="))
                               (String "-" (name +:+ rest)) ∈ legacyLongFlagSet)
                    then "--" +:+ slice 1 (Z.to_nat (Index (String "-" (name +:+ rest)) "="))
                               (String "-" (name +:+ rest))
                         +:+ sliceFrom (Z.to_nat (Index (String "-" (name +:+ rest)) "="))
                               (String "-" (name +:+ rest))
                    else if bool_decide (name +:+ rest ∈ legacyLongFlagSet)
                         then "--" +:+ name +:+ rest
                         else String "-" (name +:+ rest)) as Hconv.
  { intros rest. unfold convertLegacyArg.
    change "-" with (String "-" "") at 1. rewrite HasPrefix_cons, HasPrefix_nil.
    change "--" with (String "-" (String "-" "")) at 1. rewrite HasPrefix_cons.
    assert (HasPrefix (name +:+ rest) "-" = false) as ->.
    { destruct name as [|c name]; [simpl in Hlen; lia|].
      rewrite sapp_cons. unfold HasPrefix in *. cbn [String.prefix] in *.
      destruct (ascii_dec "-" c); [by destruct name|done]. }
    assert (String.eqb (String "-" (name +:+ rest)) "-" = false) as ->.
    { apply eqb_false. intros Hx. apply (f_equal String.length) in Hx.
      cbn [String.length] in Hx. rewrite slength_app in Hx. lia. }
    cbn [negb orb].
    assert ((len (String "-" (name +:+ rest)) =? 2) = false) as ->.
    { apply Z.eqb_neq. unfold len. cbn [String.length].
      rewrite slength_app. lia. }
    done. }
  split.
  - pose proof (Hdd "") as Hdd0. pose proof (Hconv "") as Hconv0.
    rewrite !sapp_nil_r in Hdd0, Hconv0. rewrite Hdd0, Hconv0.
    assert (Index (String "-" name) "=" = -1) as ->.
    { apply (Index_byte_none (String "-" name)). cbn [ContainsByte].
      by rewrite Heq. }
    cbn [Z.gtb Z.compare andb]. by rewrite bool_decide_true.
  - rewrite Hdd, Hconv.
    assert (Index (String "-" (name +:+ String "=" value)) "="
            = len (String "-" name)) as ->.
    { apply (Index_byte_first (String "-" name) value "=").
      cbn [ContainsByte]. by rewrite Heq. }
    assert ((len (String "-" name) >? 0) = true) as ->.
    { apply Z.gtb_lt. unfold len. cbn [String.length]. lia. }
    replace (Z.to_nat (len (String "-" name))) with (S (String.length name))
      by (unfold len; cbn [String.length]; lia).
    unfold slice. cbn [sliceFrom]. rewrite Nat.sub_succ, Nat.sub_0_r.
    rewrite sliceTo_app_length, sliceFrom_app_length.
    rewrite bool_decide_true by done. done.
Qed.

End NormalizeLegacyArgs.

Lemma normalizeLegacyArgs_terminator_witness :
  normalizeLegacyArgs (["-all"; "pkg"] ++ "--" :: ["-all"])
  = normalizeLegacyArgs ["-all"; "pkg"] ++ "--" :: ["-all"].
Proof.
  apply (normalizeLegacyArgs_terminator ["-all"; "pkg"] ["-all"]).
  rewrite !not_elem_of_cons. repeat split; (discriminate || apply not_elem_of_nil).
Defined.

Lemma normalizeLegacyArgs_legacy_witness :
  normalizeLegacyArgs ["-" +:+ "output"] = ["--" +:+ "output"]
  ∧ normalizeLegacyArgs ["-" +:+ "output" +:+ "=" +:+ "README.md"]
    = ["--" +:+ "output" +:+ "=" +:+ "README.md"].
Proof.
  apply (normalizeLegacyArgs_legacy "output" "README.md").
  vm_compute. reflexivity.
Defined.
(** ** [matchStdSuffix] and [resolvePackage] *)

Section StdSearch.
Context `{GoRuntime}.
Import GoStrings StringFacts StringList.

Lemma ltb_le (a b : string) : String.ltb a b = true → String.le a b.
Proof.
  unfold String.le, String.ltb, String.leb.
  by destruct (String.compare a b).
Qed.

Lemma not_ltb_le (a b : string) : String.ltb a b = false → String.le b a.
Proof.
  unfold String.le, String.ltb, String.leb.
  rewrite (String.compare_antisym a b). by destruct (String.compare b a).
Qed.

Lemma stdMatch_nonempty (arg path : string) :
  arg ≠ "" → stdMatch arg path = true → path ≠ "".
Proof.
  intros Harg. unfold stdMatch, strings_HasSuffix.
  intros [Heq|Hsuf]%orb_true_iff.
  - apply eqb_true in Heq. congruence.
  - apply HasSuffix_true in Hsuf as [p ->]. by destruct p.
Qed.

Lemma matchStdSuffixStep_cases (arg best path : string) :
  matchStdSuffixStep arg best path
  = if stdMatch arg path
    then if String.eqb best "" then path
         else if String.ltb path best then path else best
    else best.
Proof.
  unfold matchStdSuffixStep, stdMatch.
  destruct (_ || _); [|done]. by destruct (String.eqb best "").
Qed.

(** The loop of [matchStdSuffix] keeps the least matching path. *)
Lemma foldl_matchStdSuffixStep (arg : string) (l : list string) (acc : string) :
  arg ≠ "" → acc = "" ∨ stdMatch arg acc = true →
  let r := foldl (matchStdSuffixStep arg) acc l in
  (acc ≠ "" → r ≠ "" ∧ String.le r acc)
  ∧ (r = "" → Forall (λ p, stdMatch arg p = false) l)
  ∧ (r ≠ "" → (r = acc ∨ r ∈ l) ∧ stdMatch arg r = true
              ∧ Forall (λ p, stdMatch arg p = true → String.le r p) l).
Proof.
  intros Harg. revert acc. induction l as [|p l IH]; intros acc Hacc r.
  { subst r. cbn [foldl]. split; [done|]. split; [done|].
    intros Hne. destruct Hacc as [->|Hm]; [done|]. by repeat split; [left|..]. }
  subst r. cbn [foldl]. rewrite matchStdSuffixStep_cases.
  destruct (stdMatch arg p) eqn:Hp.
  - pose proof (stdMatch_nonempty _ _ Harg Hp) as Hpne.
    destruct (String.eqb acc "") eqn:Hempty.
    + apply eqb_true in Hempty as ->.
      destruct (IH p (or_intror Hp)) as (HA & HB & HC).
      destruct (HA Hpne) as [Hr Hle]. split; [done|]. split; [done|].
      intros _. destruct (HC Hr) as ([->|Hin] & Hm & Hall).
      * split; [right; left|]. split; [done|]. by constructor.
      * split; [right; by right|]. split; [done|]. by constructor.
    + apply eqb_false in Hempty.
      destruct Hacc as [->|Hm]; [done|].
      destruct (String.ltb p acc) eqn:Hlt.
      * destruct (IH p (or_intror Hp)) as (HA & HB & HC).
        destruct (HA Hpne) as [Hr Hle].
        assert (String.le (foldl (matchStdSuffixStep arg) p l) acc) as Hacc'
          by (etrans; [exact Hle|by apply ltb_le]).
        split; [done|]. split; [done|]. intros _.
        destruct (HC Hr) as ([->|Hin] & Hm' & Hall).
        -- split; [right; left|]. split; [done|]. by constructor.
        -- split; [right; by right|]. split; [done|]. by constructor.
      * destruct (IH acc (or_intror Hm)) as (HA & HB & HC).
        destruct (HA Hempty) as [Hr Hle]. split; [done|]. split; [done|].
        intros _. destruct (HC Hr) as (Hin & Hm' & Hall).
        split; [destruct Hin; [by left|right; by right]|]. split; [done|].
        constructor; [|done]. intros _. etrans; [exact Hle|].
        by apply not_ltb_le.
  - destruct (IH acc Hacc) as (HA & HB & HC). split; [done|].
    split.
    + intros Hr. constructor; [done|by apply HB].
    + intros Hr. destruct (HC Hr) as (Hin & Hm & Hall).
      split; [destruct Hin; [by left|right; by right]|]. split; [done|].
      constructor; [|done]. by rewrite Hp.
Qed.

(** X5: A search for a non-empty name over a cache that loaded without an
    error finds the least path that is the name or ends in a slash
    and the name, and the empty string exactly when there is none. *)
Theorem matchStdSuffix_least (arg : string) (c : stdCache) :
  arg ≠ "" → stdErr (stdOnce_Do c) = None →
  let best := (matchStdSuffix arg c).1 in
  let paths := stdPackages (matchStdSuffix arg c).2 in
  if String.eqb best ""
  then Forall (λ p, stdMatch arg p = false) paths
  else best ∈ paths ∧ stdMatch arg best = true
       ∧ Forall (λ p, stdMatch arg p = true → String.le best p) paths.
Proof.
  intros Harg Herr. unfold matchStdSuffix.
  assert (String.eqb arg "" = false) as -> by by apply eqb_false.
  rewrite Herr. cbn [fst snd].
  destruct (foldl_matchStdSuffixStep arg (stdPackages (stdOnce_Do c)) ""
              Harg (or_introl eq_refl)) as (_ & HB & HC).
  destruct (String.eqb _ "") eqn:Hbest.
  - apply eqb_true in Hbest. by apply HB.
  - apply eqb_false in Hbest. destruct (HC Hbest) as ([Hin|Hin] & Hm & Hall);
      [done|]. done.
Qed.

Lemma matchStdSuffix_cache (arg : string) (c : stdCache) :
  arg ≠ "" → (matchStdSuffix arg c).2 = stdOnce_Do c.
Proof.
  intros Harg. unfold matchStdSuffix.
  assert (String.eqb arg "" = false) as -> by by apply eqb_false.
  cbv zeta. by destruct (stdErr (stdOnce_Do c)).
Qed.

(** X6: The first search for a non-empty name loads the standard
    packages, once: it leaves the sorted import paths of what
    [packages.Load] returned for [std] and [cmd/...] in the cache, or
    the error of the load.  Later searches leave the cache as it is,
    and after a failed load they all return the empty string. *)
Theorem matchStdSuffix_once (first later : string) (c : stdCache) :
  first ≠ "" →
  let c1 := (matchStdSuffix first c).2 in
  stdOnce c1 = true
  ∧ (if stdOnce c then c1 = c
     else match packages_Load ["std"; "cmd/..."] with
          | Ok pkgs =>
              stdPackages c1
              = sort_Strings (stdPackages c ++ map PkgPath pkgs)
              ∧ stdErr c1 = stdErr c
          | Err err => stdPackages c1 = stdPackages c ∧ stdErr c1 = Some err
          end)
  ∧ (matchStdSuffix later c1).2 = c1
  ∧ match stdErr c1 with
    | Some _ => (matchStdSuffix later c1).1 = ""
    | None => True
    end.
Proof.
  intros Hfirst. cbv zeta. rewrite (matchStdSuffix_cache _ _ Hfirst).
  assert (stdOnce (stdOnce_Do c) = true) as Honce.
  { unfold stdOnce_Do. by destruct (stdOnce c) eqn:Hc. }
  assert (stdOnce_Do (stdOnce_Do c) = stdOnce_Do c) as Hdo.
  { unfold stdOnce_Do at 1. by rewrite Honce. }
  split; [done|]. split.
  { unfold stdOnce_Do, loadStdPackages.
    destruct (stdOnce c); [done|].
    by destruct (packages_Load ["std"; "cmd/..."]). }
  unfold matchStdSuffix.
  destruct (String.eqb later ""); cbn [fst snd].
  { split; [done|]. by destruct (stdErr (stdOnce_Do c)). }
  cbv zeta. rewrite Hdo. by destruct (stdErr (stdOnce_Do c)).
Qed.

(** When the expression loads as it is, that package is the result and
    the standard packages are not loaded. *)
Theorem resolvePackage_verbatim (expr : string) (c : stdCache) (p : Package) :
  loadPackage (if String.eqb expr "" then "." else expr) = Ok p →
  resolvePackage expr c = (Ok p, c).
Proof.
  intros Hload. unfold resolvePackage.
  destruct (String.eqb expr "") eqn:Hexpr; cbn [resolvePackageTry].
  - cbn [String.eqb]. by rewrite Hload.
  - rewrite Hexpr. by rewrite Hload.
Qed.

(** When the expression does not load and the search finds a path, the
    result is the outcome of loading that path. *)
Theorem resolvePackage_suffix (expr : string) (c : stdCache) (e : error) :
  loadPackage (if String.eqb expr "" then "." else expr) = Err e →
  (matchStdSuffix expr c).1 ≠ "" →
  resolvePackage expr c
  = (loadPackage (matchStdSuffix expr c).1, (matchStdSuffix expr c).2).
Proof.
  intros Hload Hstd. unfold resolvePackage.
  assert (resolvePackageTry (if String.eqb expr "" then ["."] else [expr])
          = None) as ->.
  { destruct (String.eqb expr "") eqn:Hexpr; cbn [resolvePackageTry].
    - cbn [String.eqb]. by rewrite Hload.
    - rewrite Hexpr. by rewrite Hload. }
  destruct (matchStdSuffix expr c) as [m c']. cbn [fst snd] in *.
  apply eqb_false in Hstd. by rewrite Hstd.
Qed.

End StdSearch.

Lemma matchStdSuffix_least_witness :
  "html/template" ∈ ["go/doc"; "html/template"; "text/template"]
  ∧ stdMatch "template" "html/template" = true
  ∧ Forall (λ p, stdMatch "template" p = true → String.le "html/template" p)
      ["go/doc"; "html/template"; "text/template"].
Proof.
  apply (@matchStdSuffix_least (asciiRuntime stdOnlyLoad) "template"
           stdCache_init); [discriminate|reflexivity].
Defined.

Lemma matchStdSuffix_once_witness :
  let c1 :=
    (@matchStdSuffix (asciiRuntime stdOnlyLoad) "doc" stdCache_init).2 in
  stdOnce c1 = true
  ∧ (stdPackages c1 = ["go/doc"; "html/template"; "text/template"]
     ∧ stdErr c1 = None)
  ∧ (@matchStdSuffix (asciiRuntime stdOnlyLoad) "template" c1).2 = c1
  ∧ match stdErr c1 with
    | Some _ =>
        (@matchStdSuffix (asciiRuntime stdOnlyLoad) "template" c1).1 = ""
    | None => True
    end.
Proof.
  apply (@matchStdSuffix_once (asciiRuntime stdOnlyLoad) "doc" "template"
           stdCache_init). discriminate.
Defined.

Lemma resolvePackage_verbatim_witness :
  @resolvePackage (asciiRuntime stdOnlyLoad) "go/doc" stdCache_init
  = (Ok {| PkgPath := "go/doc"; Errors := [] |}, stdCache_init).
Proof.
  apply (@resolvePackage_verbatim (asciiRuntime stdOnlyLoad) "go/doc").
  reflexivity.
Defined.

Lemma resolvePackage_suffix_witness :
  @resolvePackage (asciiRuntime stdOnlyLoad) "doc" stdCache_init
  = (@loadPackage (asciiRuntime stdOnlyLoad)
       (@matchStdSuffix (asciiRuntime stdOnlyLoad) "doc" stdCache_init).1,
     (@matchStdSuffix (asciiRuntime stdOnlyLoad) "doc" stdCache_init).2).
Proof.
  apply (@resolvePackage_suffix (asciiRuntime stdOnlyLoad) "doc" stdCache_init
           "package not found"); [reflexivity|].
  vm_compute. discriminate.
Defined.
(** ** [buildPatterns] *)

Section BuildPatterns.
Context `{GoRuntime}.
Import GoStrings StringFacts StringList.

Lemma HasPrefix_app (s t : string) : HasPrefix (s +:+ t) s = true.
Proof.
  unfold HasPrefix. induction s as [|c s IH]; [by destruct t|].
  rewrite sapp_cons. cbn [String.prefix]. by destruct (ascii_dec c c).
Qed.

(** X7: The first pattern is the root, trimmed, ["."] if empty, with
    slashes.  A root that holds ["..."] is the only pattern; otherwise
    a second pattern follows, which is the root extended by ["/..."]
    (by ["..."] alone after a final slash): it never holds a doubled
    slash before the dots. *)
Theorem buildPatterns_recursive (root : string) :
  let r := filepath_ToSlash
             (if String.eqb (TrimSpace root) "" then "."
              else TrimSpace root) in
  if strings_Contains r "..." then buildPatterns root = [r]
  else ∃ recursive,
      buildPatterns root = [r; recursive]
      ∧ HasPrefix recursive r = true
      ∧ strings_HasSuffix recursive "/..." = true
      ∧ recursive = if strings_HasSuffix r "/" then r +:+ "..."
                    else r +:+ "/...".
Proof.
  intros r. unfold buildPatterns. fold r.
  destruct (strings_Contains r "..."); cbn [negb]; [done|].
  destruct (String.eqb r ".") eqn:Hdot.
  - apply eqb_true in Hdot. rewrite Hdot. exists "./...". by vm_compute.
  - destruct (strings_HasSuffix r "/") eqn:Hslash.
    + exists (r +:+ "..."). split; [done|]. split; [apply HasPrefix_app|].
      split; [|done]. unfold strings_HasSuffix in *.
      apply HasSuffix_true in Hslash as [q Hq]. apply HasSuffix_true.
      exists q. by rewrite Hq, sapp_assoc.
    + exists (r +:+ "/..."). split; [done|]. split; [apply HasPrefix_app|].
      split; [|done]. apply HasSuffix_true. by exists r.
Qed.

End BuildPatterns.
(** ** The table of contents of a tree *)

(** ** The insertion sort *)

Section InsertionSort.
Context {A : Type}.

Lemma moveLeft_Permutation (less : A → A → bool) (x : A) (before : list A) :
  moveLeft less x before ≡ₚ x :: before.
Proof.
  induction before as [|y before IH]; [done|]. cbn [moveLeft].
  destruct (less x y); [|done]. rewrite IH. apply Permutation_swap.
Qed.

Lemma foldl_moveLeft_Permutation (less : A → A → bool) (l sorted : list A) :
  foldl (λ sorted x, moveLeft less x sorted) sorted l ≡ₚ sorted ++ l.
Proof.
  revert sorted. induction l as [|x l IH]; intros sorted; cbn [foldl].
  - by rewrite app_nil_r.
  - rewrite IH, moveLeft_Permutation. simpl. apply Permutation_middle.
Qed.

Lemma moveLeft_Sorted (key : A → string) (x : A) (before : list A) :
  Sorted (λ a b, String.le (key b) (key a)) before →
  Sorted (λ a b, String.le (key b) (key a))
    (moveLeft (λ a b, String.ltb (key a) (key b)) x before).
Proof.
  induction 1 as [|y before Hsorted IH Hhd]; cbn [moveLeft].
  { repeat constructor. }
  destruct (String.ltb (key x) (key y)) eqn:Hxy.
  - constructor; [done|].
    destruct Hhd as [|z before Hz]; cbn [moveLeft].
    + constructor. by apply ltb_le.
    + destruct (String.ltb (key x) (key z)); constructor;
        [done|by apply ltb_le].
  - constructor; [by constructor|]. constructor.
    by apply not_ltb_le.
Qed.

End InsertionSort.

(** The insertion sort returns what package [sort] promises. *)
Global Instance insertionSort_spec : @SortSliceSpec insertionSort.
Proof.
  split.
  - intros A less l. cbn [sort_Slice insertionSort].
    rewrite reverse_Permutation. apply (foldl_moveLeft_Permutation less l []).
  - intros A key l. cbn [sort_Slice insertionSort].
    apply (Sorted_reverse (λ a b, String.le (key b) (key a))).
    generalize (Sorted_nil (λ a b : A, String.le (key b) (key a))).
    generalize (@nil A). induction l as [|x l IH]; intros sorted Hsorted.
    + done.
    + cbn [foldl]. by apply IH, moveLeft_Sorted.
Qed.

Section TreeTOC.
Context `{GoRuntime} `{GoSort} `{!SortSliceSpec}.
Import GoStrings StringFacts StringList.

(** X8: For entries without summaries [buildTOC] writes the table of
    contents of section 4.4. *)
Theorem buildTOC_without_summaries (entries : list tocEntry) :
  entries ≠ [] → Forall (λ e, summary e = "") entries →
  buildTOC entries = specTOC entries.
Proof.
  intros Hne Hall. destruct entries as [|e entries]; [done|].
  rewrite buildTOC_lines. unfold specTOC. do 4 f_equal. clear Hne.
  induction Hall as [|x l Hx _ IH]; [done|]. cbn [foldr].
  rewrite IH. f_equal. unfold tocLine, specTOCLine. by rewrite Hx.
Qed.

Lemma buildTOC_empty (entries : list tocEntry) :
  buildTOC entries = "" → entries = [].
Proof.
  destruct entries as [|e entries]; [done|].
  rewrite buildTOC_lines. by rewrite !sapp_cons.
Qed.

(** The loop leaves the last root document and its path in [rootDoc]
    and [rootPath]. *)
Lemma os_MkdirAll_dirs (fs fs' : FS) (path : string) :
  os_MkdirAll fs path = Ok fs' →
  fs_files fs' = fs_files fs ∧ fs_dirs fs' = {[path]} ∪ fs_dirs fs.
Proof.
  unfold os_MkdirAll. destruct (os_MkdirAll_error fs path); [done|].
  by intros [= <-].
Qed.

Lemma os_WriteFile_files (fs fs' : FS) (path data : string) :
  os_WriteFile fs path data = Ok fs' →
  fs_files fs' = <[path := data]> (fs_files fs) ∧ fs_dirs fs' = fs_dirs fs.
Proof.
  unfold os_WriteFile. destruct (os_WriteFile_error fs path data); [done|].
  by intros [= <-].
Qed.

Lemma writeDocsLoop_root (outDir : string) (docs : list treeDoc)
    (st st' : writeState) :
  writeDocsLoop outDir docs st = Ok st' →
  fs_dirs (files st) ⊆ fs_dirs (files st')
  ∧ match last (filter (λ d, isSubDir d = false) docs) with
    | Some root => rootDoc st' = Some root
                   ∧ rootPath st' = filepath_Join outDir "README.md"
    | None => rootDoc st' = rootDoc st ∧ rootPath st' = rootPath st
              ∧ (docs = [] → files st' = files st)
    end.
Proof.
  revert st. induction docs as [|d docs IH]; intros st.
  - simpl. by intros [= <-].
  - rewrite filter_cons. cbn [writeDocsLoop].
    destruct (os_MkdirAll (files st) _) as [fs1|] eqn:Hmkdir; [|done].
    apply os_MkdirAll_dirs in Hmkdir as [_ Hdirs1].
    case_decide as Hsub.
    + rewrite Hsub. cbn [negb]. intros [Hdirs Hloop]%IH.
      cbn [rootDoc rootPath files] in Hloop, Hdirs.
      split; [etrans; [|exact Hdirs]; rewrite Hdirs1; apply union_subseteq_r|].
      rewrite last_cons.
      destruct (last (filter _ docs)); [done|].
      destruct Hloop as (Hdoc & Hpath & _). by rewrite Hdoc, Hpath.
    + apply not_false_is_true in Hsub. rewrite Hsub. cbn [negb].
      destruct (os_WriteFile fs1 _ _) as [fs2|] eqn:Hwrite; [|done].
      apply os_WriteFile_files in Hwrite as [_ Hdirs2].
      intros [Hdirs Hloop]%IH. cbn [rootDoc rootPath files] in Hloop, Hdirs.
      split;
        [etrans; [|exact Hdirs]; rewrite Hdirs2, Hdirs1;
         apply union_subseteq_r|].
      destruct (last (filter _ docs)); [done|].
      by destruct Hloop as (? & ? & _).
Qed.

Lemma writePackageDocsToDir_readme (outDir : string) (docs : list treeDoc)
    (fs fs' : FS) :
  writePackageDocsToDir outDir docs fs = Ok fs' →
  let sorted := sortDocs docs in
  let toc :=
    buildTOC (sortEntries
                (tocEntryOf <$> filter (λ d, isSubDir d = true) sorted)) in
  outDir ∈ fs_dirs fs'
  ∧ match last (filter (λ d, isSubDir d = false) sorted) with
    | Some root =>
        fs_files fs' !! filepath_Join outDir "README.md"
        = Some (appendTOCAfterDoc (markdown root) toc)
    | None =>
        if String.eqb toc ""
        then fs' = FileSystem (fs_files fs) ({[outDir]} ∪ fs_dirs fs)
        else fs_files fs' !! filepath_Join outDir "README.md" = Some toc
    end.
Proof.
  unfold writePackageDocsToDir. destruct (String.eqb outDir ""); [done|].
  destruct (os_MkdirAll fs outDir) as [fs0|] eqn:Hmkdir; [|done].
  destruct (writeDocsLoop outDir (sortDocs docs) (WriteState [] None "" fs0))
    as [st|] eqn:Hloop; [|done].
  pose proof (writeDocsLoop_links _ _ _ _ Hloop) as Hentries.
  pose proof (writeDocsLoop_root _ _ _ _ Hloop) as [Hdirs Hroot].
  cbn [entries rootDoc rootPath files app] in Hentries, Hroot, Hdirs.
  rewrite Hentries. cbv zeta.
  assert (outDir ∈ fs_dirs (files st)) as Hout.
  { apply Hdirs. apply os_MkdirAll_dirs in Hmkdir as [_ ->].
    apply elem_of_union_l, elem_of_singleton. done. }
  destruct (last (filter (λ d, isSubDir d = false) (sortDocs docs)))
    as [root|] eqn:Hlast.
  - destruct Hroot as [-> ->].
    intros [Hfiles Hdirs']%os_WriteFile_files.
    split; [by rewrite Hdirs'|]. rewrite Hfiles. apply lookup_insert_eq.
  - destruct Hroot as (-> & _ & Hnil).
    destruct (String.eqb _ "") eqn:Htoc.
    + apply eqb_true in Htoc. rewrite Htoc. cbn. intros [= <-].
      split; [done|].
      apply buildTOC_empty in Htoc.
      assert (tocEntryOf <$> filter (λ d, isSubDir d = true) (sortDocs docs)
              = []) as Hsub.
      { apply Permutation_nil_r. rewrite <- Htoc.
        symmetry. apply sort_Slice_Permutation. }
      apply fmap_nil_inv in Hsub. apply last_None in Hlast.
      rewrite Hnil.
      { apply os_MkdirAll_dirs in Hmkdir as [Hfiles Hdirs0].
        destruct fs0 as [f0 d0]. cbn [fs_files fs_dirs] in *. by subst. }
      destruct (sortDocs docs) as [|d l]; [done|].
      rewrite !filter_cons in Hsub, Hlast.
      destruct (isSubDir d); repeat case_decide; done.
    + apply eqb_false in Htoc.
      assert ((len (buildTOC (sortEntries
                 (tocEntryOf <$> filter (λ d, isSubDir d = true)
                                   (sortDocs docs)))) >? 0) = true) as ->.
      { apply Z.gtb_lt. pose proof (len_nonneg (buildTOC (sortEntries
                 (tocEntryOf <$> filter (λ d, isSubDir d = true)
                                   (sortDocs docs))))) as Hge.
        destruct (decide (len (buildTOC (sortEntries
                 (tocEntryOf <$> filter (λ d, isSubDir d = true)
                                   (sortDocs docs)))) = 0)) as [Hz|]; [|lia].
        by apply len_zero in Hz. }
      intros [Hfiles Hdirs']%os_WriteFile_files.
      split; [by rewrite Hdirs'|]. rewrite Hfiles. apply lookup_insert_eq.
Qed.

(** X9: After a successful run of directory output the output
    directory has been created and its file [README.md] holds the root
    document, the last one in the order in which [sort.Slice] leaves
    the documents, followed by the table of contents of all
    subpackages sorted by title; without a root document it holds the
    table of contents alone, and without any document no file is
    written: the run only creates the output directory. *)
Theorem writePackageDocsToDir_root (outDir : string) (docs : list treeDoc)
    (fs fs' : FS) :
  writePackageDocsToDir outDir docs fs = Ok fs' →
  let sorted := sortDocs docs in
  let toc :=
    buildTOC (sortEntries
                (tocEntryOf <$> filter (λ d, isSubDir d = true) sorted)) in
  outDir ∈ fs_dirs fs'
  ∧ match last (filter (λ d, isSubDir d = false) sorted) with
    | Some root =>
        fs_files fs' !! filepath_Join outDir "README.md"
        = Some (appendTOCAfterDoc (markdown root) toc)
    | None =>
        if String.eqb toc ""
        then fs' = FileSystem (fs_files fs) ({[outDir]} ∪ fs_dirs fs)
        else fs_files fs' !! filepath_Join outDir "README.md" = Some toc
    end.
Proof. apply writePackageDocsToDir_readme. Qed.

End TreeTOC.

Lemma buildTOC_without_summaries_witness :
  buildTOC [{| title := "subpkg"; link := "subpkg/README.md"; summary := "" |}]
  = specTOC [{| title := "subpkg"; link := "subpkg/README.md"; summary := "" |}].
Proof.
  apply buildTOC_without_summaries; [discriminate|].
  by repeat constructor.
Defined.

Lemma writePackageDocsToDir_root_witness :
  ∃ fs', @writePackageDocsToDir (asciiRuntime noPackages) insertionSort
           "out" exampleDocs emptyFS = Ok fs'
    ∧ "out" ∈ fs_dirs fs'
    ∧ fs_files fs' !! "out/README.md"
      = Some (appendTOCAfterDoc ("# package example" +:+ NL +:+ NL)
                (buildTOC [@tocEntryOf (asciiRuntime noPackages)
                             {| relDir := "subpkg";
                                pkgDir := "/src/example/subpkg";
                                pkgPath := "example/subpkg";
                                docSummary := "Message exposes a sample constant.";
                                markdown := "# package subpkg" +:+ NL +:+ NL |}])).
Proof.
  destruct (@writePackageDocsToDir (asciiRuntime noPackages) insertionSort
              "out" exampleDocs emptyFS)
    as [fs'|] eqn:Hrun; [|by vm_compute in Hrun].
  exists fs'. split; [done|].
  exact (@writePackageDocsToDir_root (asciiRuntime noPackages) insertionSort
           insertionSort_spec "out" exampleDocs emptyFS fs' Hrun).
Defined.

(** ** [renderMethod] *)

Section RenderMethod.
Context `{GoRuntime} `{GoDecls}.
Variable r : markdownRenderer.

(** A loop that appends a block for every element that passes a test
    and sets the result. *)
Lemma foldl_member {A} (test : A → bool) (mk : A → memberBlock) (l : list A)
    (w : list memberBlock) (b : bool) :
  foldl (λ st x, if test x then (st.1 ++ [mk x], true) else st) (w, b) l
  = (w ++ (mk <$> filter (λ x, test x = true) l),
     b || bool_decide (mk <$> filter (λ x, test x = true) l ≠ [])).
Proof.
  revert w b. induction l as [|x l IH]; intros w b; simpl.
  - by rewrite app_nil_r, orb_false_r.
  - rewrite filter_cons. destruct (test x) eqn:Hx.
    + case_decide; [|done]. rewrite IH. simpl.
      rewrite <- app_assoc. simpl. by rewrite orb_true_r.
    + case_decide; [done|]. by rewrite IH.
Qed.

Lemma nonempty_member_app (l1 l2 : list memberBlock) :
  bool_decide (l1 ++ l2 ≠ [])
  = bool_decide (l1 ≠ []) || bool_decide (l2 ≠ []).
Proof. destruct l1, l2; by compute. Qed.

Lemma foldl_fieldStep (t : doc.Type_) (fieldName : string)
    (fields : list ast.Field) (w : list memberBlock) (b : bool) :
  let blocks :=
    flat_map (λ field, (λ n, FieldDoc t n field)
                         <$> filter (λ n, matchName r n fieldName = true)
                               (ast.Field_Names field)) fields in
  foldl (fieldStep r t fieldName) (w, b) fields
  = (w ++ blocks, b || bool_decide (blocks ≠ [])).
Proof.
  revert w b. induction fields as [|field fields IH]; intros w b; cbn [foldl].
  - cbn. by rewrite app_nil_r, orb_false_r.
  - assert (fieldStep r t fieldName (w, b) field
            = foldl (λ st n, if matchName r n fieldName
                             then (st.1 ++ [FieldDoc t n field], true)
                             else st) (w, b) (ast.Field_Names field)) as ->
      by reflexivity.
    rewrite (foldl_member (λ n, matchName r n fieldName)
               (λ n, FieldDoc t n field)).
    rewrite IH. cbn [flat_map].
    by rewrite nonempty_member_app, <- app_assoc, <- orb_assoc.
Qed.

Lemma renderFieldDoc_blocks (t : doc.Type_) (fieldName : string)
    (w : list memberBlock) :
  let blocks :=
    flat_map (λ field, (λ n, FieldDoc t n field)
                         <$> filter (λ n, matchName r n fieldName = true)
                               (ast.Field_Names field)) (structFields t) in
  renderFieldDoc r w t fieldName = (w ++ blocks, bool_decide (blocks ≠ [])).
Proof.
  unfold renderFieldDoc, structFields.
  destruct (findTypeSpec (Type_Decl t) (doc.Type_Name t)) as [[n [[fs|]|]|]|];
    cbn; rewrite ?app_nil_r; try done.
  by rewrite foldl_fieldStep.
Qed.

Lemma methodTypeStep_blocks (typeName methodName : string) (t : doc.Type_)
    (w : list memberBlock) (b : bool) :
  methodTypeStep r typeName methodName (w, b) t
  = if matchName r (doc.Type_Name t) typeName
    then (w ++ memberMatches r methodName t,
          b || bool_decide (memberMatches r methodName t ≠ []))
    else (w, b).
Proof.
  unfold methodTypeStep, memberMatches.
  destruct (matchName r (doc.Type_Name t) typeName); cbn [negb]; [|done].
  assert (foldl (methodStep r t methodName) (w, b) (doc.Type_Methods t)
          = foldl (λ st m, if matchName r (doc.Func_Name m) methodName
                           then (st.1 ++ [MethodDoc m (doc.Type_Name t)], true)
                           else st) (w, b) (doc.Type_Methods t)) as ->
    by reflexivity.
  rewrite (foldl_member (λ m, matchName r (doc.Func_Name m) methodName)
             (λ m, MethodDoc m (doc.Type_Name t))).
  cbn [fst snd]. rewrite renderFieldDoc_blocks. cbv zeta.
  rewrite nonempty_member_app, <- app_assoc.
  destruct (bool_decide (flat_map _ _ ≠ [])); [|by rewrite orb_false_r].
  by rewrite !orb_true_r.
Qed.

Lemma foldl_methodTypeStep (typeName methodName : string)
    (ts : list doc.Type_) (w : list memberBlock) (b : bool) :
  foldl (methodTypeStep r typeName methodName) (w, b) ts
  = (w ++ flat_map (memberMatches r methodName)
            (filter (λ t, matchName r (doc.Type_Name t) typeName = true) ts),
     b || bool_decide
            (flat_map (memberMatches r methodName)
               (filter (λ t, matchName r (doc.Type_Name t) typeName = true)
                  ts) ≠ [])).
Proof.
  revert w b. induction ts as [|t ts IH]; intros w b; cbn [foldl].
  - cbn. by rewrite app_nil_r, orb_false_r.
  - rewrite methodTypeStep_blocks, filter_cons.
    destruct (matchName r (doc.Type_Name t) typeName) eqn:Ht.
    + case_decide; [|done]. rewrite IH. cbn [flat_map].
      by rewrite nonempty_member_app, <- app_assoc, <- orb_assoc.
    + case_decide; [done|]. by rewrite IH.
Qed.

(** X10: The method view looks at the types whose name matches the type
    name only; for each, in order, it renders the methods whose name
    matches and then the struct fields whose name matches, and it
    returns whether it rendered anything. *)
Theorem renderMethod_matches (w : list memberBlock)
    (typeName methodName : string) :
  renderMethod r w typeName methodName
  = (w ++ methodMatches r typeName methodName,
     bool_decide (methodMatches r typeName methodName ≠ [])).
Proof.
  unfold renderMethod, methodMatches. by rewrite foldl_methodTypeStep.
Qed.

(** X11: [findTypeSpec] returns the first type spec of the declaration that
    has the name, and none without a declaration. *)
Theorem findTypeSpec_first (specs : list ast.Spec) (name : string) :
  findTypeSpec None name = None
  ∧ match findTypeSpec (Some specs) name with
    | Some spec =>
        ∃ before after e,
          specs = before ++ spec :: after
          ∧ spec = ast.TypeSpec (Some name) e
          ∧ Forall (λ s, ∀ e', s ≠ ast.TypeSpec (Some name) e') before
    | None => Forall (λ s, ∀ e', s ≠ ast.TypeSpec (Some name) e') specs
    end.
Proof.
  split; [done|]. cbn [findTypeSpec].
  induction specs as [|s specs IH]; [by constructor|].
  cbn [findTypeSpecLoop].
  assert (∀ rest : option ast.Spec,
    (∀ e', s ≠ ast.TypeSpec (Some name) e') →
    match rest with
    | Some spec =>
        ∃ before after e, specs = before ++ spec :: after
          ∧ spec = ast.TypeSpec (Some name) e
          ∧ Forall (λ s, ∀ e', s ≠ ast.TypeSpec (Some name) e') before
    | None => Forall (λ s, ∀ e', s ≠ ast.TypeSpec (Some name) e') specs
    end →
    match rest with
    | Some spec =>
        ∃ before after e, s :: specs = before ++ spec :: after
          ∧ spec = ast.TypeSpec (Some name) e
          ∧ Forall (λ s, ∀ e', s ≠ ast.TypeSpec (Some name) e') before
    | None => Forall (λ s, ∀ e', s ≠ ast.TypeSpec (Some name) e') (s :: specs)
    end) as Hskip.
  { intros [spec|] Hs Hrest.
    - destruct Hrest as (before & after & e & -> & -> & Hall).
      exists (s :: before), after, e. split; [done|]. split; [done|].
      by constructor.
    - by constructor. }
  destruct s as [[n|] e|].
  - destruct (String.eqb n name) eqn:Hn.
    + apply String.eqb_eq in Hn as ->. exists [], specs, e.
      by repeat split.
    + apply Hskip; [|done]. intros e' [= -> _].
      by rewrite String.eqb_refl in Hn.
  - by apply Hskip.
  - by apply Hskip.
Qed.

End RenderMethod.
(** ** More on the candidates *)

Section MoreCandidates.
Context `{GoRuntime}.
Import GoStrings StringFacts StringList.

Lemma add_nonempty (st : addState) (p s m : string) :
  candidates st ≠ [] ∨ seen st = ∅ → candidates (add st p s m) ≠ [].
Proof.
  intros Hst. unfold add. case_bool_decide as Hseen.
  - destruct Hst as [Hne|Hempty]; [done|]. rewrite Hempty in Hseen.
    by apply not_elem_of_empty in Hseen.
  - cbn [candidates]. by destruct (candidates st).
Qed.

Lemma addAll_nonempty (l : list invocation) (st : addState) :
  candidates st ≠ [] → candidates (addAll st l) ≠ [].
Proof.
  revert st. induction l as [|c l IH]; intros st Hst; [done|].
  cbn [addAll foldl]. apply IH. apply add_nonempty. by left.
Qed.

Lemma singleArgCandidates_nonempty (arg : string) :
  singleArgCandidates arg ≠ [].
Proof.
  unfold singleArgCandidates. destruct (splitSymbol arg) as [sym meth].
  apply add_nonempty. left.
  assert (candidates (add
    (if startsWithUpper arg
        && negb (ContainsAny arg (String SLASH (String BACKSLASH "")))
     then add (AddState ∅ []) "." sym meth else AddState ∅ []) arg "" "")
    ≠ []) as Hfirst.
  { apply add_nonempty. destruct (_ && _); [|by right].
    left. apply add_nonempty. by right. }
  destruct (ContainsByte arg DOT); [|done].
  by apply (addAll_nonempty (parseCompound arg)).
Qed.

(** X12: [buildCandidates] never returns an empty list of candidates: it
    returns at least one candidate for up to two arguments and the
    usage error for more. *)
Theorem buildCandidates_nonempty (args : list string) :
  match buildCandidates args with
  | Ok cands => cands ≠ [] ∧ (length args ≤ 2)%nat
  | Err e => e = "too many positional arguments" ∧ (2 < length args)%nat
  end.
Proof.
  destruct args as [|arg0 [|arg1 [|arg2 args]]]; cbn [buildCandidates length].
  - split; [done|lia].
  - split; [apply singleArgCandidates_nonempty|lia].
  - destruct (splitSymbol arg1). split; [done|lia].
  - split; [done|lia].
Qed.

(** X13: Every candidate of [parseCompound] cuts the argument at one of its
    dots: the package expression is the non-empty text before the dot,
    and symbol and method are the split of the text after it. *)
Theorem parseCompound_cuts (arg : string) :
  Forall (λ c, pkgExpr c ≠ ""
               ∧ ∃ spec, arg = pkgExpr c +:+ "." +:+ spec
                         ∧ splitSymbol spec = (symbol c, method c))
         (parseCompound arg).
Proof.
  rewrite parseCompound_compoundCandidates. apply Forall_forall.
  intros c (i & Hget & Hne & ->)%elem_of_compoundCandidates.
  cbn [pkgExpr symbol method]. split; [done|].
  exists (sliceFrom (S i) arg). split.
  - by destruct (get_cut _ _ _ Hget) as [Hcut _].
  - by destruct (splitSymbol (sliceFrom (S i) arg)).
Qed.

Lemma dedupTriples_NoDup (before l : list invocation) :
  NoDup (dedupTriples before l)
  ∧ Forall (λ x, x ∉ before) (dedupTriples before l).
Proof.
  revert before. induction l as [|x l IH]; intros before; cbn [dedupTriples].
  { split; constructor. }
  case_bool_decide as Hx; [apply IH|].
  destruct (IH (x :: before)) as [Hnd Hall]. split.
  - constructor; [|done]. intros Hin.
    apply (proj1 (Forall_forall _ _) Hall) in Hin. apply Hin. left.
  - constructor; [done|]. eapply Forall_impl; [exact Hall|].
    intros y Hy Hin. apply Hy. by right.
Qed.

(** X14: Apart from the empty argument and a dot followed by [|], no
    candidate occurs twice. *)
Theorem singleArgCandidates_NoDup (arg : string) :
  arg ≠ "" → dotPipes arg = false → NoDup (singleArgCandidates arg).
Proof.
  intros Harg Hpipes. rewrite singleArgCandidates_dotIfEmpty by done.
  rewrite specCandidates_dotIfEmpty by done.
  apply dedupTriples_NoDup.
Qed.

End MoreCandidates.

Lemma singleArgCandidates_NoDup_witness :
  NoDup (@singleArgCandidates (asciiRuntime noPackages) "Greeter.Greet").
Proof.
  apply (@singleArgCandidates_NoDup (asciiRuntime noPackages) "Greeter.Greet");
    [discriminate|reflexivity].
Defined.

Lemma displaySymbol_splitSymbol_witness :
  displaySymbol (splitSymbol "Greeter.Greet").1 (splitSymbol "Greeter.Greet").2
  = "Greeter.Greet".
Proof.
  apply (displaySymbol_splitSymbol "Greeter.Greet"). left.
  split; discriminate.
Defined.

(** ** The length of dedented text *)

Section DedentLength.
Context `{GoRuntime}.
Import GoStrings StringFacts StringList.

Lemma len_dedentLine (m : Z) (line : string) :
  0 <= m →
  len (dedentLine m line)
  = if bool_decide (m <= len line) then len line - m else len line.
Proof.
  intros Hm. unfold dedentLine.
  destruct (len line >=? m) eqn:Hge; case_bool_decide; try lia.
  unfold len in *. rewrite length_sliceFrom. lia.
Qed.

Lemma len_Join_dedentLine (m : Z) (lines : list string) :
  0 <= m →
  len (Join (map (dedentLine m) lines) NL)
  = len (Join lines NL)
    - m * Z.of_nat (length (filter (λ line, m <= len line) lines)).
Proof.
  intros Hm. induction lines as [|p [|q lines] IH].
  - simpl. lia.
  - cbn [map Join]. rewrite len_dedentLine by done.
    rewrite filter_cons, filter_nil.
    case_bool_decide; [rewrite decide_True by done|rewrite decide_False by done];
      simpl; lia.
  - change (map (dedentLine m) (p :: q :: lines))
      with (dedentLine m p :: map (dedentLine m) (q :: lines)).
    change (Join (dedentLine m p :: map (dedentLine m) (q :: lines)) NL)
      with (dedentLine m p +:+ NL
            +:+ Join (map (dedentLine m) (q :: lines)) NL).
    change (Join (p :: q :: lines) NL)
      with (p +:+ NL +:+ Join (q :: lines) NL).
    rewrite !len_app, IH, len_dedentLine by done.
    rewrite (filter_cons _ p).
    case_bool_decide; [rewrite decide_True by done|rewrite decide_False by done];
      cbn [length]; lia.
Qed.

(** X16: [dedentMarkdown] shortens the text by [m] bytes for every line
    of at least [m] bytes, where [m] is the least indentation of the
    non-blank lines, counted as the bytes before the first byte of a
    line that is neither a space nor a tab; the result is never longer
    than the text. *)
Theorem dedentMarkdown_len (src : string) :
  let lines := Split src LF in
  let m := leastIndentation lines in
  len (dedentMarkdown src)
  = len src - m * Z.of_nat (length (filter (λ line, m <= len line) lines))
  ∧ len (dedentMarkdown src) <= len src.
Proof.
  intros lines m. unfold m, lines.
  rewrite <- specMinIndent_leastIndentation. clear lines m.
  set (lines := Split src LF). set (m := specMinIndent lines).
  pose proof (specMinIndent_nonneg lines) as Hm. fold m in Hm.
  assert (len (dedentMarkdown src)
          = len src
            - m * Z.of_nat (length (filter (λ line, m <= len line) lines)))
    as Hlen.
  { rewrite dedentMarkdown_lines. fold lines m.
    rewrite len_Join_dedentLine by done. unfold lines.
    change NL with (String LF ""). by rewrite (Join_Split src LF). }
  split; [done|]. rewrite Hlen. nia.
Qed.

End DedentLength.
(** ** The text of the package view *)

Section PackageText.
Context `{GoRuntime} `{GoDecls} `{GoFormat}.
Variable r : markdownRenderer.
Import GoStrings StringFacts StringList.

Lemma blank_newline (s : string) : endsWithBlankLine s → endsWithNewline s.
Proof. intros [p ->]. exists (p +:+ NL). by rewrite sapp_assoc. Qed.

Lemma blank_intro (p : string) : endsWithBlankLine (p +:+ NL +:+ NL).
Proof. by exists p. Qed.

Lemma blank_app_r (a b : string) :
  endsWithBlankLine b → endsWithBlankLine (a +:+ b).
Proof. intros [p ->]. exists (a +:+ p). by rewrite sapp_assoc. Qed.

Lemma blank_app_l (a b : string) :
  endsWithBlankLine a → emptyOrBlankLine b → endsWithBlankLine (a +:+ b).
Proof.
  intros Ha [->|Hb]; [by rewrite sapp_nil_r|by apply blank_app_r].
Qed.

Lemma emptyOrBlank_app (a b : string) :
  emptyOrBlankLine a → emptyOrBlankLine b → emptyOrBlankLine (a +:+ b).
Proof.
  intros [->|Ha] Hb; [done|]. right. by apply blank_app_l.
Qed.

Lemma newline_app_r (a b : string) :
  endsWithNewline b → endsWithNewline (a +:+ b).
Proof. intros [p ->]. exists (a +:+ p). by rewrite sapp_assoc. Qed.

Lemma newline_writeAll (parts : list string) :
  parts ≠ [] → Forall endsWithNewline parts →
  endsWithNewline (writeAll parts).
Proof.
  induction parts as [|p [|q parts] IH]; [done| |]; intros _ Hall.
  - simpl. rewrite sapp_nil_r. by inversion Hall.
  - change (writeAll (p :: q :: parts)) with (p +:+ writeAll (q :: parts)).
    apply newline_app_r, IH; [done|by inversion Hall].
Qed.

Lemma emptyOrBlank_writeAll (parts : list string) :
  Forall emptyOrBlankLine parts → emptyOrBlankLine (writeAll parts).
Proof.
  induction 1 as [|p parts Hp _ IH]; [by left|].
  simpl. by apply emptyOrBlank_app.
Qed.

Lemma blank_section (title : string) (parts : list string) :
  parts ≠ [] → Forall endsWithNewline parts →
  endsWithBlankLine
    ("### " +:+ title +:+ NL +:+ NL +:+ writeAll parts +:+ NL).
Proof.
  intros Hne Hall. destruct (newline_writeAll parts Hne Hall) as [p ->].
  exists ("### " +:+ title +:+ NL +:+ NL +:+ p).
  by rewrite <- !sapp_assoc.
Qed.

Lemma writeCodeBlock_blank (code : string) :
  emptyOrBlankLine (Markdown.writeCodeBlock code).
Proof.
  unfold Markdown.writeCodeBlock. destruct (String.eqb code ""); [by left|].
  right. exists ("```go" +:+ NL +:+ TrimSpace code +:+ NL +:+ "```").
  by rewrite <- !sapp_assoc.
Qed.

Lemma writeDoc_blank (text : string) :
  emptyOrBlankLine (Markdown.writeDoc text).
Proof.
  unfold Markdown.writeDoc. destruct (String.eqb (docMarkdown text) "");
    [by left|right; apply blank_intro].
Qed.

Lemma heading_blank (mark name tail : string) :
  emptyOrBlankLine tail →
  endsWithBlankLine (mark +:+ name +:+ NL +:+ NL +:+ tail).
Proof.
  intros Htail.
  replace (mark +:+ name +:+ NL +:+ NL +:+ tail)
    with ((mark +:+ name +:+ NL +:+ NL) +:+ tail)
    by (by rewrite <- !sapp_assoc).
  apply blank_app_l; [|done]. exists (mark +:+ name).
  by rewrite <- !sapp_assoc.
Qed.

Lemma renderValueDoc_newline (v : doc.Value) :
  endsWithNewline (Markdown.renderValueDoc r v).
Proof.
  unfold Markdown.renderValueDoc. destruct (short (r_options r)).
  - by eexists.
  - apply blank_newline, heading_blank, emptyOrBlank_app;
      [apply writeCodeBlock_blank|apply writeDoc_blank].
Qed.

Lemma renderFuncDoc_newline (f : doc.Func) (receiver : string) :
  endsWithNewline (Markdown.renderFuncDoc r f receiver).
Proof.
  unfold Markdown.renderFuncDoc. destruct (short (r_options r)).
  - by eexists.
  - apply blank_newline, heading_blank, emptyOrBlank_app;
      [|apply writeDoc_blank].
    destruct (showSource (r_options r)); [apply writeCodeBlock_blank|].
    right. exists ("```go" +:+ NL +:+ Markdown.signature (Func_Decl f)
                   +:+ NL +:+ "```").
    by rewrite <- !sapp_assoc.
Qed.

Lemma renderValuesSection_blank (title : string) (values : list doc.Value) :
  emptyOrBlankLine (Markdown.renderValuesSection r title values).
Proof.
  destruct values as [|v values]; [by left|]. right.
  apply blank_section; [done|].
  apply Forall_map, Forall_forall. intros. apply renderValueDoc_newline.
Qed.

Lemma renderFuncsSection_blank (title : string) (funcs : list doc.Func)
    (receiver : string) :
  emptyOrBlankLine (Markdown.renderFuncsSection r title funcs receiver).
Proof.
  destruct funcs as [|f funcs]; [by left|]. right.
  apply blank_section; [done|].
  apply Forall_map, Forall_forall. intros. apply renderFuncDoc_newline.
Qed.

Lemma renderTypeDoc_blank (t : doc.Type_) :
  endsWithBlankLine (Markdown.renderTypeDoc r t).
Proof.
  unfold Markdown.renderTypeDoc. apply heading_blank.
  repeat apply emptyOrBlank_app;
    auto using writeCodeBlock_blank, writeDoc_blank,
      renderValuesSection_blank, renderFuncsSection_blank.
Qed.

Lemma renderTypesSection_blank (types : list doc.Type_) :
  emptyOrBlankLine (Markdown.renderTypesSection r types).
Proof.
  apply emptyOrBlank_writeAll, Forall_map, Forall_forall.
  intros t _. right. apply renderTypeDoc_blank.
Qed.

Lemma renderPackageSummary_blank :
  emptyOrBlankLine (Markdown.renderPackageSummary r).
Proof.
  unfold Markdown.renderPackageSummary.
  destruct (Markdown.summaryEntries r) as [|e entries] eqn:Hentries;
    [by left|right].
  assert (sort_Strings (e :: entries) ≠ []) as Hne.
  { intros Hnil.
    assert (sort_Strings (e :: entries) ≡ₚ e :: entries) as Hperm
      by apply merge_sort_Permutation.
    rewrite Hnil in Hperm. by apply Permutation_nil_cons in Hperm. }
  destruct (newline_writeAll
              (map (λ entry, entry +:+ NL) (sort_Strings (e :: entries))))
    as [p Hp].
  - by destruct (sort_Strings (e :: entries)).
  - apply Forall_map, Forall_forall. intros entry _. by exists entry.
  - exists p. by rewrite Hp, <- sapp_assoc.
Qed.

Lemma renderPackage_blank : emptyOrBlankLine (Markdown.renderPackage r).
Proof.
  unfold Markdown.renderPackage. cbv zeta.
  repeat apply emptyOrBlank_app.
  - destruct (negb (String.eqb (doc.Name (pkg r)) "main")); [|by left].
    right. apply heading_blank.
    destruct (negb (String.eqb (doc.ImportPath (pkg r)) "")); [|by left].
    right. exists ("`import " +:+ String DQUOTE (doc.ImportPath (pkg r))
                   +:+ String DQUOTE "`").
    by rewrite <- !sapp_assoc.
  - apply writeDoc_blank.
  - destruct (_ && _).
    + repeat apply emptyOrBlank_app; [apply renderPackageSummary_blank| |].
      * destruct (_ || _); [apply renderValuesSection_blank|by left].
      * destruct (_ || _); [apply renderFuncsSection_blank|by left].
    + apply emptyOrBlank_app; [apply renderPackageSummary_blank|].
      destruct (all (r_options r)); [|by left].
      repeat apply emptyOrBlank_app;
        auto using renderValuesSection_blank, renderFuncsSection_blank,
          renderTypesSection_blank.
Qed.

Lemma appendTOCAfterDoc_blank (md toc : string) :
  emptyOrBlankLine md → appendTOCAfterDoc md toc = md +:+ toc.
Proof.
  intros Hmd. unfold appendTOCAfterDoc.
  destruct (len toc =? 0) eqn:Ht.
  { apply Z.eqb_eq, len_zero in Ht. by rewrite Ht, sapp_nil_r. }
  destruct (len md =? 0) eqn:Hd.
  { apply Z.eqb_eq, len_zero in Hd. by rewrite Hd. }
  destruct Hmd as [Hmd|Hblank].
  { rewrite Hmd in Hd. done. }
  apply HasSuffix_true in Hblank. by rewrite Hblank.
Qed.

(** X17: The text of the package view is empty or ends with a blank line,
    so [appendTOCAfterDoc] puts the table of contents directly after
    it, without padding. *)
Theorem renderPackage_appendTOC (toc : string) :
  let md := Markdown.renderPackage r in
  (md = "" ∨ bytes.HasSuffix md (NL +:+ NL) = true)
  ∧ appendTOCAfterDoc md toc = md +:+ toc.
Proof.
  intros md. pose proof renderPackage_blank as Hmd. fold md in Hmd. split.
  - destruct Hmd as [->|Hblank]; [by left|right]. by apply HasSuffix_true.
  - by apply appendTOCAfterDoc_blank.
Qed.

End PackageText.
(** ** [execute] *)

Section Execute.
Context `{GoRuntime} `{GoSort} `{GoDecls} `{GoFormat} `{GoOS}.
Import GoStrings StringFacts StringList.

Lemma buildCandidates_Ok_nonempty (args : list string)
    (cands : list invocation) :
  buildCandidates args = Ok cands → cands ≠ [].
Proof.
  destruct args as [|arg0 [|arg1 [|arg2 args]]]; cbn [buildCandidates].
  - by intros [= <-].
  - intros [= <-]. apply singleArgCandidates_nonempty.
  - destruct (splitSymbol arg1). by intros [= <-].
  - done.
Qed.

Lemma stdOnce_Do_twice (c : stdCache) :
  stdOnce_Do (stdOnce_Do c) = stdOnce_Do c.
Proof.
  assert (stdOnce (stdOnce_Do c) = true) as Honce.
  { unfold stdOnce_Do. by destruct (stdOnce c) eqn:Hc. }
  unfold stdOnce_Do at 1. by rewrite Honce.
Qed.

(** The cache is as the process starts it or as the first search
    leaves it, and the outcome of a resolution does not depend on
    which. *)
Lemma resolvePackage_started (expr : string) (c : stdCache) :
  c = stdCache_init ∨ c = stdOnce_Do stdCache_init →
  (resolvePackage expr c).1 = (resolvePackage expr stdCache_init).1
  ∧ ((resolvePackage expr c).2 = stdCache_init
     ∨ (resolvePackage expr c).2 = stdOnce_Do stdCache_init).
Proof.
  intros Hc. unfold resolvePackage.
  destruct (resolvePackageTry _); [by split|].
  assert ((matchStdSuffix expr c).1 = (matchStdSuffix expr stdCache_init).1
          ∧ ((matchStdSuffix expr c).2 = stdCache_init
             ∨ (matchStdSuffix expr c).2 = stdOnce_Do stdCache_init))
    as [Hfst Hsnd].
  { unfold matchStdSuffix. destruct (String.eqb expr ""); [by split|].
    cbv zeta.
    assert (stdOnce_Do c = stdOnce_Do stdCache_init) as ->.
    { destruct Hc as [->| ->]; [done|apply stdOnce_Do_twice]. }
    destruct (stdErr (stdOnce_Do stdCache_init)); split; auto. }
  destruct (matchStdSuffix expr c) as [m c'],
    (matchStdSuffix expr stdCache_init) as [m0 c0].
  cbn [fst snd] in *. subst m0.
  destruct (negb (String.eqb m "")); by split.
Qed.

Lemma executeLoop_first_match (opts : options) (w : world)
    (cands : list invocation) (lastErr : option error) (c : stdCache) :
  c = stdCache_init ∨ c = stdOnce_Do stdCache_init →
  (∃ before cand after, cands = before ++ cand :: after
     ∧ Forall (λ c, isMiss (attemptOf opts c)) before
     ∧ match attemptOf opts cand with
       | Miss _ => False
       | Fail err => executeLoop opts cands lastErr c w = Returned (Err err)
       | Hit md =>
           executeLoop opts cands lastErr c w
           = Returned (writeOutput (outputPath opts) md w)
       end)
  ∨ (Forall (λ c, isMiss (attemptOf opts c)) cands
     ∧ executeLoop opts cands lastErr c w
       = Exhausted (match last cands with
                    | Some cand =>
                        match attemptOf opts cand with
                        | Miss err => Some err
                        | _ => None
                        end
                    | None => lastErr
                    end)).
Proof.
  revert lastErr c. induction cands as [|cand cands IH]; intros lastErr c Hc.
  { right. by split. }
  assert (∀ lastErr' c',
    c' = stdCache_init ∨ c' = stdOnce_Do stdCache_init →
    isMiss (attemptOf opts cand) →
    (match attemptOf opts cand with
     | Miss err => Some err | _ => None end) = lastErr' →
    executeLoop opts (cand :: cands) lastErr c w
    = executeLoop opts cands lastErr' c' w →
    (∃ before cand0 after, cand :: cands = before ++ cand0 :: after
       ∧ Forall (λ c, isMiss (attemptOf opts c)) before
       ∧ match attemptOf opts cand0 with
         | Miss _ => False
         | Fail err =>
             executeLoop opts (cand :: cands) lastErr c w = Returned (Err err)
         | Hit md =>
             executeLoop opts (cand :: cands) lastErr c w
             = Returned (writeOutput (outputPath opts) md w)
         end)
    ∨ (Forall (λ c, isMiss (attemptOf opts c)) (cand :: cands)
       ∧ executeLoop opts (cand :: cands) lastErr c w
         = Exhausted (match last (cand :: cands) with
                      | Some cand =>
                          match attemptOf opts cand with
                          | Miss err => Some err
                          | _ => None
                          end
                      | None => lastErr
                      end))) as Hmiss.
  { intros lastErr' c' Hc' Hcand Hlast Hstep. rewrite Hstep.
    destruct (IH lastErr' c' Hc')
      as [(before & cand0 & after & -> & Hbefore & Hcand0)|[Hall Hloop]].
    - left. exists (cand :: before), cand0, after.
      split; [done|]. split; [by constructor|done].
    - right. split; [by constructor|]. rewrite Hloop. f_equal.
      destruct cands as [|cand1 cands]; [by cbn [last]|].
      rewrite last_cons_cons.
      destruct (last (cand1 :: cands)) eqn:Hl; [done|].
      by apply last_None in Hl. }
  destruct (resolvePackage_started (pkgExpr cand) c Hc) as [Hres Hc'].
  destruct (resolvePackage (pkgExpr cand) c) as [res c'] eqn:Hresolve.
  cbn [fst snd] in Hres, Hc'.
  destruct res as [pkgInfo|err].
  - destruct (documentTarget pkgInfo (symbol cand) (method cand) opts)
      as [[result handled]|err] eqn:Hdoc.
    + destruct handled; cbn [negb].
      * left. exists [], cand, cands. split; [done|]. split; [constructor|].
        unfold attemptOf. rewrite <- Hres, Hdoc. cbn [executeLoop].
        by rewrite Hresolve, Hdoc.
      * eapply (Hmiss _ c' Hc').
        -- unfold attemptOf. by rewrite <- Hres, Hdoc.
        -- unfold attemptOf. rewrite <- Hres, Hdoc. reflexivity.
        -- cbn [executeLoop]. by rewrite Hresolve, Hdoc.
    + left. exists [], cand, cands. split; [done|]. split; [constructor|].
      unfold attemptOf. rewrite <- Hres, Hdoc. cbn [executeLoop].
      by rewrite Hresolve, Hdoc.
  - eapply (Hmiss _ c' Hc').
    + unfold attemptOf. by rewrite <- Hres.
    + unfold attemptOf. rewrite <- Hres. reflexivity.
    + cbn [executeLoop]. by rewrite Hresolve.
Qed.

(** X18: Outside the tree modes, [execute] goes by the first candidate
    whose package resolves and has the symbol: it writes the Markdown
    of that candidate, or fails with the error of building its
    documentation.  When no candidate is one, it fails with the error
    of the last candidate. *)
Theorem execute_first_match (opts : options) (positionals : list string)
    (w : world) (cands : list invocation) :
  inplace opts = false →
  wantsDirectoryOutput (outputPath opts) (w_files w) = false →
  all opts && (1 <? Z.of_nat (length positionals)) = false →
  buildCandidates positionals = Ok cands →
  (∃ before cand after, cands = before ++ cand :: after
     ∧ Forall (λ c, isMiss (attemptOf opts c)) before
     ∧ match attemptOf opts cand with
       | Miss _ => False
       | Fail err => execute opts positionals stdCache_init w = Err err
       | Hit md =>
           execute opts positionals stdCache_init w
           = writeOutput (outputPath opts) md w
       end)
  ∨ (∃ before cand err, cands = before ++ [cand]
       ∧ Forall (λ c, isMiss (attemptOf opts c)) before
       ∧ attemptOf opts cand = Miss err
       ∧ execute opts positionals stdCache_init w = Err err).
Proof.
  intros Hinplace Hdir Hall Hcands.
  pose proof (buildCandidates_Ok_nonempty _ _ Hcands) as Hne.
  assert (execute opts positionals stdCache_init w
          = match executeLoop opts cands None stdCache_init w with
            | Returned res => res
            | Exhausted (Some lastErr) => Err lastErr
            | Exhausted None => Err "unable to locate documentation target"
            end) as Hexec.
  { unfold execute. rewrite Hinplace, Hdir, Hall, Hcands. cbn [andb].
    by destruct cands. }
  destruct (executeLoop_first_match opts w cands None stdCache_init
              (or_introl eq_refl))
    as [(before & cand & after & -> & Hbefore & Hcand)|[Hmiss Hloop]].
  - left. exists before, cand, after. split; [done|]. split; [done|].
    rewrite Hexec. destruct (attemptOf opts cand); [done| |];
      by rewrite Hcand.
  - right. destruct (exists_last Hne) as (before & cand & ->).
    rewrite last_snoc in Hloop.
    apply Forall_app in Hmiss as [Hbefore Hcand].
    rewrite Forall_singleton in Hcand.
    destruct (attemptOf opts cand) as [err| |] eqn:Hattempt;
      [|exfalso; exact Hcand..].
    exists before, cand, err. split; [done|]. split; [done|].
    split; [done|]. by rewrite Hexec, Hloop.
Qed.

End Execute.
(** ** The package tree *)

Section PackageTree.
Context `{GoRuntime} `{GoSort} `{GoDecls} `{GoFormat} `{GoOS}.
Import GoStrings StringFacts StringList.

Local Instance PkgPath_le_total :
  Total (λ a b : Package, String.le (PkgPath a) (PkgPath b)).
Proof. intros a b. apply (total String.le). Qed.

Lemma uniquePackages_lookup (pkgs : list Package)
    (unique unique' : gmap string Package) :
  uniquePackages pkgs unique = Ok unique' →
  Forall (λ p, Errors p = []) pkgs
  ∧ ∀ k p, unique' !! k = Some p
      ↔ (∃ before after, pkgs = before ++ p :: after ∧ packageKey p = k
           ∧ Forall (λ q, packageKey q ≠ k) after)
        ∨ (Forall (λ q, packageKey q ≠ k) pkgs ∧ unique !! k = Some p).
Proof.
  revert unique. induction pkgs as [|pkg pkgs IH]; intros unique.
  { intros [= <-]. split; [constructor|]. intros k p. split.
    - intros Hk. right. by split.
    - intros [(before & after & Hnil & _)|[_ Hk]]; [|done].
      by destruct before. }
  cbn [uniquePackages]. destruct (Errors pkg) as [|e es] eqn:Herrs; [|done].
  fold (packageKey pkg). intros Hrest.
  destruct (IH _ Hrest) as [Hok Hlookup]. split; [by constructor|].
  intros k p. rewrite Hlookup. split.
  - intros [(before & after & -> & Hkey & Hafter)|[Hnone Hk]].
    + left. by exists (pkg :: before), after.
    + destruct (decide (packageKey pkg = k)) as [Hpkg|Hpkg].
      * rewrite Hpkg, lookup_insert_eq in Hk. injection Hk as <-.
        left. by exists [], pkgs.
      * rewrite lookup_insert_ne in Hk by done. right.
        split; [by constructor|done].
  - intros [(before & after & Hsplit & Hkey & Hafter)|[Hnone Hk]].
    + destruct before as [|b before]; simplify_eq/=.
      * right. split; [done|]. by rewrite lookup_insert_eq.
      * left. by exists before, after.
    + apply Forall_cons in Hnone as [Hpkg Hnone]. right.
      split; [done|]. by rewrite lookup_insert_ne.
Qed.

(** X19: The packages of [loadPackageTree] have no errors, are in ascending
    order of their import paths, and are the loaded packages with one
    package for every key: the last one loaded with it. *)
Theorem loadPackageTree_unique (root : string) (result : list Package) :
  loadPackageTree root = Ok result →
  ∃ pkgs, packages_Load (buildPatterns root) = Ok pkgs
    ∧ Forall (λ p, Errors p = []) pkgs
    ∧ Sorted (λ a b, String.le (PkgPath a) (PkgPath b)) result
    ∧ NoDup (packageKey <$> result)
    ∧ ∀ p, p ∈ result
        ↔ ∃ before after, pkgs = before ++ p :: after
            ∧ Forall (λ q, packageKey q ≠ packageKey p) after.
Proof.
  unfold loadPackageTree.
  destruct (packages_Load (buildPatterns root)) as [pkgs|]; [|done].
  destruct (uniquePackages pkgs ∅) as [unique|] eqn:Hunique; [|done].
  intros [= <-]. exists pkgs. split; [done|].
  destruct (uniquePackages_lookup _ _ _ Hunique) as [Hok Hlookup].
  assert (∀ k p, unique !! k = Some p
            ↔ ∃ before after, pkgs = before ++ p :: after
                ∧ packageKey p = k
                ∧ Forall (λ q, packageKey q ≠ k) after) as Hlast.
  { intros k p. rewrite Hlookup. split; [|by left].
    intros [Hleft|[_ Hempty]]; [done|]. by rewrite lookup_empty in Hempty. }
  assert (sortPackages (map_to_list unique).*2 ≡ₚ (map_to_list unique).*2)
    as Hperm by apply merge_sort_Permutation.
  split; [done|]. split; [apply (Sorted_merge_sort _)|]. split.
  - rewrite Hperm.
    assert (packageKey <$> (map_to_list unique).*2
            = (map_to_list unique).*1) as ->.
    { rewrite <- list_fmap_compose. apply Forall_fmap_ext_1, Forall_forall.
      intros [k p] Hin%elem_of_map_to_list.
      apply Hlast in Hin as (_ & _ & _ & Hkey & _). done. }
    apply NoDup_fst_map_to_list.
  - intros p. rewrite Hperm, list_elem_of_fmap. split.
    + intros ([k p'] & -> & Hin%elem_of_map_to_list).
      apply Hlast in Hin as (before & after & -> & <- & Hafter).
      by exists before, after.
    + intros (before & after & -> & Hafter).
      exists (packageKey p, p). split; [done|].
      apply elem_of_map_to_list, Hlast. by exists before, after.
Qed.

Lemma deriveRelativeDir_no_dir (pkg : Package) (baseDir baseDir' : string) :
  deriveRelativeDir pkg baseDir "" = deriveRelativeDir pkg baseDir' "".
Proof. unfold deriveRelativeDir. cbn [String.eqb negb]. by rewrite !andb_false_r. Qed.

Lemma collectLoop_docs (pkgs : list Package) (opts : options)
    (docs0 docs : list treeDoc) (base0 base : string) :
  collectLoop pkgs opts docs0 base0 = Ok (docs, base) →
  ∃ new, docs = docs0 ++ new
    ∧ base = (if String.eqb base0 ""
              then default "" (head (filter (λ s, s ≠ "") (pkgDir <$> new)))
              else base0)
    ∧ Forall2
        (λ p d, ∃ docPkg, buildDocPackage p opts = Ok docPkg
           ∧ markdown d
             = Markdown.renderPackage {| r_options := opts; pkg := docPkg |}
           ∧ docSummary d = summaryText (doc.Doc docPkg)
           ∧ pkgPath d = PkgPath p
           ∧ pkgDir d = absolutePath (packageDir p)
           ∧ relDir d = deriveRelativeDir p base (pkgDir d))
        pkgs new.
Proof.
  revert docs0 base0. induction pkgs as [|p pkgs IH]; intros docs0 base0.
  { intros [= <- <-]. exists []. rewrite app_nil_r. split; [done|].
    split; [|constructor].
    destruct (String.eqb base0 "") eqn:Hbase0; [|done].
    by apply eqb_true in Hbase0. }
  cbn [collectLoop]. unfold documentTarget.
  destruct (buildDocPackage p opts) as [docPkg|] eqn:Hdoc; [|done].
  cbn [String.eqb negb Markdown Summary].
  remember (absolutePath (packageDir p)) as dir eqn:Hdirdef.
  remember (if String.eqb base0 "" && negb (String.eqb dir "")
            then dir else base0) as base1 eqn:Hbase1.
  intros Hrest. destruct (IH _ _ Hrest) as (new & -> & Hbase & Hall).
  eexists (_ :: new). split; [by rewrite <- app_assoc|].
  cbn [fmap list_fmap pkgDir].
  assert (base = (if String.eqb base0 ""
                  then default "" (head (filter (λ s, s ≠ "")
                                           (dir :: (pkgDir <$> new))))
                  else base0)
          ∧ (dir ≠ "" → base = base1)) as [Hbase' Hsame].
  { rewrite Hbase, Hbase1.
    destruct (String.eqb base0 "") eqn:Hbase0; cbn [andb].
    - destruct (String.eqb dir "") eqn:Hdir; cbn [negb].
      + apply eqb_true in Hdir.
        rewrite Hbase0, filter_cons_False by naive_solver. done.
      + pose proof Hdir as Hdir'. apply eqb_false in Hdir'.
        rewrite Hdir, filter_cons_True by done. done.
    - rewrite Hbase0. done. }
  split; [done|]. constructor; [|done].
  exists docPkg. cbn [markdown docSummary pkgPath pkgDir relDir].
  split_and!; try done.
  destruct (String.eqb dir "") eqn:Hdir.
  - apply eqb_true in Hdir. rewrite Hdir. apply deriveRelativeDir_no_dir.
  - apply eqb_false in Hdir. by rewrite (Hsame Hdir).
Qed.

(** X20: [collectPackageDocs] returns one document for every package of
    [loadPackageTree], in their order: the package view of the
    package, its summary, its import path and its directory.  The base
    directory is that of the root or, where the root has none, the
    first directory of a package, and every relative directory is
    derived from it. *)
Theorem collectPackageDocs_packages (root : string) (opts : options)
    (fs : FS) (pkgs : list Package) (docs : list treeDoc)
    (baseDir : string) :
  loadPackageTree root = Ok pkgs →
  collectPackageDocs root opts fs = Ok (docs, baseDir) →
  (pkgs ≠ [] →
   baseDir = if String.eqb (resolveBaseDir root fs) ""
             then default "" (head (filter (λ s, s ≠ "") (pkgDir <$> docs)))
             else resolveBaseDir root fs)
  ∧ Forall2
      (λ p d, ∃ docPkg, buildDocPackage p opts = Ok docPkg
         ∧ markdown d
           = Markdown.renderPackage {| r_options := opts; pkg := docPkg |}
         ∧ docSummary d = summaryText (doc.Doc docPkg)
         ∧ pkgPath d = PkgPath p
         ∧ pkgDir d = absolutePath (packageDir p)
         ∧ relDir d = deriveRelativeDir p baseDir (pkgDir d))
      pkgs docs.
Proof.
  intros Hload. unfold collectPackageDocs. rewrite Hload.
  destruct pkgs as [|p pkgs].
  { intros [= <- <-]. split; [done|constructor]. }
  intros Hloop.
  destruct (collectLoop_docs _ _ _ _ _ _ Hloop) as (new & -> & Hbase & Hall).
  by split.
Qed.

Lemma inPlaceLoop_filter (baseDir : string) (docs : list treeDoc)
    (st : writeState) :
  inPlaceLoop baseDir docs st
  = inPlaceLoop baseDir (filter (λ d, pkgDir d ≠ "") docs) st.
Proof.
  revert st. induction docs as [|d docs IH]; intros st; [done|].
  cbn [inPlaceLoop]. destruct (String.eqb (pkgDir d) "") eqn:Hdir.
  - apply eqb_true in Hdir. by rewrite filter_cons_False by naive_solver.
  - apply eqb_false in Hdir. rewrite filter_cons_True by done.
    cbn [inPlaceLoop]. apply eqb_false in Hdir. rewrite Hdir.
    destruct (os_MkdirAll (files st) (pkgDir d)) as [fs1|]; [|done].
    destruct (sameDir (pkgDir d) baseDir); [apply IH|].
    destruct (os_WriteFile fs1 _ _); [apply IH|done].
Qed.

(** X21: Documents without a package directory have no part in
    [writePackageDocsInPlace]. *)
Theorem writePackageDocsInPlace_skips (baseDir : string)
    (docs : list treeDoc) (fs : FS) :
  writePackageDocsInPlace baseDir docs fs
  = writePackageDocsInPlace baseDir (filter (λ d, pkgDir d ≠ "") docs) fs.
Proof.
  unfold writePackageDocsInPlace. by rewrite <- inPlaceLoop_filter.
Qed.

Lemma appendTOCAfterDoc_empty (doc toc : string) :
  appendTOCAfterDoc doc toc = "" → doc = "".
Proof.
  unfold appendTOCAfterDoc. destruct (len toc =? 0) eqn:Htoc; [done|].
  destruct (len doc =? 0) eqn:Hdoc.
  { intros _. by apply Z.eqb_eq, len_zero in Hdoc. }
  intros Hcontent. apply (f_equal len) in Hcontent.
  rewrite len_app in Hcontent. change (len "") with 0 in Hcontent.
  pose proof (len_nonneg toc).
  assert (len toc ≠ 0) by (by apply Z.eqb_neq). 
  match type of Hcontent with len ?c + _ = _ => pose proof (len_nonneg c) end.
  lia.
Qed.

(** X22: After its loop, [writePackageDocsInPlace] writes one more file:
    the root document, if the loop found one, with the table of
    contents after it, at the path the loop ended with.  It writes no
    empty file: without content it returns the file system of the
    loop. *)
Theorem writePackageDocsInPlace_root (baseDir : string) (docs : list treeDoc)
    (fs fs' : FS) :
  writePackageDocsInPlace baseDir docs fs = Ok fs' →
  baseDir ≠ ""
  ∧ ∃ st,
      inPlaceLoop (filepath_Clean baseDir) docs
        (WriteState [] None
           (filepath_Join (filepath_Clean baseDir) "README.md") fs) = Ok st
      ∧ let content :=
          appendTOCAfterDoc (from_option markdown "" (rootDoc st))
            (buildTOC (sortEntries (entries st))) in
        if String.eqb content "" then fs' = files st
        else fs_files fs' = <[rootPath st := content]> (fs_files (files st))
             ∧ fs_dirs fs' = fs_dirs (files st).
Proof.
  unfold writePackageDocsInPlace.
  destruct (String.eqb baseDir "") eqn:Hbase; [done|].
  apply eqb_false in Hbase. cbv zeta.
  destruct (inPlaceLoop _ _ _) as [st|]; [|done].
  set (toc := buildTOC (sortEntries (entries st))).
  assert (∀ content,
    (if len content =? 0 then Ok (files st)
     else os_WriteFile (files st) (rootPath st) content) = Ok fs' →
    if String.eqb content "" then fs' = files st
    else fs_files fs' = <[rootPath st := content]> (fs_files (files st))
         ∧ fs_dirs fs' = fs_dirs (files st)) as Hfinal.
  { intros content. destruct (len content =? 0) eqn:Hlen.
    - apply Z.eqb_eq, len_zero in Hlen. rewrite Hlen. by intros [= <-].
    - assert (content ≠ "") as Hne.
      { intros ->. done. }
      apply eqb_false in Hne. rewrite Hne. apply os_WriteFile_files. }
  intros Hwrite. split; [done|]. exists st. split; [done|]. revert Hwrite.
  destruct (rootDoc st) as [root|]; cbn [from_option]; intros Hwrite.
  - apply Hfinal. revert Hwrite.
    destruct (len (appendTOCAfterDoc (markdown root) toc) =? 0) eqn:Hlen;
      [|done].
    apply Z.eqb_eq, len_zero in Hlen.
    pose proof (appendTOCAfterDoc_empty _ _ Hlen) as Hroot.
    fold toc. by rewrite Hlen, Hroot.
  - apply Hfinal. revert Hwrite. fold toc.
    assert (appendTOCAfterDoc "" toc = toc) as ->.
    { unfold appendTOCAfterDoc. destruct (len toc =? 0) eqn:Htoc; [|done].
      by apply Z.eqb_eq, len_zero in Htoc. }
    destruct (len toc >? 0) eqn:Htoc; [done|].
    assert (toc = "") as ->; [|done].
    apply len_zero. pose proof (len_nonneg toc). lia.
Qed.

End PackageTree.

Lemma execute_first_match_witness :
  let opts := defaultOptions in
  let w := World emptyFS "" in
  let run :=
    @execute (asciiRuntime exampleLoad) insertionSort noDecls noSource exampleOS opts
      ["example"] stdCache_init w in
  let attemptOf :=
    @attemptOf (asciiRuntime exampleLoad) noDecls noSource exampleOS opts in
  let cands := [Invocation "example" "" ""; Invocation "." "example" ""] in
  (∃ before cand after, cands = before ++ cand :: after
     ∧ Forall (λ c, isMiss (attemptOf c)) before
     ∧ match attemptOf cand with
       | Miss _ => False
       | Fail err => run = Err err
       | Hit md =>
           run = @writeOutput (asciiRuntime exampleLoad) exampleOS
                   (outputPath opts) md w
       end)
  ∨ (∃ before cand err, cands = before ++ [cand]
       ∧ Forall (λ c, isMiss (attemptOf c)) before
       ∧ attemptOf cand = Miss err
       ∧ run = Err err).
Proof.
  apply (@execute_first_match (asciiRuntime exampleLoad) insertionSort
           noDecls noSource exampleOS defaultOptions ["example"] (World emptyFS ""));
    vm_compute; reflexivity.
Defined.

Lemma loadPackageTree_unique_witness :
  ∃ result,
    @loadPackageTree (asciiRuntime exampleLoad) exampleOS "/src/example"
    = Ok result
    ∧ ∃ pkgs,
        exampleLoad (@buildPatterns (asciiRuntime exampleLoad) "/src/example")
        = Ok pkgs
        ∧ Forall (λ p, Errors p = []) pkgs
        ∧ Sorted (λ a b, String.le (PkgPath a) (PkgPath b)) result
        ∧ NoDup (@packageKey exampleOS <$> result)
        ∧ ∀ p, p ∈ result
            ↔ ∃ before after, pkgs = before ++ p :: after
                ∧ Forall (λ q, @packageKey exampleOS q
                               ≠ @packageKey exampleOS p) after.
Proof.
  destruct (@loadPackageTree (asciiRuntime exampleLoad) exampleOS
              "/src/example") as [result|] eqn:Hrun;
    [|by vm_compute in Hrun].
  exists result. split; [done|].
  exact (@loadPackageTree_unique (asciiRuntime exampleLoad) exampleOS
           "/src/example" result Hrun).
Defined.

Lemma collectPackageDocs_packages_witness :
  let collect :=
    @collectPackageDocs (asciiRuntime exampleLoad) noDecls noSource exampleOS
      "/src/example" defaultOptions emptyFS in
  ∃ pkgs docs baseDir,
    @loadPackageTree (asciiRuntime exampleLoad) exampleOS "/src/example"
    = Ok pkgs
    ∧ collect = Ok (docs, baseDir)
    ∧ (pkgs ≠ [] →
       baseDir
       = if String.eqb (@resolveBaseDir (asciiRuntime exampleLoad) exampleOS
                          "/src/example" emptyFS) ""
         then default "" (head (filter (λ s, s ≠ "") (pkgDir <$> docs)))
         else @resolveBaseDir (asciiRuntime exampleLoad) exampleOS
                "/src/example" emptyFS)
    ∧ Forall2
        (λ p d, ∃ docPkg,
           @buildDocPackage exampleOS p defaultOptions = Ok docPkg
           ∧ markdown d
             = @Markdown.renderPackage (asciiRuntime exampleLoad) noSource
                 {| r_options := defaultOptions; pkg := docPkg |}
           ∧ docSummary d
             = @summaryText (asciiRuntime exampleLoad) (doc.Doc docPkg)
           ∧ pkgPath d = PkgPath p
           ∧ pkgDir d = @absolutePath exampleOS (@packageDir exampleOS p)
           ∧ relDir d
             = @deriveRelativeDir (asciiRuntime exampleLoad) exampleOS p
                 baseDir (pkgDir d))
        pkgs docs.
Proof.
  intros collect.
  destruct (@loadPackageTree (asciiRuntime exampleLoad) exampleOS
              "/src/example") as [pkgs|] eqn:Hload;
    [|by vm_compute in Hload].
  destruct collect as [[docs baseDir]|] eqn:Hrun; [|by vm_compute in Hrun].
  exists pkgs, docs, baseDir. split; [done|]. split; [done|].
  exact (@collectPackageDocs_packages (asciiRuntime exampleLoad) noDecls
           noSource exampleOS "/src/example" defaultOptions emptyFS pkgs docs
           baseDir Hload Hrun).
Defined.

Lemma writePackageDocsInPlace_root_witness :
  ∃ fs',
    @writePackageDocsInPlace (asciiRuntime exampleLoad) insertionSort
      exampleOS "/src/example" exampleDocs emptyFS = Ok fs'
    ∧ "/src/example" ≠ ""
    ∧ ∃ st,
        @inPlaceLoop (asciiRuntime exampleLoad) exampleOS "/src/example"
          exampleDocs (WriteState [] None "/src/example/README.md" emptyFS)
        = Ok st
        ∧ let content :=
            appendTOCAfterDoc (from_option markdown "" (rootDoc st))
              (buildTOC (@sortEntries insertionSort (entries st))) in
          if String.eqb content "" then fs' = files st
          else fs_files fs'
               = <[rootPath st := content]> (fs_files (files st))
               ∧ fs_dirs fs' = fs_dirs (files st).
Proof.
  destruct (@writePackageDocsInPlace (asciiRuntime exampleLoad) insertionSort
              exampleOS "/src/example" exampleDocs emptyFS) as [fs'|] eqn:Hrun;
    [|by vm_compute in Hrun].
  exists fs'. split; [done|].
  exact (@writePackageDocsInPlace_root (asciiRuntime exampleLoad)
           insertionSort exampleOS "/src/example" exampleDocs emptyFS fs'
           Hrun).
Defined.
(** ** [documentTarget] and [documentPackageTree] *)

Section DocumentTarget.
Context `{GoRuntime} `{GoSort} `{!SortSliceSpec} `{GoDecls} `{GoFormat} `{GoOS}.
Import GoStrings StringFacts StringList.

Lemma newline_nonempty (s : string) : endsWithNewline s → s ≠ "".
Proof.
  intros [p ->] Hnil. apply (f_equal String.length) in Hnil.
  rewrite slength_app in Hnil. simpl in Hnil. lia.
Qed.

Lemma writeAll_nonempty (parts : list string) :
  Forall (λ p, p ≠ "") parts → writeAll parts ≠ "" ↔ parts ≠ [].
Proof.
  intros Hall. destruct Hall as [|p parts Hp _]; [done|].
  split; [done|]. intros _. simpl. by destruct p.
Qed.

Lemma blockText_nonempty (r : markdownRenderer) (b : block) :
  Markdown.blockText r b ≠ "".
Proof.
  apply newline_nonempty. destruct b as [t|f receiver|v]; simpl.
  - apply blank_newline, renderTypeDoc_blank.
  - apply renderFuncDoc_newline.
  - apply renderValueDoc_newline.
Qed.

Lemma memberText_nonempty (r : markdownRenderer) (b : memberBlock) :
  Markdown.memberText r b ≠ "".
Proof.
  apply newline_nonempty. destruct b as [f receiver|t name field]; simpl.
  - apply renderFuncDoc_newline.
  - unfold Markdown.renderFieldName. cbv zeta.
    destruct (short (r_options r)); [by eexists|].
    apply blank_newline.
    replace ("#### " +:+ doc.Type_Name t +:+ "." +:+ name +:+ NL +:+ NL
             +:+ Markdown.writeCodeBlock (Markdown.formatField field)
             +:+ Markdown.writeDoc (default "" (ast.Field_Doc field)))
      with ("#### " +:+ (doc.Type_Name t +:+ "." +:+ name) +:+ NL +:+ NL
            +:+ Markdown.writeCodeBlock (Markdown.formatField field)
            +:+ Markdown.writeDoc (default "" (ast.Field_Doc field)))
      by (by rewrite <- !sapp_assoc).
    apply heading_blank, emptyOrBlank_app;
      [apply writeCodeBlock_blank|apply writeDoc_blank].
Qed.

Lemma renderSymbol_rendered (r : markdownRenderer) (symbol : string) :
  (renderSymbol r [] symbol).2
  = bool_decide ((renderSymbol r [] symbol).1 ≠ []).
Proof.
  unfold renderSymbol.
  rewrite foldl_symbolTypeStep, foldl_symbolFuncStep, !foldl_symbolValueStep,
    foldl_symbolMemberStep.
  cbn [fst snd app orb]. by rewrite !nonempty_app, <- !orb_assoc.
Qed.

Lemma renderMethod_rendered (r : markdownRenderer)
    (typeName methodName : string) :
  (renderMethod r [] typeName methodName).2
  = bool_decide ((renderMethod r [] typeName methodName).1 ≠ []).
Proof. unfold renderMethod. by rewrite foldl_methodTypeStep. Qed.

(** X23: The package view always counts as handled, whatever it writes.  A
    symbol or a method counts as handled exactly when its view wrote
    something, and its result has no summary. *)
Theorem documentTarget_handled (pkgInfo : Package) (symbol method : string)
    (opts : options) (res : docResult) (handled : bool) :
  documentTarget pkgInfo symbol method opts = Ok (res, handled) →
  if String.eqb symbol "" then handled = true
  else (handled = true ↔ Markdown res ≠ "") ∧ Summary res = "".
Proof.
  unfold documentTarget.
  destruct (buildDocPackage pkgInfo opts) as [docPkg|]; [|done]. cbv zeta.
  set (r := {| r_options := opts; pkg := docPkg |}).
  destruct (String.eqb symbol ""); [by intros [= <- <-]|].
  destruct (String.eqb method "").
  - pose proof (renderSymbol_rendered r symbol) as Hok.
    destruct (renderSymbol r [] symbol) as [buf ok]. cbn [fst snd] in Hok.
    intros [= <- <-]. cbn [Markdown Summary]. split; [|done].
    rewrite Hok, bool_decide_eq_true, writeAll_nonempty.
    + by destruct buf.
    + apply Forall_map, Forall_forall. intros b _. apply blockText_nonempty.
  - pose proof (renderMethod_rendered r symbol method) as Hok.
    destruct (renderMethod r [] symbol method) as [buf ok].
    cbn [fst snd] in Hok.
    intros [= <- <-]. cbn [Markdown Summary]. split; [|done].
    rewrite Hok, bool_decide_eq_true, writeAll_nonempty.
    + by destruct buf.
    + apply Forall_map, Forall_forall. intros b _. apply memberText_nonempty.
Qed.

Lemma collectLoop_markdown (pkgs : list Package) (opts : options)
    (docs0 docs : list treeDoc) (base0 base : string) :
  collectLoop pkgs opts docs0 base0 = Ok (docs, base) →
  Forall (λ d, emptyOrBlankLine (markdown d)) docs0 →
  Forall (λ d, emptyOrBlankLine (markdown d)) docs.
Proof.
  intros Hloop Hdocs0.
  destruct (collectLoop_docs _ _ _ _ _ _ Hloop) as (new & -> & _ & Hall).
  apply Forall_app. split; [done|].
  apply Forall_forall. intros d Hd.
  apply list_elem_of_lookup_1 in Hd as [i Hi].
  destruct (Forall2_lookup_r _ _ _ _ _ Hall Hi)
    as (p & _ & docPkg & _ & -> & _).
  apply renderPackage_blank.
Qed.

(** X24: A successful directory output for a tree whose packages have
    distinct import paths leaves a root [README.md] in the output
    directory: the package view of the root package, if the tree has
    one, directly followed by the table of contents of the other
    packages.  With distinct import paths the order of the documents
    does not depend on the order in which the packages come out of the
    map of [loadPackageTree]; among documents of the same relative
    directory the root is the last one as [sort.Slice] leaves them. *)
Theorem documentPackageTree_readme (root : string) (opts : options)
    (fs fs' : FS) (loaded : list Package) :
  inplace opts = false →
  loadPackageTree root = Ok loaded →
  NoDup (PkgPath <$> loaded) →
  documentPackageTree root opts fs = Ok fs' →
  ∃ docs baseDir,
    collectPackageDocs root opts fs = Ok (docs, baseDir)
    ∧ let sorted := sortDocs docs in
      let toc :=
        buildTOC (sortEntries
                    (tocEntryOf <$> filter (λ d, isSubDir d = true) sorted)) in
      fs_files fs' !! filepath_Join (outputPath opts) "README.md"
      = Some (from_option markdown ""
                (last (filter (λ d, isSubDir d = false) sorted)) +:+ toc).
Proof.
  intros Hinplace _ _. unfold documentPackageTree. rewrite Hinplace.
  destruct (collectPackageDocs root opts fs) as [[docs baseDir]|] eqn:Hdocs;
    [|done].
  destruct docs as [|d0 docs0] eqn:Hlist; [done|]. rewrite <- Hlist in *.
  assert (docs ≠ []) as Hne by (by rewrite Hlist). clear Hlist d0 docs0.
  destruct (String.eqb (outputPath opts) ""); [done|].
  intros Hwrite. exists docs, baseDir. split; [done|].
  pose proof (writePackageDocsToDir_readme _ _ _ _ Hwrite) as [_ Hreadme].
  cbv zeta in *.
  assert (Forall (λ d, emptyOrBlankLine (markdown d)) (sortDocs docs))
    as Hblank.
  { assert (sortDocs docs ≡ₚ docs) as -> by apply sort_Slice_Permutation.
    revert Hdocs. unfold collectPackageDocs.
    destruct (loadPackageTree root) as [[|p pkgs]|]; [by intros [= <- _]| |done].
    intros Hloop. by apply (collectLoop_markdown _ _ _ _ _ _ Hloop). }
  assert (sortDocs docs ≠ []) as Hsorted.
  { intros Hnil. apply Hne, Permutation_nil_r.
    rewrite <- Hnil. symmetry. apply sort_Slice_Permutation. }
  destruct (last (filter (λ d, isSubDir d = false) (sortDocs docs)))
    as [rootd|] eqn:Hlast; cbn [from_option].
  - rewrite Hreadme. f_equal. apply appendTOCAfterDoc_blank.
    apply last_Some_elem_of, list_elem_of_filter in Hlast as [_ Hin].
    by apply (proj1 (Forall_forall _ _) Hblank).
  - apply last_None in Hlast.
    destruct (String.eqb _ "") eqn:Htoc; [|done]. exfalso.
    apply eqb_true, buildTOC_empty in Htoc.
    destruct (sortDocs docs) as [|d sorted]; [done|].
    destruct (isSubDir d) eqn:Hsub.
    + rewrite filter_cons_True in Htoc by done.
      assert (sortEntries (tocEntryOf <$> d :: filter (λ d, isSubDir d = true)
                                                sorted)
              ≡ₚ tocEntryOf <$> d :: filter (λ d, isSubDir d = true) sorted)
        as Hperm by apply sort_Slice_Permutation.
      rewrite Htoc in Hperm. by apply Permutation_nil_cons in Hperm.
    + by rewrite filter_cons_True in Hlast.
Qed.

End DocumentTarget.

Lemma documentTarget_handled_witness :
  ∃ res handled,
    @documentTarget (asciiRuntime exampleLoad) noDecls noSource exampleOS
      {| PkgPath := "example"; Errors := [] |} "Greeter" "" defaultOptions
    = Ok (res, handled)
    ∧ (handled = true ↔ Markdown res ≠ "") ∧ Summary res = "".
Proof.
  destruct (@documentTarget (asciiRuntime exampleLoad) noDecls noSource
              exampleOS {| PkgPath := "example"; Errors := [] |} "Greeter" ""
              defaultOptions) as [[res handled]|] eqn:Hrun;
    [|by vm_compute in Hrun].
  exists res, handled. split; [done|].
  exact (@documentTarget_handled (asciiRuntime exampleLoad) noDecls noSource
           exampleOS {| PkgPath := "example"; Errors := [] |} "Greeter" ""
           defaultOptions res handled Hrun).
Defined.

Lemma documentPackageTree_readme_witness :
  ∃ fs',
    @documentPackageTree (asciiRuntime exampleLoad) insertionSort noDecls
      noSource exampleOS "/src/example" outOptions emptyFS = Ok fs'
    ∧ ∃ docs baseDir,
        @collectPackageDocs (asciiRuntime exampleLoad) noDecls noSource
          exampleOS "/src/example" outOptions emptyFS = Ok (docs, baseDir)
        ∧ let sorted := @sortDocs insertionSort docs in
          let toc :=
            buildTOC
              (@sortEntries insertionSort
                 (@tocEntryOf (asciiRuntime exampleLoad)
                    <$> filter (λ d, isSubDir d = true) sorted)) in
          fs_files fs' !! "out/README.md"
          = Some (from_option markdown ""
                    (last (filter (λ d, isSubDir d = false) sorted))
                  +:+ toc).
Proof.
  destruct (@documentPackageTree (asciiRuntime exampleLoad) insertionSort
              noDecls noSource exampleOS "/src/example" outOptions emptyFS)
    as [fs'|] eqn:Hrun; [|by vm_compute in Hrun].
  exists fs'. split; [done|].
  apply (@documentPackageTree_readme (asciiRuntime exampleLoad) insertionSort
           insertionSort_spec noDecls noSource exampleOS "/src/example"
           outOptions emptyFS fs'
           [ {| PkgPath := "example"; Errors := [] |};
             {| PkgPath := "example/subpkg"; Errors := [] |} ]).
  - reflexivity.
  - vm_compute. reflexivity.
  - apply (bool_decide_unpack _). vm_compute. exact I.
  - exact Hrun.
Defined.
